(** * Nexus Maze: a shallow embedding of the simulation core

    The development follows the JavaScript sources module by module:
    - [GameState]  : [GameStateManager] and the [Emitter] it extends;
    - [Coords]     : [gridToWorld] / [worldToGrid];
    - [Contact]    : the enemy-contact branch of [#collisionSystem];
    - [Lifecycle]  : [#animate], the goal branch and the level timers;
    - [ECS]        : the entity/component store and its query caches;
    - [Effects]    : [#effectsSystem] over that store;
    - [Pathfinder] : [findPath] (A* over the maze grid);
    - [Maze]       : [#generateMaze] and the size chosen by [#createLevel];
    - [Binary64]   : the coordinate helpers again, on IEEE 754 doubles;
    - [Observers]  : what the listeners of a [GameStateManager] are told;
    - [StoreLaws]  : laws of the entity/component store;
    - [Routes]     : the paths of [findPath] are simple;
    - [Labyrinth]  : the maze of [#generateMaze], extra openings included;
    - [Walls]      : the wall block of [#collisionSystem];
    - [Crowd]      : the enemy-separation block of [#collisionSystem];
    - [Particles]  : the particle pool and [#particleSystem];
    - [Trail]      : [#trailSystem];
    - [Fog]        : [#fogOfWarSystem];
    - [Enemies]    : the enemy states, [FiniteStateMachine] and [#aiSystem];
    - [Population] : [#populateMaze];
    - [Input]      : the key listeners and [#inputSystem].
    Positions and velocities that go through [Math.hypot] or a square
    root are modelled as real numbers ([R]).
    Numbers that the program only adds, compares and clamps are modelled
    as rationals ([Q]); integer data (levels, grid cells, clock values in
    milliseconds) as [Z] or [nat]. *)

From Stdlib Require Import ZArith QArith Qround Qminmax Qabs Reals Psatz.
From Stdlib Require Import Ascii String.
From Stdlib Require Floats.
From stdpp Require Import gmap strings list pretty sorting.

(** ** GameStateManager (src/state/gameStateManager.js) and Emitter *)

Module GameState.

Local Open Scope Q_scope.

(** [Emitter.events] maps an event name to the listeners registered for
    it; a listener is identified by a number.  Because listeners are
    opaque callbacks the model records what [emit] does as two logs: the
    calls of [emit] ([emitted]) and, per listener invoked, the payload it
    received ([delivered]). *)
Record state := mkState {
  score : Q;
  health : Q;
  energy : Q;
  level : Q;
  events : gmap string (list nat);
  emitted : list (string * Q);
  delivered : list (nat * string * Q)
}.

(** [on(event, listener)]: a [Set] keeps one copy of a listener. *)
Definition on (event : string) (listener : nat) (s : state) : state :=
  let ls := default [] (events s !! event) in
  let ls' := if decide (listener ∈ ls) then ls else ls ++ [listener] in
  mkState (score s) (health s) (energy s) (level s)
          (<[event := ls']> (events s)) (emitted s) (delivered s).

(** [emit(event, payload)]. *)
Definition emit (event : string) (payload : Q) (s : state) : state :=
  let ls := default [] (events s !! event) in
  mkState (score s) (health s) (energy s) (level s) (events s)
          (emitted s ++ [(event, payload)])
          (delivered s ++ map (fun l => (l, event, payload)) ls).

(** [Math.max(0, Math.min(100, value))]. *)
Definition normalize (value : Q) : Q := Qmax 0 (Qmin 100 value).

(** [set score(value)]: stores the value as given, then emits. *)
Definition set_score (value : Q) (s : state) : state :=
  let s1 := mkState value (health s) (energy s) (level s)
                    (events s) (emitted s) (delivered s) in
  emit "scoreChanged" (score s1) s1.

(** [set health(value)]: clamps, returns early when nothing changes. *)
Definition set_health (value : Q) (s : state) : state :=
  let normalized := normalize value in
  if Qeq_bool normalized (health s) then s
  else
    let s1 := mkState (score s) normalized (energy s) (level s)
                      (events s) (emitted s) (delivered s) in
    emit "healthChanged" (health s1) s1.

(** [set energy(value)]: same shape as [set health]. *)
Definition set_energy (value : Q) (s : state) : state :=
  let normalized := normalize value in
  if Qeq_bool normalized (energy s) then s
  else
    let s1 := mkState (score s) (health s) normalized (level s)
                      (events s) (emitted s) (delivered s) in
    emit "energyChanged" (energy s1) s1.

(** [set level(value)]. *)
Definition set_level (value : Q) (s : state) : state :=
  let s1 := mkState (score s) (health s) (energy s) value
                    (events s) (emitted s) (delivered s) in
  emit "levelChanged" (level s1) s1.

(** [addScore(points, multiplier = 1)]: [this.score += points * multiplier]. *)
Definition addScore (points multiplier : Q) (s : state) : state :=
  set_score (score s + points * multiplier) s.

(** [reset()] assigns the private fields directly: no event. *)
Definition reset (s : state) : state :=
  mkState 0 100 100 1 (events s) (emitted s) (delivered s).

(** The state right after construction. *)
Definition initial : state := mkState 0 100 100 1 ∅ [] [].

Lemma normalize_range value : 0 <= normalize value /\ normalize value <= 100.
Proof.
  unfold normalize. split.
  - apply Q.le_max_l.
  - apply Q.max_lub; [discriminate |]. apply Q.le_min_l.
Qed.

Lemma normalize_id value : 0 <= value -> value <= 100 -> normalize value == value.
Proof.
  intros H0 H1. unfold normalize.
  rewrite (Q.min_r 100 value) by exact H1.
  apply Q.max_r. exact H0.
Qed.

(** What a clamping setter stores and emits, in one statement per field. *)
Lemma set_health_spec value s :
  health (set_health value s) == normalize value /\
  emitted (set_health value s) =
    (if Qeq_bool (normalize value) (health s) then emitted s
     else emitted s ++ [("healthChanged"%string, normalize value)]).
Proof.
  unfold set_health. destruct (Qeq_bool (normalize value) (health s)) eqn:E.
  - split; [| reflexivity]. symmetry. apply Qeq_bool_iff. exact E.
  - simpl. split; reflexivity.
Qed.

Lemma set_energy_spec value s :
  energy (set_energy value s) == normalize value /\
  emitted (set_energy value s) =
    (if Qeq_bool (normalize value) (energy s) then emitted s
     else emitted s ++ [("energyChanged"%string, normalize value)]).
Proof.
  unfold set_energy. destruct (Qeq_bool (normalize value) (energy s)) eqn:E.
  - split; [| reflexivity]. symmetry. apply Qeq_bool_iff. exact E.
  - simpl. split; reflexivity.
Qed.

(** C9 (as the code has it): the health and energy setters store the
    value clamped to [0, 100] and emit their change event exactly when
    the clamped value differs from the stored one; the score setter
    stores its argument unchanged, whatever it is, and always emits
    [scoreChanged]. *)
Theorem setters_clamp_and_notify (value : Q) (s : state) :
  (health (set_health value s) == normalize value /\
   0 <= health (set_health value s) <= 100 /\
   emitted (set_health value s) =
     (if Qeq_bool (normalize value) (health s) then emitted s
      else emitted s ++ [("healthChanged"%string, normalize value)])) /\
  (energy (set_energy value s) == normalize value /\
   0 <= energy (set_energy value s) <= 100 /\
   emitted (set_energy value s) =
     (if Qeq_bool (normalize value) (energy s) then emitted s
      else emitted s ++ [("energyChanged"%string, normalize value)])) /\
  (score (set_score value s) = value /\
   emitted (set_score value s) = emitted s ++ [("scoreChanged"%string, value)]).
Proof.
  pose proof (normalize_range value) as [Hlo Hhi].
  destruct (set_health_spec value s) as [Hh He].
  destruct (set_energy_spec value s) as [Hn Hm].
  repeat split; try assumption; try reflexivity.
  - rewrite Hh. exact Hlo.
  - rewrite Hh. exact Hhi.
  - rewrite Hn. exact Hlo.
  - rewrite Hn. exact Hhi.
Qed.

(** C9 fails as stated: assigning health its current value emits
    nothing, and the score setter keeps a negative value and is bounded
    by no range at all. *)
Lemma setters_not_uniform :
  emitted (set_health 100 initial) = [] /\
  emitted (set_energy 250 initial) = [] /\
  score (set_score (-5) initial) = -5 /\
  ~ (exists lo hi : Q, forall v, lo <= score (set_score v initial) <= hi).
Proof.
  repeat split.
  intros (lo & hi & H).
  destruct (H (hi + 1)) as [_ Hle]. simpl in Hle. lra.
Qed.

End GameState.

(** ** Grid/world conversion (gridToWorld, worldToGrid in nexusMazeGame.js) *)

Module Coords.

Local Open Scope Q_scope.

(** [GAME_CONSTANTS.CELL_SIZE] *)
Definition CELL_SIZE : Q := 5 # 2.

(** [gridToWorld(gx, gz)] with [size = state.currentMazeSize].  The
    arithmetic is written as in the source; on integers of the size of
    a maze every intermediate value is a multiple of 1/4 and so exact
    in binary64, which is why exact rationals are a faithful model. *)
Definition gridToWorld (size : Z) (gx gz : Z) : Q * Q :=
  let cs := CELL_SIZE in
  ((inject_Z gx - inject_Z size / 2) * cs + cs / 2,
   (inject_Z gz - inject_Z size / 2) * cs + cs / 2).

(** [#worldToGrid(wx, wz)]; the public [worldToGrid] only forwards. *)
Definition worldToGrid (size : Z) (wx wz : Q) : Z * Z :=
  let cs := CELL_SIZE in
  (Qfloor (wx / cs + inject_Z size / 2), Qfloor (wz / cs + inject_Z size / 2)).

Lemma Qfloor_half (g : Z) : Qfloor (inject_Z g + (1 # 2)) = g.
Proof.
  pose proof (Qfloor_le (inject_Z g + (1 # 2))) as Hle.
  pose proof (Qlt_floor (inject_Z g + (1 # 2))) as Hlt.
  rewrite inject_Z_plus in Hlt. change (inject_Z 1) with 1 in Hlt.
  assert (Qfloor (inject_Z g + (1 # 2)) < g + 1)%Z as H1.
  { rewrite Zlt_Qlt, inject_Z_plus. change (inject_Z 1) with 1. lra. }
  assert (g < Qfloor (inject_Z g + (1 # 2)) + 1)%Z as H2.
  { rewrite Zlt_Qlt, inject_Z_plus. change (inject_Z 1) with 1. lra. }
  lia.
Qed.

Lemma axis_round_trip (size g : Z) :
  Qfloor (((inject_Z g - inject_Z size / 2) * CELL_SIZE + CELL_SIZE / 2) / CELL_SIZE
          + inject_Z size / 2) = g.
Proof.
  rewrite <- (Qfloor_half g) at 2.
  apply Qfloor_comp. unfold CELL_SIZE. field.
Qed.

(** C10: converting a grid cell to its world point and back gives the
    cell again, for every integer cell and every maze size. *)
Theorem worldToGrid_gridToWorld (size gx gz : Z) :
  worldToGrid size (fst (gridToWorld size gx gz)) (snd (gridToWorld size gx gz))
  = (gx, gz).
Proof.
  unfold worldToGrid, gridToWorld. cbn [fst snd].
  rewrite !axis_round_trip. reflexivity.
Qed.

End Coords.

(** ** Enemy contact damage (the fourth block of #collisionSystem) *)

Module Contact.

Local Open Scope R_scope.

(** Positions and velocities are [{x, y, z}] objects of JS numbers.
    The block takes a square root ([Math.hypot]), so numbers are
    modelled as real numbers here. *)
Record vec3 := mkVec { x : R; y : R; z : R }.

Record enemy := mkEnemy { eid : nat; pos : vec3; vel : vec3 }.

Definition ENEMY_CONTACT_RADIUS : R := 1.
Definition ENEMY_CONTACT_DAMAGE : R := 20.
Definition ENEMY_KNOCKBACK_FORCE : R := 15.

(** [Math.hypot(a, b)] *)
Definition hypot (a b : R) : R := sqrt (a * a + b * b).

(** [d || 1]: a zero distance is replaced by 1. *)
Definition orOne (d : R) : R := if Req_dec_T d 0 then 1 else d.

(** What one run of the block did: the player's velocity, the enemies
    (in query order) with their velocities, and for the enemy that was
    hit, if any, its id and the two velocity increments as the source
    computes them: [(normX * F, normZ * F)] added to the player and
    [(normX * F * 0.5, normZ * F * 0.5)] subtracted from the enemy. *)
Record outcome := mkOutcome {
  playerVel : vec3;
  enemies : list enemy;
  hitEid : option nat;
  playerKnock : R * R;
  enemyKnock : R * R;
  damage : R
}.

(** [for (const eid of enemies) { if (hypot(...) < RADIUS) { ...; break; } }] *)
Fixpoint contactLoop (playerPos pVel : vec3) (es : list enemy) : outcome :=
  match es with
  | [] => mkOutcome pVel [] None (0, 0) (0, 0) 0
  | e :: rest =>
      if Rlt_dec (hypot (x playerPos - x (pos e)) (z playerPos - z (pos e)))
                 ENEMY_CONTACT_RADIUS
      then
        let knockX := x playerPos - x (pos e) in
        let knockZ := z playerPos - z (pos e) in
        let dist := orOne (hypot knockX knockZ) in
        let normX := knockX / dist in
        let normZ := knockZ / dist in
        let pk := (normX * ENEMY_KNOCKBACK_FORCE, normZ * ENEMY_KNOCKBACK_FORCE) in
        let ek := (normX * ENEMY_KNOCKBACK_FORCE * (1 / 2),
                   normZ * ENEMY_KNOCKBACK_FORCE * (1 / 2)) in
        let pVel' := mkVec (x pVel + fst pk) (y pVel) (z pVel + snd pk) in
        let eVel' := mkVec (x (vel e) - fst ek) (y (vel e)) (z (vel e) - snd ek) in
        mkOutcome pVel' (mkEnemy (eid e) (pos e) eVel' :: rest) (Some (eid e))
                  pk (- fst ek, - snd ek) ENEMY_CONTACT_DAMAGE
      else
        let r := contactLoop playerPos pVel rest in
        mkOutcome (playerVel r) (e :: enemies r) (hitEid r)
                  (playerKnock r) (enemyKnock r) (damage r)
  end.

(** [if (!hasComponent(InvulnerabilityShield, playerEid)) { for ... }] *)
Definition enemyContact (shielded : bool) (playerPos pVel : vec3)
    (es : list enemy) : outcome :=
  if shielded then mkOutcome pVel es None (0, 0) (0, 0) 0
  else contactLoop playerPos pVel es.

Definition inContact (playerPos : vec3) (e : enemy) : Prop :=
  hypot (x playerPos - x (pos e)) (z playerPos - z (pos e)) < ENEMY_CONTACT_RADIUS.

(** The magnitude of a horizontal increment. *)
Definition magnitude (k : R * R) : R := hypot (fst k) (snd k).

Lemma hypot_scale (c a b : R) : 0 <= c -> hypot (c * a) (c * b) = c * hypot a b.
Proof.
  intros Hc. unfold hypot.
  replace (c * a * (c * a) + c * b * (c * b)) with (c * c * (a * a + b * b)) by ring.
  rewrite sqrt_mult_alt by nra.
  rewrite sqrt_square by exact Hc. reflexivity.
Qed.

Lemma hypot_opp (a b : R) : hypot (- a) (- b) = hypot a b.
Proof. unfold hypot. f_equal. ring. Qed.

Lemma hypot_nonneg (a b : R) : 0 <= hypot a b.
Proof. apply sqrt_pos. Qed.

Lemma hypot_zero (a b : R) : hypot a b = 0 -> a = 0 /\ b = 0.
Proof.
  unfold hypot. intros H. apply sqrt_eq_0 in H; [| nra]. split; nra.
Qed.

Lemma hypot_unit (a b : R) :
  hypot a b <> 0 -> hypot (a / hypot a b) (b / hypot a b) = 1.
Proof.
  intros Hne.
  pose proof (hypot_nonneg a b) as Hpos.
  unfold Rdiv. rewrite (Rmult_comm a), (Rmult_comm b).
  rewrite hypot_scale.
  - field. exact Hne.
  - left. apply Rinv_0_lt_compat. lra.
Qed.

(** The loop hits the first enemy in contact, and only that one. *)
Lemma contactLoop_first playerPos pVel (before : list enemy) e after :
  Forall (fun e' => ~ inContact playerPos e') before ->
  inContact playerPos e ->
  let r := contactLoop playerPos pVel (before ++ e :: after) in
  let knockX := x playerPos - x (pos e) in
  let knockZ := z playerPos - z (pos e) in
  let dist := orOne (hypot knockX knockZ) in
  hitEid r = Some (eid e) /\
  playerKnock r = (knockX / dist * ENEMY_KNOCKBACK_FORCE,
                   knockZ / dist * ENEMY_KNOCKBACK_FORCE) /\
  enemyKnock r = (- (knockX / dist * ENEMY_KNOCKBACK_FORCE * (1 / 2)),
                  - (knockZ / dist * ENEMY_KNOCKBACK_FORCE * (1 / 2))) /\
  playerVel r = mkVec (x pVel + fst (playerKnock r)) (y pVel)
                      (z pVel + snd (playerKnock r)) /\
  enemies r = before ++
    mkEnemy (eid e) (pos e)
      (mkVec (x (vel e) + fst (enemyKnock r)) (y (vel e))
             (z (vel e) + snd (enemyKnock r))) :: after.
Proof.
  intros Hbefore He. induction Hbefore as [| e' before Hne _ IH].
  - simpl. unfold inContact in He.
    destruct (Rlt_dec _ _) as [_ | Hn]; [| contradiction].
    simpl. repeat split.
  - simpl. unfold inContact in Hne.
    destruct (Rlt_dec _ _) as [Hy | _]; [contradiction |].
    simpl in IH. destruct IH as (H1 & H2 & H3 & H4 & H5).
    simpl. repeat split; try assumption. rewrite H5. reflexivity.
Qed.

Lemma magnitude_half (a b : R) :
  magnitude (- (a * (1 / 2)), - (b * (1 / 2))) = magnitude (a, b) / 2.
Proof.
  unfold magnitude. cbn [fst snd]. rewrite hypot_opp.
  rewrite (Rmult_comm a), (Rmult_comm b), hypot_scale by lra. lra.
Qed.

Lemma magnitude_knock (kx kz : R) :
  kx <> 0 \/ kz <> 0 ->
  magnitude (kx / orOne (hypot kx kz) * ENEMY_KNOCKBACK_FORCE,
             kz / orOne (hypot kx kz) * ENEMY_KNOCKBACK_FORCE)
  = ENEMY_KNOCKBACK_FORCE.
Proof.
  intros Hne.
  assert (hypot kx kz <> 0) as Hd.
  { intros H0. apply hypot_zero in H0. tauto. }
  unfold orOne. destruct (Req_dec_T (hypot kx kz) 0) as [E | _]; [contradiction |].
  unfold magnitude. cbn [fst snd].
  rewrite (Rmult_comm (kx / _)), (Rmult_comm (kz / _)).
  rewrite hypot_scale by (unfold ENEMY_KNOCKBACK_FORCE; lra).
  rewrite hypot_unit by exact Hd. ring.
Qed.

(** A concrete frame: the player stands 0.6 to the right of one enemy. *)
Definition playerPos0 : vec3 := mkVec (3 / 5) (6 / 5) 0.
Definition still : vec3 := mkVec 0 0 0.
Definition enemy0 : enemy := mkEnemy 7 (mkVec 0 1 0) still.

Lemma enemy0_inContact : inContact playerPos0 enemy0.
Proof.
  unfold inContact, hypot, playerPos0, enemy0, ENEMY_CONTACT_RADIUS. cbn [x z pos].
  replace ((3 / 5 - 0) * (3 / 5 - 0) + (0 - 0) * (0 - 0)) with ((3 / 5) * (3 / 5)) by field.
  rewrite sqrt_square; lra.
Qed.

(** C7 (as the code has it): when contact damage is applied, to the
    first enemy within the contact radius of an unshielded player, the
    increment added to the enemy's velocity is the opposite of half the
    increment added to the player's: opposite direction along the
    separating normal, half the magnitude (15 against 7.5 whenever the
    two positions differ). *)
Theorem knockback_opposite_half playerPos pVel (before : list enemy) e after :
  Forall (fun e' => ~ inContact playerPos e') before ->
  inContact playerPos e ->
  let r := enemyContact false playerPos pVel (before ++ e :: after) in
  hitEid r = Some (eid e) /\
  playerVel r = mkVec (x pVel + fst (playerKnock r)) (y pVel)
                      (z pVel + snd (playerKnock r)) /\
  enemies r = before ++
    mkEnemy (eid e) (pos e)
      (mkVec (x (vel e) + fst (enemyKnock r)) (y (vel e))
             (z (vel e) + snd (enemyKnock r))) :: after /\
  fst (enemyKnock r) = - (fst (playerKnock r) / 2) /\
  snd (enemyKnock r) = - (snd (playerKnock r) / 2) /\
  magnitude (enemyKnock r) = magnitude (playerKnock r) / 2 /\
  (x playerPos <> x (pos e) \/ z playerPos <> z (pos e) ->
   magnitude (playerKnock r) = ENEMY_KNOCKBACK_FORCE /\
   magnitude (enemyKnock r) = ENEMY_KNOCKBACK_FORCE / 2).
Proof.
  intros Hbefore He. unfold enemyContact.
  destruct (contactLoop_first playerPos pVel before e after Hbefore He)
    as (H1 & H2 & H3 & H4 & H5).
  cbv zeta. repeat split; try assumption.
  - rewrite H3, H2. cbn [fst snd]. lra.
  - rewrite H3, H2. cbn [fst snd]. lra.
  - rewrite H3, H2. apply magnitude_half.
  - rewrite H2. apply magnitude_knock. destruct H as [H | H]; [left | right]; lra.
  - rewrite H3, magnitude_half. f_equal. apply magnitude_knock.
    destruct H as [H | H]; [left | right]; lra.
Qed.

Lemma knockback_opposite_half_witness :
  let r := enemyContact false playerPos0 still ([] ++ enemy0 :: []) in
  hitEid r = Some 7%nat /\ magnitude (enemyKnock r) = magnitude (playerKnock r) / 2.
Proof.
  pose proof (knockback_opposite_half playerPos0 still [] enemy0 []
                ltac:(constructor) enemy0_inContact) as H.
  cbv zeta in *. destruct H as (H1 & _ & _ & _ & _ & H6 & _).
  split; [exact H1 | exact H6].
Defined.

(** C7 fails as stated: with the player 0.6 away from the enemy the
    player's velocity receives an increment of magnitude 15 and the
    enemy's one of magnitude 7.5. *)
Lemma knockback_not_symmetric :
  let r := enemyContact false playerPos0 still [enemy0] in
  hitEid r = Some 7%nat /\
  magnitude (playerKnock r) = 15 /\
  magnitude (enemyKnock r) = 15 / 2 /\
  magnitude (playerKnock r) <> magnitude (enemyKnock r).
Proof.
  unfold enemyContact.
  destruct (contactLoop_first playerPos0 still [] enemy0 [] ltac:(constructor)
              enemy0_inContact) as (H1 & H2 & H3 & _).
  cbv zeta. change ([] ++ [enemy0]) with [enemy0] in *.
  assert (magnitude (playerKnock (contactLoop playerPos0 still [enemy0])) = 15) as Hp.
  { rewrite H2. apply magnitude_knock. left. cbn. lra. }
  assert (magnitude (enemyKnock (contactLoop playerPos0 still [enemy0])) = 15 / 2) as Hq.
  { rewrite H3, magnitude_half. f_equal. apply magnitude_knock. left. cbn. lra. }
  repeat split; try assumption. rewrite Hp, Hq. lra.
Qed.

End Contact.

(** ** Phases, goal arrival and the frame loop (#collisionSystem, #animate,
       #createLevel, and the handlers of #registerInputListeners) *)

Module Lifecycle.

Local Open Scope Q_scope.

(** [state.gameState] *)
Inductive phase := Loading | Playing | Transitioning | GameOver | GameWon.

Definition VICTORY_LEVEL : Q := 20.
Definition LEVEL_UP_HEAL_AMOUNT : Q := 25.
Definition ENEMY_CONTACT_DAMAGE : Q := 20.

(** The part of the game that decides the phase: the observable state
    ([gs], with level, health and score), whether a frame callback is
    pending ([requestAnimationFrame]), how many [setTimeout(() =>
    this.#createLevel(), 2000)] callbacks are pending, and how many
    times [#createLevel] has run. *)
Record game := mkGame {
  gameState : phase;
  gs : GameState.state;
  frameRequested : bool;
  pendingRegen : nat;
  levelsCreated : nat
}.

(** What the rest of the store decides in one frame: whether the loop
    over enemies finds one in contact with an unshielded player, whether
    a goal exists within [GOAL_ACTIVATION_RADIUS], and the value of the
    player's score multiplier (1 without one). *)
Record input := mkInput { hit : bool; atGoal : bool; multiplier : Q }.

(** [#createLevel()]: only its effect on the phase is kept. *)
Definition createLevel (g : game) : game :=
  mkGame Playing (gs g) (frameRequested g) (pendingRegen g) (S (levelsCreated g)).

(** The enemy-contact block: [health -= 20], then [gameOver] at zero. *)
Definition contactDamage (inp : input) (g : game) : game :=
  if hit inp then
    let gs1 := GameState.set_health
                 (GameState.health (gs g) - ENEMY_CONTACT_DAMAGE) (gs g) in
    mkGame (if Qle_bool (GameState.health gs1) 0 then GameOver else gameState g)
           gs1 (frameRequested g) (pendingRegen g) (levelsCreated g)
  else g.

(** The goal block at the end of [#collisionSystem]. *)
Definition goalArrival (inp : input) (g : game) : game :=
  match gameState g with
  | Playing =>
      if atGoal inp then
        let gs1 := GameState.addScore (200 * GameState.level (gs g))
                     (multiplier inp) (gs g) in
        let gs2 := GameState.set_level (GameState.level gs1 + 1) gs1 in
        let gs3 := GameState.set_health
                     (GameState.health gs2 + LEVEL_UP_HEAL_AMOUNT) gs2 in
        if Qle_bool VICTORY_LEVEL (GameState.level gs3)
        then mkGame GameWon gs3 (frameRequested g) (pendingRegen g)
                    (levelsCreated g)
        else mkGame Transitioning gs3 (frameRequested g)
                    (S (pendingRegen g)) (levelsCreated g)
      else g
  | _ => g
  end.

Definition collisionSystem (inp : input) (g : game) : game :=
  goalArrival inp (contactDamage inp g).

(** [#animate()], called back by the browser when a frame was requested. *)
Definition animate (inp : input) (g : game) : game :=
  match gameState g with
  | GameOver | GameWon =>
      mkGame (gameState g) (gs g) false (pendingRegen g) (levelsCreated g)
  | Playing =>
      collisionSystem inp
        (mkGame (gameState g) (gs g) true (pendingRegen g) (levelsCreated g))
  | _ => mkGame (gameState g) (gs g) true (pendingRegen g) (levelsCreated g)
  end.

(** What can happen to the game: the browser calls back a requested
    frame, a pending level timer fires, or the user presses R or clicks
    a restart button (the last two are not part of the frame pipeline). *)
Inductive event := Frame (inp : input) | TimerFires | KeyR | RestartClick.

Definition step (g : game) (ev : event) : game :=
  match ev with
  | Frame inp => if frameRequested g then animate inp g else g
  | TimerFires =>
      match pendingRegen g with
      | O => g
      | S n => createLevel (mkGame (gameState g) (gs g) (frameRequested g) n
                                   (levelsCreated g))
      end
  | KeyR =>
      let g1 := createLevel g in
      mkGame (gameState g1)
             (GameState.set_score (Qmax 0 (GameState.score (gs g1) - 50)) (gs g1))
             (frameRequested g1) (pendingRegen g1) (levelsCreated g1)
  | RestartClick =>
      let g1 := createLevel (mkGame (gameState g) (GameState.reset (gs g))
                                    (frameRequested g) (pendingRegen g)
                                    (levelsCreated g)) in
      mkGame Playing (gs g1) (frameRequested g1) (pendingRegen g1) (levelsCreated g1)
  end.

Definition run (evs : list event) (g : game) : game := fold_left step evs g.

(** Events of the frame pipeline: frames and the timers they set. *)
Definition pipeline (ev : event) : Prop :=
  match ev with Frame _ | TimerFires => True | _ => False end.

Definition lvl (g : game) : Q := GameState.level (gs g).

Lemma level_set_health v s : GameState.level (GameState.set_health v s) = GameState.level s.
Proof. unfold GameState.set_health. destruct (Qeq_bool _ _); reflexivity. Qed.

Lemma lvl_contactDamage inp g : lvl (contactDamage inp g) = lvl g.
Proof.
  unfold contactDamage, lvl. destruct (hit inp); [| reflexivity].
  cbn [gs]. apply level_set_health.
Qed.

Lemma pending_contactDamage inp g :
  pendingRegen (contactDamage inp g) = pendingRegen g /\
  levelsCreated (contactDamage inp g) = levelsCreated g /\
  frameRequested (contactDamage inp g) = frameRequested g.
Proof. unfold contactDamage. destruct (hit inp); repeat split. Qed.

(** The level reached by the goal block when it runs. *)
Lemma goalArrival_taken inp g :
  gameState g = Playing -> atGoal inp = true ->
  lvl (goalArrival inp g) = lvl g + 1 /\
  gameState (goalArrival inp g) =
    (if Qle_bool VICTORY_LEVEL (lvl g + 1) then GameWon else Transitioning) /\
  pendingRegen (goalArrival inp g) =
    (if Qle_bool VICTORY_LEVEL (lvl g + 1) then pendingRegen g
     else S (pendingRegen g)) /\
  levelsCreated (goalArrival inp g) = levelsCreated g /\
  frameRequested (goalArrival inp g) = frameRequested g.
Proof.
  intros Hp Hg. unfold goalArrival, lvl. rewrite Hp, Hg.
  rewrite level_set_health. cbn [GameState.set_level GameState.emit GameState.level
    GameState.addScore GameState.set_score].
  destruct (Qle_bool VICTORY_LEVEL _); cbn; rewrite ?level_set_health; repeat split.
Qed.

Lemma goalArrival_skipped inp g :
  gameState g <> Playing \/ atGoal inp = false -> goalArrival inp g = g.
Proof.
  unfold goalArrival. intros [H | H].
  - destruct (gameState g); congruence.
  - rewrite H. destruct (gameState g); reflexivity.
Qed.

(** Once the level has reached the victory threshold, a frame of the
    pipeline schedules nothing and creates nothing. *)
Lemma animate_after_victory inp g :
  VICTORY_LEVEL <= lvl g ->
  VICTORY_LEVEL <= lvl (animate inp g) /\
  pendingRegen (animate inp g) = pendingRegen g /\
  levelsCreated (animate inp g) = levelsCreated g.
Proof.
  intros Hl. unfold animate.
  destruct (gameState g) eqn:Hp; try (repeat split; exact Hl).
  unfold collisionSystem.
  set (g0 := mkGame Playing (gs g) true (pendingRegen g) (levelsCreated g)).
  destruct (pending_contactDamage inp g0) as (Hpd & Hcd & _).
  pose proof (lvl_contactDamage inp g0) as Hld.
  destruct (gameState (contactDamage inp g0)) eqn:Hph;
    try (rewrite goalArrival_skipped by (left; congruence);
         rewrite Hld, Hpd, Hcd; repeat split; exact Hl).
  destruct (atGoal inp) eqn:Hg.
  - destruct (goalArrival_taken inp _ Hph Hg) as (H1 & _ & H3 & H4 & _).
    rewrite H1, H3, H4, Hld, Hpd, Hcd.
    assert (Qle_bool VICTORY_LEVEL (lvl g0 + 1) = true) as Hv.
    { apply Qle_bool_iff. change (lvl g0) with (lvl g). lra. }
    rewrite Hv. repeat split. change (lvl g0) with (lvl g). lra.
  - rewrite goalArrival_skipped by (right; exact Hg).
    rewrite Hld, Hpd, Hcd. repeat split; exact Hl.
Qed.

Lemma step_after_victory g ev :
  pipeline ev -> VICTORY_LEVEL <= lvl g ->
  VICTORY_LEVEL <= lvl (step g ev) /\
  (pendingRegen (step g ev) <= pendingRegen g)%nat /\
  (pendingRegen (step g ev) + levelsCreated (step g ev)
   = pendingRegen g + levelsCreated g)%nat.
Proof.
  intros Hev Hl. destruct ev as [inp | | |]; try contradiction; cbn [step].
  - destruct (frameRequested g).
    + destruct (animate_after_victory inp g Hl) as (H1 & H2 & H3).
      rewrite H2, H3. repeat split; [exact H1 | lia].
    + repeat split; [exact Hl | lia].
  - destruct (pendingRegen g) as [| n] eqn:Hn.
    + rewrite Hn. repeat split; [exact Hl | lia].
    + cbn. repeat split; [exact Hl | lia | lia].
Qed.

Lemma run_after_victory evs g :
  Forall pipeline evs -> VICTORY_LEVEL <= lvl g ->
  VICTORY_LEVEL <= lvl (run evs g) /\
  (pendingRegen (run evs g) <= pendingRegen g)%nat /\
  (pendingRegen (run evs g) + levelsCreated (run evs g)
   = pendingRegen g + levelsCreated g)%nat.
Proof.
  intros Hevs. revert g. induction Hevs as [| ev evs Hev _ IH]; intros g Hl.
  - cbn. repeat split; [exact Hl | lia].
  - cbn [run fold_left].
    destruct (step_after_victory g ev Hev Hl) as (H1 & H2 & H3).
    destruct (IH (step g ev) H1) as (I1 & I2 & I3).
    unfold run in *. repeat split; [exact I1 | lia | lia].
Qed.

(** With no timer pending, the phase stays [GameWon] under the pipeline. *)
Lemma run_stays_won evs g :
  Forall pipeline evs -> gameState g = GameWon -> pendingRegen g = 0%nat ->
  gameState (run evs g) = GameWon.
Proof.
  intros Hevs. revert g. induction Hevs as [| ev evs Hev _ IH]; intros g Hp Hn.
  - exact Hp.
  - cbn [run fold_left]. apply IH.
    + destruct ev as [inp | | |]; try contradiction; cbn [step].
      * destruct (frameRequested g); [| exact Hp]. unfold animate. rewrite Hp. reflexivity.
      * rewrite Hn. exact Hp.
    + destruct ev as [inp | | |]; try contradiction; cbn [step].
      * destruct (frameRequested g); [| exact Hn]. unfold animate. rewrite Hp. exact Hn.
      * rewrite Hn. exact Hn.
Qed.

(** A game at level 19 in full health, and a frame in which the player
    reaches the goal untouched. *)
Definition level19 : game :=
  mkGame Playing (GameState.mkState 4000 100 100 19 ∅ [] []) true 0 0.
Definition reachGoal : input := mkInput false true 1.

(** C8: in phase "playing" at level 19 (victory threshold 20), the frame
    in which the goal block runs sets the phase to "gameWon" without
    scheduling a level; after it no frame schedules a level creation,
    every level creation that still runs comes from a timer that was
    pending before, and when none was pending no level is ever created
    again and the phase stays "gameWon". *)
Theorem goal_victory_is_final (g : game) (inp : input) :
  gameState g = Playing -> frameRequested g = true -> lvl g == 19 ->
  atGoal inp = true -> gameState (contactDamage inp g) = Playing ->
  let g1 := step g (Frame inp) in
  gameState g1 = GameWon /\
  pendingRegen g1 = pendingRegen g /\
  levelsCreated g1 = levelsCreated g /\
  forall evs, Forall pipeline evs ->
    (pendingRegen (run evs g1) <= pendingRegen g1)%nat /\
    (pendingRegen (run evs g1) + levelsCreated (run evs g1)
     = pendingRegen g1 + levelsCreated g1)%nat /\
    (pendingRegen g = 0%nat ->
     levelsCreated (run evs g1) = levelsCreated g /\
     gameState (run evs g1) = GameWon).
Proof.
  intros Hp Hf Hl Hg Hd.
  destruct g as [ph st fr pend made]. cbn in Hp, Hf. subst ph fr.
  cbn [step frameRequested]. unfold animate. cbn [gameState gs pendingRegen levelsCreated].
  unfold collisionSystem.
  set (g := mkGame Playing st true pend made) in *.
  destruct (pending_contactDamage inp g) as (Hpd & Hcd & _).
  pose proof (lvl_contactDamage inp g) as Hld.
  destruct (goalArrival_taken inp _ Hd Hg) as (H1 & H2 & H3 & H4 & _).
  assert (Qle_bool VICTORY_LEVEL (lvl (contactDamage inp g) + 1) = true) as Hv.
  { apply Qle_bool_iff. rewrite Hld. unfold VICTORY_LEVEL. lra. }
  rewrite Hv in H2, H3.
  cbv zeta. rewrite H2, H3, H4, Hpd, Hcd.
  split; [reflexivity |]. split; [reflexivity |]. split; [reflexivity |].
  intros evs Hevs.
  assert (VICTORY_LEVEL <= lvl (goalArrival inp (contactDamage inp g))) as Hwon.
  { rewrite H1, Hld. unfold VICTORY_LEVEL. lra. }
  destruct (run_after_victory evs _ Hevs Hwon) as (_ & I2 & I3).
  rewrite H3, Hpd in I2. rewrite H3, H4, Hpd, Hcd in I3.
  split; [exact I2 |]. split; [exact I3 |].
  intros Hz. cbn in Hz. split.
  - change (pendingRegen g) with pend in *. change (levelsCreated g) with made in *. lia.
  - apply run_stays_won; [exact Hevs | exact H2 |].
    rewrite H3, Hpd. exact Hz.
Qed.

Lemma goal_victory_is_final_witness :
  gameState (step level19 (Frame reachGoal)) = GameWon /\
  gameState
    (run [Frame reachGoal; TimerFires; Frame reachGoal]
         (step level19 (Frame reachGoal))) = GameWon.
Proof.
  pose proof (goal_victory_is_final level19 reachGoal eq_refl eq_refl
                ltac:(reflexivity) eq_refl eq_refl) as H.
  cbv zeta in H. destruct H as (H1 & _ & _ & H4). split; [exact H1 |].
  apply (H4 [Frame reachGoal; TimerFires; Frame reachGoal]); [| reflexivity].
  repeat constructor.
Defined.

End Lifecycle.

(** ** The entity-component store (src/core/simpleEcs.js) *)

Module ECS.

(** [key.split(',')] *)
Fixpoint split (s : string) : list string :=
  match s with
  | EmptyString => [EmptyString]
  | String c rest =>
      if Ascii.eqb c ","%char then EmptyString :: split rest
      else match split rest with
           | [] => [String c EmptyString]
           | w :: ws => String c w :: ws
           end
  end.

(** [names.join(',')] *)
Definition join (names : list string) : string := String.concat "," names.

(** The default order of [Array.prototype.sort] on strings. *)
Definition name_le (a b : string) : Prop := String.leb a b = true.

#[global] Instance name_le_dec : RelDecision name_le.
Proof. intros a b. unfold name_le. apply _. Defined.

(** [`c${this.componentRegistry.size}`] *)
Definition componentName (n : nat) : string := "c" +:+ pretty n.

(** [components.map((c) => c.name).sort().join(',')]; a component is
    referred to by its name, which is how the store itself finds it. *)
Definition queryKey (components : list string) : string :=
  join (merge_sort name_le components).

(** A JS [Set] of ids, kept in insertion order. *)
Definition setAdd (id : nat) (l : list nat) : list nat :=
  if decide (id ∈ l) then l else l ++ [id].
Definition setDelete (id : nat) (l : list nat) : list nat :=
  filter (fun y => y <> id) l.

Section Store.

(** The values stored per entity ([{ ...initialValues }]). *)
Context {V : Type}.

Record ecs := mkEcs {
  entities : list nat;
  nextEntityId : nat;
  componentRegistry : gmap string (gmap nat V);
  queryCache : gmap string (list nat)
}.

(** [new SimpleECS()] *)
Definition empty : ecs := mkEcs [] 1 ∅ ∅.

(** [component.get(id)], [undefined] being [None]. *)
Definition get (name : string) (id : nat) (s : ecs) : option V :=
  componentRegistry s !! name ≫= fun data => data !! id.

(** [component.has(id)], also [componentRegistry.get(name)?.has(id)]. *)
Definition has (name : string) (id : nat) (s : ecs) : bool :=
  match get name id s with Some _ => true | None => false end.

(** [#updateCaches(id, componentName)] *)
Definition updateCaches (id : nat) (name : string) (s : ecs) : ecs :=
  mkEcs (entities s) (nextEntityId s) (componentRegistry s)
    (map_imap (fun queryKey cache =>
       let componentsInQuery := split queryKey in
       if bool_decide (name ∈ componentsInQuery) then
         if forallb (fun n => has n id s) componentsInQuery
         then Some (setAdd id cache)
         else Some (setDelete id cache)
       else Some cache) (queryCache s)).

(** [addEntity()]: the new id and the store. *)
Definition addEntity (s : ecs) : nat * ecs :=
  let id := nextEntityId s in
  (id, mkEcs (setAdd id (entities s)) (S id) (componentRegistry s) (queryCache s)).

(** [removeEntity(world, id)] *)
Definition removeEntity (id : nat) (s : ecs) : ecs :=
  if decide (id ∈ entities s) then
    mkEcs (setDelete id (entities s)) (nextEntityId s)
          (delete id <$> componentRegistry s)
          (setDelete id <$> queryCache s)
  else s.

(** [defineComponent()]: the name of the new component and the store. *)
Definition defineComponent (s : ecs) : string * ecs :=
  let name := componentName (size (componentRegistry s)) in
  (name, mkEcs (entities s) (nextEntityId s)
               (<[name := ∅]> (componentRegistry s)) (queryCache s)).

(** [component.add(id, initialValues)] = [addComponent(world, component, id, v)] *)
Definition addComponent (name : string) (id : nat) (v : V) (s : ecs) : ecs :=
  updateCaches id name
    (mkEcs (entities s) (nextEntityId s)
           (alter (fun data => <[id := v]> data) name (componentRegistry s))
           (queryCache s)).

(** [component.remove(id)] = [removeComponent(world, component, id)] *)
Definition removeComponent (name : string) (id : nat) (s : ecs) : ecs :=
  if has name id s then
    updateCaches id name
      (mkEcs (entities s) (nextEntityId s)
             (alter (fun data => delete id data) name (componentRegistry s))
             (queryCache s))
  else s.

(** [hasComponent(world, component, id)], [entityExists(world, id)] *)
Definition hasComponent (name : string) (id : nat) (s : ecs) : bool := has name id s.
Definition entityExists (id : nat) (s : ecs) : bool := bool_decide (id ∈ entities s).

(** [defineQuery(components)]: the key under which the returned closure
    looks the cache up, and the store. *)
Definition defineQuery (components : list string) (s : ecs) : string * ecs :=
  let key := queryKey components in
  match queryCache s !! key with
  | Some _ => (key, s)
  | None =>
      let cache :=
        List.filter (fun id => forallb (fun c => has c id s) components) (entities s) in
      (key, mkEcs (entities s) (nextEntityId s) (componentRegistry s)
                  (<[key := fold_left (fun acc id => setAdd id acc) cache []]>
                     (queryCache s)))
  end.

(** Calling the closure returned by [defineQuery]. *)
Definition resolve (key : string) (s : ecs) : option (list nat) := queryCache s !! key.

(** The brute-force filter of the current entities against a predicate. *)
Definition bruteForce (components : list string) (s : ecs) : list nat :=
  List.filter (fun id => forallb (fun c => has c id s) components) (entities s).

(** The operations a client can issue. *)
Inductive op :=
| AddEntity
| RemoveEntity (id : nat)
| DefineComponent
| DefineQuery (components : list string)
| AddComponent (name : string) (id : nat) (v : V)
| RemoveComponent (name : string) (id : nat).

Definition apply (s : ecs) (o : op) : ecs :=
  match o with
  | AddEntity => snd (addEntity s)
  | RemoveEntity id => removeEntity id s
  | DefineComponent => snd (defineComponent s)
  | DefineQuery cs => snd (defineQuery cs s)
  | AddComponent name id v => addComponent name id v s
  | RemoveComponent name id => removeComponent name id s
  end.

Definition run (ops : list op) (s : ecs) : ecs := fold_left apply ops s.

End Store.

Arguments ecs : clear implicits.
Arguments op : clear implicits.

Fixpoint commaFree (s : string) : bool :=
  match s with
  | EmptyString => true
  | String c rest => negb (Ascii.eqb c ","%char) && commaFree rest
  end.

Lemma split_cons_ne (s : string) : split s <> [].
Proof.
  induction s as [| c rest IH]; simpl; [discriminate |].
  destruct (Ascii.eqb c ","); [discriminate |].
  destruct (split rest); discriminate.
Qed.

Lemma split_commaFree (s : string) : commaFree s = true -> split s = [s].
Proof.
  induction s as [| c rest IH]; simpl; [reflexivity |].
  intros H. apply andb_prop in H as [Hc Hr].
  apply negb_true_iff in Hc. rewrite Hc, (IH Hr). reflexivity.
Qed.

Lemma split_append (a b : string) :
  commaFree a = true -> split (a +:+ String "," b) = a :: split b.
Proof.
  induction a as [| c rest IH]; simpl; [reflexivity |].
  intros H. apply andb_prop in H as [Hc Hr].
  apply negb_true_iff in Hc. rewrite Hc, (IH Hr). reflexivity.
Qed.

Lemma split_join (names : list string) :
  names <> [] -> Forall (fun n => commaFree n = true) names ->
  split (join names) = names.
Proof.
  intros Hne Hall. induction Hall as [| n rest Hn Hrest IH]; [congruence |].
  destruct rest as [| m rest'].
  - simpl. apply split_commaFree. exact Hn.
  - unfold join in *.
    change (String.concat "," (n :: m :: rest'))
      with (n +:+ String "," (String.concat "," (m :: rest'))).
    rewrite split_append by exact Hn. f_equal. apply IH. discriminate.
Qed.

Lemma commaFree_pretty_N_go (x : N) (s : string) :
  commaFree s = true -> commaFree (pretty_N_go x s) = true.
Proof.
  revert s. induction (N.lt_wf_0 x) as [x _ IH]. intros s Hs.
  destruct (decide (x = 0)%N) as [-> | Hx].
  - rewrite pretty_N_go_0. exact Hs.
  - rewrite pretty_N_go_step by lia. apply IH.
    + apply N.div_lt; lia.
    + simpl. rewrite Hs, andb_true_r.
      unfold pretty_N_char. repeat case_match; reflexivity.
Qed.

Lemma commaFree_componentName (n : nat) : commaFree (componentName n) = true.
Proof.
  unfold componentName. simpl. unfold pretty, pretty_nat, pretty, pretty_N.
  destruct (decide _); [reflexivity |]. apply commaFree_pretty_N_go. reflexivity.
Qed.

Lemma componentName_inj (n m : nat) : componentName n = componentName m -> n = m.
Proof.
  unfold componentName. simpl. intros H. injection H as H.
  exact (pretty_nat_inj _ _ H).
Qed.

Lemma elem_of_setAdd (x id : nat) (l : list nat) : x ∈ setAdd id l <-> x = id \/ x ∈ l.
Proof.
  unfold setAdd. destruct (decide (id ∈ l)) as [Hin | Hout].
  - split; [auto |]. intros [-> | H]; assumption.
  - rewrite elem_of_app, list_elem_of_singleton. tauto.
Qed.

Lemma elem_of_setDelete (x id : nat) (l : list nat) :
  x ∈ setDelete id l <-> x ∈ l /\ x <> id.
Proof. unfold setDelete. rewrite list_elem_of_filter. tauto. Qed.

Lemma NoDup_setAdd (id : nat) (l : list nat) : NoDup l -> NoDup (setAdd id l).
Proof.
  intros Hl. unfold setAdd. destruct (decide (id ∈ l)) as [Hin | Hout]; [exact Hl |].
  apply NoDup_app. repeat split; [exact Hl | | apply NoDup_singleton].
  intros x Hx Hx'. apply list_elem_of_singleton in Hx'. subst. contradiction.
Qed.

Lemma NoDup_setDelete (id : nat) (l : list nat) : NoDup l -> NoDup (setDelete id l).
Proof. intros Hl. unfold setDelete. apply NoDup_filter. exact Hl. Qed.

Lemma forallb_agree {A} (f g : A -> bool) (l : list A) :
  (forall a, a ∈ l -> f a = g a) -> forallb f l = forallb g l.
Proof.
  induction l as [| a l IH]; intros H; simpl; [reflexivity |].
  rewrite (H a) by apply list_elem_of_here. f_equal. apply IH.
  intros b Hb. apply H. apply list_elem_of_further. exact Hb.
Qed.

Lemma forallb_elem {A} (f : A -> bool) (l : list A) :
  forallb f l = true <-> forall a, a ∈ l -> f a = true.
Proof.
  rewrite forallb_forall. split; intros H a Ha; apply H.
  - apply list_elem_of_In. exact Ha.
  - apply list_elem_of_In. exact Ha.
Qed.

Section Consistency.

Context {V : Type}.
Implicit Types s : ecs V.

Definition namesOk s : Prop :=
  forall name, is_Some (componentRegistry s !! name) <->
    exists i, i < size (componentRegistry s) /\ name = componentName i.

Definition dataLive s : Prop :=
  forall name id, has name id s = true -> id ∈ entities s.

Definition cachesOk s : Prop :=
  forall key cache, queryCache s !! key = Some cache ->
    Forall (fun c => is_Some (componentRegistry s !! c)) (split key) /\
    NoDup cache /\
    forall id, id ∈ cache <->
      id ∈ entities s /\ forallb (fun c => has c id s) (split key) = true.

Definition Inv s : Prop :=
  NoDup (entities s) /\ namesOk s /\ dataLive s /\ cachesOk s.

(** Which operations the consistency theorem covers: components are
    added to live entities, and a query names at least one component;
    every component named has been defined. *)
Definition valid s (o : op V) : Prop :=
  match o with
  | DefineQuery cs => cs <> [] /\ Forall (fun c => is_Some (componentRegistry s !! c)) cs
  | AddComponent name id _ => is_Some (componentRegistry s !! name) /\ id ∈ entities s
  | _ => True
  end.

Fixpoint validTrace s (ops : list (op V)) : Prop :=
  match ops with
  | [] => True
  | o :: rest => valid s o /\ validTrace (apply s o) rest
  end.

Lemma Inv_empty : Inv (@empty V).
Proof.
  split; [apply NoDup_nil_2 |]. split; [| split].
  - intros name. cbn. rewrite lookup_empty. split.
    + intros [? ?]. discriminate.
    + intros (i & Hi & _). rewrite map_size_empty in Hi. lia.
  - intros name id. unfold has, get. cbn. rewrite lookup_empty. discriminate.
  - intros key cache H. cbn in H. rewrite lookup_empty in H. discriminate.
Qed.

(** The effect of [#updateCaches] after a component of [id] changed. *)
Lemma cachesOk_update s s1 id name :
  entities s1 = entities s -> queryCache s1 = queryCache s ->
  (forall c, is_Some (componentRegistry s !! c) -> is_Some (componentRegistry s1 !! c)) ->
  (forall c i, c <> name \/ i <> id -> has c i s1 = has c i s) ->
  (forall c, has c id s1 = true -> id ∈ entities s) ->
  cachesOk s -> cachesOk (updateCaches id name s1).
Proof.
  intros He Hq Hreg Hhas Hlive Hok key cache' Hlook.
  unfold updateCaches in Hlook. cbn [queryCache] in Hlook.
  rewrite map_lookup_imap, Hq in Hlook.
  destruct (queryCache s !! key) as [cache |] eqn:Hc; [| discriminate].
  destruct (Hok key cache Hc) as (Hdef & Hnd & Hmem).
  assert (forall i, i <> id ->
            forallb (fun c => has c i s1) (split key)
            = forallb (fun c => has c i s) (split key)) as Hother.
  { intros i Hi. apply forallb_agree. intros c _. apply Hhas. right. exact Hi. }
  cbn [componentRegistry entities updateCaches].
  assert (forall c i, has c i (updateCaches id name s1) = has c i s1) as Hsame by reflexivity.
  split; [| split].
  - eapply Forall_impl; [exact Hdef |]. intros c Hcdef. apply Hreg. exact Hcdef.
  - cbn in Hlook. destruct (bool_decide _); [destruct (forallb _ _) |];
      injection Hlook as <-; auto using NoDup_setAdd, NoDup_setDelete.
  - intros i. rewrite He. cbn in Hlook.
    rewrite (forallb_agree _ (fun c => has c i s1)) by (intros; apply Hsame).
    destruct (bool_decide (name ∈ split key)) eqn:Hin.
    + destruct (forallb (fun n => has n id s1) (split key)) eqn:Hall;
        injection Hlook as <-.
      * rewrite elem_of_setAdd. destruct (decide (i = id)) as [-> | Hne].
        -- split; [| auto]. intros _. split; [| exact Hall].
           destruct (split key) as [| c0 rest] eqn:Hs; [by apply split_cons_ne in Hs |].
           simpl in Hall. apply andb_prop in Hall as [Hc0 _].
           apply (Hlive c0). exact Hc0.
        -- rewrite Hother by exact Hne. rewrite Hmem. tauto.
      * rewrite elem_of_setDelete. destruct (decide (i = id)) as [-> | Hne].
        -- rewrite Hall. split; [tauto | intros [_ ?]; discriminate].
        -- rewrite Hother by exact Hne. rewrite Hmem. tauto.
    + injection Hlook as <-. apply bool_decide_eq_false in Hin.
      rewrite Hmem.
      rewrite (forallb_agree (fun c => has c i s1) (fun c => has c i s)); [reflexivity |].
      intros c Hcin. apply Hhas. left. intros ->. contradiction.
Qed.


Lemma size_alter {A} (f : A -> A) (m : gmap string A) (k : string) :
  size (alter f k m) = size m.
Proof.
  rewrite alter_alt. destruct (m !! k) as [x |] eqn:Hk; [| reflexivity].
  apply map_size_insert_Some. rewrite Hk. eauto.
Qed.

Lemma namesOk_fresh s :
  namesOk s -> componentRegistry s !! componentName (size (componentRegistry s)) = None.
Proof.
  intros Hn. destruct (componentRegistry s !! _) as [d |] eqn:Hd; [| reflexivity].
  destruct (proj1 (Hn _) (mk_is_Some _ _ Hd)) as (i & Hi & He).
  apply componentName_inj in He. lia.
Qed.

Lemma namesOk_commaFree s name :
  namesOk s -> is_Some (componentRegistry s !! name) -> commaFree name = true.
Proof.
  intros Hn Hd. destruct (proj1 (Hn _) Hd) as (i & _ & ->).
  apply commaFree_componentName.
Qed.

Lemma all_has_live s id (cs : list string) :
  dataLive s -> cs <> [] -> forallb (fun c => has c id s) cs = true -> id ∈ entities s.
Proof.
  intros Hl Hne Hall. destruct cs as [| c0 rest]; [congruence |].
  simpl in Hall. apply andb_prop in Hall as [Hc0 _]. exact (Hl c0 id Hc0).
Qed.

Lemma Inv_addEntity s : Inv s -> Inv (snd (addEntity s)).
Proof.
  intros (Hnd & Hn & Hl & Hc). cbn [addEntity snd].
  split; [apply NoDup_setAdd; exact Hnd |]. split; [exact Hn |]. split.
  - intros name id H. cbn. apply elem_of_setAdd. right. exact (Hl name id H).
  - intros key cache Hk. destruct (Hc key cache Hk) as (Hdef & Hndc & Hmem).
    split; [exact Hdef |]. split; [exact Hndc |].
    intros id. cbn [entities]. rewrite Hmem, elem_of_setAdd.
    change (forallb (fun c => has c id _) (split key))
      with (forallb (fun c => has c id s) (split key)).
    split; [tauto |]. intros [_ Hall]. split; [| exact Hall].
    exact (all_has_live s id _ Hl (split_cons_ne key) Hall).
Qed.

Lemma has_removeEntity s id c i :
  has c i (mkEcs (setDelete id (entities s)) (nextEntityId s)
                 (delete id <$> componentRegistry s) (setDelete id <$> queryCache s))
  = if decide (i = id) then false else has c i s.
Proof.
  unfold has, get. cbn. rewrite lookup_fmap.
  destruct (componentRegistry s !! c) as [d |]; cbn.
  - rewrite lookup_delete. destruct (decide (id = i)) as [-> | Hne].
    + rewrite decide_True by reflexivity. reflexivity.
    + rewrite decide_False by congruence. reflexivity.
  - destruct (decide (i = id)); reflexivity.
Qed.

Lemma Inv_removeEntity s id : Inv s -> Inv (removeEntity id s).
Proof.
  intros (Hnd & Hn & Hl & Hc). unfold removeEntity.
  destruct (decide (id ∈ entities s)) as [Hin | Hout]; [| exact (conj Hnd (conj Hn (conj Hl Hc)))].
  split; [apply NoDup_setDelete; exact Hnd |]. split; [| split].
  - intros name. cbn. rewrite lookup_fmap, fmap_is_Some, map_size_fmap. apply Hn.
  - intros name i H. rewrite has_removeEntity in H. cbn [entities].
    destruct (decide (i = id)); [discriminate |].
    apply elem_of_setDelete. split; [exact (Hl name i H) | assumption].
  - intros key cache' Hk. cbn in Hk. rewrite lookup_fmap in Hk.
    destruct (queryCache s !! key) as [cache |] eqn:Hq; [| discriminate].
    injection Hk as <-. destruct (Hc key cache Hq) as (Hdef & Hndc & Hmem).
    split; [| split].
    + eapply Forall_impl; [exact Hdef |]. intros c Hcd. cbn.
      rewrite lookup_fmap, fmap_is_Some. exact Hcd.
    + apply NoDup_setDelete. exact Hndc.
    + intros i. cbn [entities]. rewrite !elem_of_setDelete, Hmem.
      match goal with |- _ <-> _ /\ forallb ?f _ = true =>
        rewrite (forallb_agree f (fun c => if decide (i = id) then false else has c i s))
          by (intros; apply has_removeEntity)
      end.
      destruct (decide (i = id)) as [-> | Hne]; [| tauto].
      destruct (split key) as [| c0 rest] eqn:Hs; [by apply split_cons_ne in Hs |].
      simpl. split; [tauto | intros [_ ?]; discriminate].
Qed.

Lemma has_defineComponent s c i :
  namesOk s -> has c i (snd (defineComponent s)) = has c i s.
Proof.
  intros Hn. unfold has, get. cbn.
  destruct (decide (c = componentName (size (componentRegistry s)))) as [-> | Hne].
  - rewrite lookup_insert_eq, namesOk_fresh by exact Hn. cbn.
    rewrite lookup_empty. reflexivity.
  - rewrite lookup_insert_ne by congruence. reflexivity.
Qed.

Lemma Inv_defineComponent s : Inv s -> Inv (snd (defineComponent s)).
Proof.
  intros (Hnd & Hn & Hl & Hc).
  split; [exact Hnd |]. split; [| split].
  - intros name. cbn. rewrite lookup_insert_is_Some'.
    rewrite map_size_insert_None by (apply namesOk_fresh; exact Hn).
    rewrite (Hn name). split.
    + intros [<- | (i & Hi & ->)]; [exists (size (componentRegistry s)) | exists i];
        split; (lia || reflexivity).
    + intros (i & Hi & ->). destruct (decide (i = size (componentRegistry s))) as [-> | Hne].
      * left. reflexivity.
      * right. exists i. split; [lia | reflexivity].
  - intros name i H. rewrite has_defineComponent in H by exact Hn. exact (Hl name i H).
  - intros key cache Hk. destruct (Hc key cache Hk) as (Hdef & Hndc & Hmem).
    split; [| split; [exact Hndc |]].
    + eapply Forall_impl; [exact Hdef |]. intros c Hcd. cbn.
      rewrite lookup_insert_is_Some'. right. exact Hcd.
    + intros i. rewrite Hmem.
      rewrite (forallb_agree (fun c => has c i (snd (defineComponent s)))
                             (fun c => has c i s))
        by (intros; apply has_defineComponent; exact Hn).
      reflexivity.
Qed.


Lemma has_alter_insert s name id v c i :
  is_Some (componentRegistry s !! name) ->
  has c i (mkEcs (entities s) (nextEntityId s)
                 (alter (fun data => <[id := v]> data) name (componentRegistry s))
                 (queryCache s))
  = if decide (c = name /\ i = id) then true else has c i s.
Proof.
  intros [d Hd]. unfold has, get. cbn. rewrite lookup_alter.
  destruct (decide (name = c)) as [<- | Hne].
  - rewrite Hd. cbn. rewrite lookup_insert.
    destruct (decide (id = i)) as [<- | Hni].
    + rewrite decide_True by tauto. reflexivity.
    + rewrite decide_False by (intros [_ ?]; congruence). reflexivity.
  - rewrite decide_False by (intros [? _]; congruence). reflexivity.
Qed.

Lemma has_alter_delete s name id c i :
  has c i (mkEcs (entities s) (nextEntityId s)
                 (alter (fun data => delete id data) name (componentRegistry s))
                 (queryCache s))
  = if decide (c = name /\ i = id) then false else has c i s.
Proof.
  unfold has, get. cbn. rewrite lookup_alter.
  destruct (decide (name = c)) as [<- | Hne].
  - destruct (componentRegistry s !! name) as [d |]; cbn.
    + rewrite lookup_delete. destruct (decide (id = i)) as [<- | Hni].
      * rewrite decide_True by tauto. reflexivity.
      * rewrite decide_False by (intros [_ ?]; congruence). reflexivity.
    + destruct (decide _); reflexivity.
  - rewrite decide_False by (intros [? _]; congruence). reflexivity.
Qed.

Lemma Inv_addComponent s name id v :
  Inv s -> is_Some (componentRegistry s !! name) -> id ∈ entities s ->
  Inv (addComponent name id v s).
Proof.
  intros (Hnd & Hn & Hl & Hc) Hdef Hin. unfold addComponent.
  set (s1 := mkEcs _ _ _ _).
  assert (forall c i, has c i s1 = if decide (c = name /\ i = id) then true else has c i s)
    as Hhas by (intros; apply has_alter_insert; exact Hdef).
  split; [exact Hnd |]. split; [| split].
  - intros n. cbn. rewrite lookup_alter_is_Some, size_alter. apply Hn.
  - intros c i H. change (has c i s1 = true) in H. rewrite Hhas in H.
    cbn [entities updateCaches]. destruct (decide _) as [[_ ->] | _]; [exact Hin |].
    exact (Hl c i H).
  - apply (cachesOk_update s); try reflexivity; try exact Hc.
    + intros c Hcd. cbn. rewrite lookup_alter_is_Some. exact Hcd.
    + intros c i Hne. rewrite Hhas. rewrite decide_False by tauto. reflexivity.
    + intros _ _. exact Hin.
Qed.

Lemma Inv_removeComponent s name id : Inv s -> Inv (removeComponent name id s).
Proof.
  intros (Hnd & Hn & Hl & Hc). unfold removeComponent.
  destruct (has name id s) eqn:Hh; [| exact (conj Hnd (conj Hn (conj Hl Hc)))].
  set (s1 := mkEcs _ _ _ _).
  assert (forall c i, has c i s1 = if decide (c = name /\ i = id) then false else has c i s)
    as Hhas by (intros; apply has_alter_delete).
  split; [exact Hnd |]. split; [| split].
  - intros n. cbn. rewrite lookup_alter_is_Some, size_alter. apply Hn.
  - intros c i H. change (has c i s1 = true) in H. rewrite Hhas in H.
    cbn [entities updateCaches]. destruct (decide _); [discriminate |].
    exact (Hl c i H).
  - apply (cachesOk_update s); try reflexivity; try exact Hc.
    + intros c Hcd. cbn. rewrite lookup_alter_is_Some. exact Hcd.
    + intros c i Hne. rewrite Hhas. rewrite decide_False by tauto. reflexivity.
    + intros c H. rewrite Hhas in H. destruct (decide _); [discriminate |].
      exact (Hl c id H).
Qed.

Lemma fold_setAdd (l acc : list nat) :
  NoDup acc ->
  NoDup (fold_left (fun a id => setAdd id a) l acc) /\
  forall x, x ∈ fold_left (fun a id => setAdd id a) l acc <-> x ∈ acc \/ x ∈ l.
Proof.
  revert acc. induction l as [| y l IH]; intros acc Hacc; cbn [fold_left].
  - split; [exact Hacc |]. intros x. rewrite elem_of_nil. tauto.
  - destruct (IH (setAdd y acc) (NoDup_setAdd y acc Hacc)) as [H1 H2].
    split; [exact H1 |]. intros x. rewrite H2, elem_of_setAdd, elem_of_cons. tauto.
Qed.

(** The key of a query over defined components splits back into the
    sorted list of their names. *)
Lemma split_queryKey s (cs : list string) :
  namesOk s -> cs <> [] ->
  Forall (fun c => is_Some (componentRegistry s !! c)) cs ->
  split (queryKey cs) = merge_sort name_le cs.
Proof.
  intros Hn Hne Hall. unfold queryKey. apply split_join.
  - intros Hnil. pose proof (merge_sort_Permutation name_le cs) as Hp.
    rewrite Hnil in Hp. apply Permutation_nil_l in Hp. congruence.
  - rewrite (merge_sort_Permutation name_le cs).
    eapply Forall_impl; [exact Hall |]. intros c Hc.
    exact (namesOk_commaFree s c Hn Hc).
Qed.

Lemma forallb_sorted (f : string -> bool) (cs : list string) :
  forallb f (merge_sort name_le cs) = forallb f cs.
Proof.
  apply eq_true_iff_eq. rewrite !forallb_elem.
  split; intros H a Ha; apply H.
  - rewrite (merge_sort_Permutation name_le cs). exact Ha.
  - rewrite (merge_sort_Permutation name_le cs) in Ha. exact Ha.
Qed.

Lemma Inv_defineQuery s (cs : list string) :
  Inv s -> cs <> [] -> Forall (fun c => is_Some (componentRegistry s !! c)) cs ->
  Inv (snd (defineQuery cs s)).
Proof.
  intros (Hnd & Hn & Hl & Hc) Hne Hall. unfold defineQuery.
  destruct (queryCache s !! queryKey cs) as [old |] eqn:Hq;
    [exact (conj Hnd (conj Hn (conj Hl Hc))) |].
  cbn [snd]. split; [exact Hnd |]. split; [exact Hn |]. split; [exact Hl |].
  intros key cache Hk. cbn in Hk. rewrite lookup_insert in Hk.
  destruct (decide (queryKey cs = key)) as [<- | Hkne]; [| exact (Hc key cache Hk)].
  injection Hk as <-.
  destruct (fold_setAdd
              (List.filter (fun id => forallb (fun c => has c id s) cs) (entities s))
              [] (NoDup_nil_2)) as [H1 H2].
  rewrite (split_queryKey s cs Hn Hne Hall).
  split; [| split; [exact H1 |]].
  - cbn. rewrite (merge_sort_Permutation name_le cs). exact Hall.
  - intros id. rewrite H2, elem_of_nil, list_elem_of_In, filter_In, <- list_elem_of_In.
    cbn [entities].
    change (forallb (fun c => has c id _) (merge_sort name_le cs))
      with (forallb (fun c => has c id s) (merge_sort name_le cs)).
    rewrite forallb_sorted. tauto.
Qed.

Lemma Inv_apply s (o : op V) : Inv s -> valid s o -> Inv (apply s o).
Proof.
  intros HI Hv. destruct o as [| id | | cs | name id v | name id]; cbn [apply].
  - apply Inv_addEntity. exact HI.
  - apply Inv_removeEntity. exact HI.
  - apply Inv_defineComponent. exact HI.
  - destruct Hv as [Hne Hall]. apply Inv_defineQuery; assumption.
  - destruct Hv as [Hdef Hin]. apply Inv_addComponent; assumption.
  - apply Inv_removeComponent. exact HI.
Qed.

Lemma Inv_run (ops : list (op V)) s : Inv s -> validTrace s ops -> Inv (run ops s).
Proof.
  revert s. induction ops as [| o ops IH]; intros s HI Hv; [exact HI |].
  destruct Hv as [Hv Hrest]. cbn [run fold_left]. apply IH; [| exact Hrest].
  apply Inv_apply; assumption.
Qed.


Lemma run_app (a b : list (op V)) s : run (a ++ b) s = run b (run a s).
Proof. unfold run. apply fold_left_app. Qed.

Lemma validTrace_app (a b : list (op V)) s :
  validTrace s (a ++ b) <-> validTrace s a /\ validTrace (run a s) b.
Proof.
  revert s. induction a as [| o a IH]; intros s; cbn [app validTrace run fold_left].
  - tauto.
  - rewrite IH. unfold run. tauto.
Qed.

(** Caches and components, once defined, stay defined. *)
Lemma defined_apply s (o : op V) key c :
  (is_Some (queryCache s !! key) -> is_Some (queryCache (apply s o) !! key)) /\
  (is_Some (componentRegistry s !! c) -> is_Some (componentRegistry (apply s o) !! c)).
Proof.
  assert (forall id name s1, queryCache s1 = queryCache s ->
            is_Some (queryCache s !! key) ->
            is_Some (queryCache (updateCaches id name s1) !! key)) as Hup.
  { intros id name s1 Hq [cache Hc]. unfold updateCaches. cbn.
    rewrite map_lookup_imap, Hq, Hc. cbn.
    destruct (bool_decide _); [destruct (forallb _ _) |]; eauto. }
  destruct o as [| id | | cs | name id v | name id]; cbn [apply].
  - split; auto.
  - unfold removeEntity. destruct (decide _); [| split; auto]. cbn.
    rewrite !lookup_fmap, !fmap_is_Some. split; auto.
  - cbn. rewrite lookup_insert_is_Some'. split; auto.
  - unfold defineQuery. destruct (queryCache s !! queryKey cs); cbn; [split; auto |].
    rewrite lookup_insert_is_Some'. split; auto.
  - unfold addComponent. split.
    + apply Hup. reflexivity.
    + cbn. rewrite lookup_alter_is_Some. auto.
  - unfold removeComponent. destruct (has name id s); [| split; auto]. split.
    + apply Hup. reflexivity.
    + cbn. rewrite lookup_alter_is_Some. auto.
Qed.

Lemma defined_run (ops : list (op V)) s key c :
  (is_Some (queryCache s !! key) -> is_Some (queryCache (run ops s) !! key)) /\
  (is_Some (componentRegistry s !! c) -> is_Some (componentRegistry (run ops s) !! c)).
Proof.
  revert s. induction ops as [| o ops IH]; intros s; [split; auto |].
  cbn [run fold_left]. destruct (defined_apply s o key c) as [H1 H2].
  destruct (IH (apply s o)) as [I1 I2]. split; auto.
Qed.

Lemma defineQuery_defined s (cs : list string) :
  is_Some (queryCache (snd (defineQuery cs s)) !! queryKey cs).
Proof.
  unfold defineQuery. destruct (queryCache s !! queryKey cs) eqn:Hq; cbn.
  - rewrite Hq. eauto.
  - rewrite lookup_insert_eq. eauto.
Qed.


(** C1 (as the code has it): along every sequence of operations that
    adds components to live entities only, every query that was
    registered by [defineQuery] over at least one defined component
    resolves to a duplicate-free set whose members are exactly the ids
    of the brute-force filter of the current entities. *)
Theorem query_cache_consistent (ops : list (op V)) (cs : list string) :
  validTrace empty ops -> DefineQuery cs ∈ ops ->
  exists cache,
    resolve (queryKey cs) (run ops empty) = Some cache /\
    NoDup cache /\
    forall id, id ∈ cache <-> id ∈ bruteForce cs (run ops empty).
Proof.
  intros Hv Hin.
  apply list_elem_of_split in Hin as (pre & post & ->).
  apply validTrace_app in Hv as [Hpre Hpost].
  destruct Hpost as [[Hne Hall] Hpost].
  pose proof (Inv_run pre empty Inv_empty Hpre) as HI1.
  assert (validTrace empty (pre ++ DefineQuery cs :: post)) as Hfull.
  { apply validTrace_app. split; [exact Hpre |]. split; [split |]; assumption. }
  pose proof (Inv_run _ empty Inv_empty Hfull) as (_ & Hn & _ & Hc).
  rewrite run_app in *. cbn [run fold_left] in *. fold (run post) in *.
  set (s1 := run pre empty) in *.
  destruct (proj1 (defined_run post (apply s1 (DefineQuery cs)) (queryKey cs) "")
              (defineQuery_defined s1 cs)) as [cache Hcache].
  exists cache. split; [exact Hcache |].
  destruct (Hc _ _ Hcache) as (_ & Hnd & Hmem). split; [exact Hnd |].
  intros id. rewrite Hmem. unfold bruteForce.
  rewrite (list_elem_of_In (List.filter _ _) id), filter_In, <- list_elem_of_In.
  destruct HI1 as (_ & Hn1 & _).
  rewrite (split_queryKey s1 cs Hn1 Hne Hall), forallb_sorted. reflexivity.
Qed.

End Consistency.

Definition staleTrace : list (op nat) :=
  [DefineComponent; DefineQuery ["c0"]; AddEntity; RemoveEntity 1; AddComponent "c0" 1 5].

Definition emptyQueryTrace : list (op nat) := [DefineQuery []; AddEntity].

Definition goodTrace : list (op nat) :=
  [DefineComponent; DefineComponent; AddEntity; AddEntity;
   AddComponent "c0" 1 7; DefineQuery ["c1"; "c0"]; AddComponent "c1" 1 8;
   AddComponent "c0" 2 9; RemoveEntity 2; RemoveComponent "c0" 2].

Lemma goodTrace_valid : validTrace empty goodTrace.
Proof.
  cbn. repeat split; try discriminate;
    repeat (apply Forall_cons; split); try apply Forall_nil_2;
    try (eexists; reflexivity); set_solver.
Qed.

Lemma query_cache_consistent_witness :
  exists cache,
    resolve (queryKey ["c1"; "c0"]) (run goodTrace empty) = Some cache /\
    NoDup cache /\
    forall id, id ∈ cache <-> id ∈ bruteForce ["c1"; "c0"] (run goodTrace empty).
Proof.
  apply (query_cache_consistent goodTrace ["c1"; "c0"] goodTrace_valid).
  unfold goodTrace. set_solver.
Defined.

(** C1 fails as stated.  A component added to a destroyed entity puts
    its id into the cache although it is no current entity; and the
    cache of a query over no component is never told of new entities. *)
Lemma query_cache_stale :
  resolve (queryKey ["c0"]) (run staleTrace empty) = Some [1] /\
  bruteForce ["c0"] (run staleTrace empty) = [] /\
  resolve (queryKey []) (run emptyQueryTrace empty) = Some [] /\
  bruteForce [] (run emptyQueryTrace empty) = [1].
Proof. repeat split; vm_compute; reflexivity. Qed.

End ECS.

(** ** Effect-timer expiry (#effectsSystem in nexusMazeGame.js) *)

Module Effects.
Import ECS.

(** What a component stores for an entity, as far as [#effectsSystem]
    reads it: the record of an [EffectTimer], or anything else. *)
Inductive payload :=
| Plain
| Timer (target : nat) (component : string) (expiration : Z).

Abbreviation store := (ecs payload).

(** One turn of the loop body for the timer entity [eid]; [None] is the
    TypeError of reading [timer.expiration] when [EffectTimer.get(eid)]
    is [undefined]. *)
Definition expire (effectTimer : string) (now : Z) (eid : nat) (s : store) : option store :=
  match get effectTimer eid s with
  | None => None
  | Some Plain => Some s
  | Some (Timer target component expiration) =>
      if (expiration <? now)%Z then
        let s1 := if entityExists target s
                  then removeComponent component target s else s in
        Some (removeEntity eid s1)
      else Some s
  end.

(** [#effectsSystem()] at clock value [now]; [timers] is the key of
    [queries.timers], [effectTimer] the name of the [EffectTimer]
    component.  The loop runs over a copy of the cached set. *)
Definition effectsSystem (timers effectTimer : string) (now : Z) (s : store) : option store :=
  match resolve timers s with
  | None => None
  | Some snapshot =>
      fold_left (fun cur eid => cur ≫= expire effectTimer now eid) snapshot (Some s)
  end.

Section Expiry.

Variable effectTimer : string.
Variable now : Z.

Implicit Types s : store.

Lemma get_removeEntity s id c i :
  get c i (removeEntity id s)
  = if decide (i = id /\ id ∈ entities s) then None else get c i s.
Proof.
  unfold removeEntity. destruct (decide (id ∈ entities s)) as [Hin | Hout].
  - unfold get. cbn. rewrite lookup_fmap.
    destruct (componentRegistry s !! c) as [d |]; cbn.
    + rewrite lookup_delete. destruct (decide (id = i)) as [<- | Hne].
      * rewrite decide_True by tauto. reflexivity.
      * rewrite decide_False by (intros [? _]; congruence). reflexivity.
    + destruct (decide _); reflexivity.
  - rewrite decide_False by tauto. reflexivity.
Qed.

Lemma get_removeComponent s name id c i :
  get c i (removeComponent name id s)
  = if decide (c = name /\ i = id) then None else get c i s.
Proof.
  unfold removeComponent, has. destruct (get name id s) as [v |] eqn:Hg.
  - unfold get. cbn. rewrite lookup_alter.
    destruct (decide (name = c)) as [<- | Hne].
    + destruct (componentRegistry s !! name) as [d |]; cbn.
      * rewrite lookup_delete. destruct (decide (id = i)) as [<- | Hni].
        -- rewrite decide_True by tauto. reflexivity.
        -- rewrite decide_False by (intros [_ ?]; congruence). reflexivity.
      * destruct (decide _); reflexivity.
    + rewrite decide_False by (intros [? _]; congruence). reflexivity.
  - destruct (decide _) as [[-> ->] | _]; [exact Hg | reflexivity].
Qed.

Lemma entities_removeComponent s name id :
  entities (removeComponent name id s) = entities s.
Proof. unfold removeComponent. destruct (has name id s); reflexivity. Qed.

Lemma entities_removeEntity s id i :
  i ∈ entities (removeEntity id s) <-> i ∈ entities s /\ i <> id.
Proof.
  unfold removeEntity. destruct (decide (id ∈ entities s)) as [Hin | Hout]; cbn.
  - apply elem_of_setDelete.
  - split; [| tauto]. intros Hi. split; [exact Hi |]. intros ->. contradiction.
Qed.

(** The state of the loop: the store is consistent and every timer
    still to be visited is a live entity with its record in place; no
    timer revokes the [EffectTimer] component itself. *)
Definition ready s (todo : list nat) : Prop :=
  Inv s /\ NoDup todo /\
  (forall t, t ∈ todo -> t ∈ entities s /\ is_Some (get effectTimer t s)) /\
  (forall t T C E, get effectTimer t s = Some (Timer T C E) -> C <> effectTimer).

(** A timer whose expiration lies before [now]. *)
Definition expired s (t : nat) (T : nat) (C : string) : Prop :=
  exists E, get effectTimer t s = Some (Timer T C E) /\ (E < now)%Z.

(** What one turn of the loop does to the store. *)
Lemma expire_spec s t :
  Inv s -> t ∈ entities s -> is_Some (get effectTimer t s) ->
  exists s1, expire effectTimer now t s = Some s1 /\ Inv s1 /\
    ((s1 = s /\ forall T C, ~ expired s t T C) \/
     (exists T C, expired s t T C /\
        (forall i, i ∈ entities s1 <-> i ∈ entities s /\ i <> t) /\
        (forall c i, get c i s1 =
           if decide (i = t) then None
           else if decide (c = C /\ i = T /\ T ∈ entities s) then None
           else get c i s))).
Proof.
  intros HI Hin [v Hv]. unfold expire. rewrite Hv.
  destruct v as [| T C E].
  { exists s. split; [reflexivity |]. split; [exact HI |]. left. split; [reflexivity |].
    intros T C (E & HE & _). congruence. }
  destruct (E <? now)%Z eqn:HE.
  - apply Z.ltb_lt in HE. eexists. split; [reflexivity |].
    set (s0 := if entityExists T s then removeComponent C T s else s).
    assert (Inv s0) as HI0.
    { unfold s0. destruct (entityExists T s); [apply Inv_removeComponent |]; exact HI. }
    assert (entities s0 = entities s) as He0.
    { unfold s0. destruct (entityExists T s); [apply entities_removeComponent | reflexivity]. }
    split; [apply Inv_removeEntity; exact HI0 |]. right. exists T, C.
    split; [exists E; split; [exact Hv | exact HE] |]. split.
    + intros i. rewrite entities_removeEntity, He0. reflexivity.
    + intros c i. rewrite get_removeEntity, He0.
      destruct (decide (i = t)) as [-> | Hne].
      * rewrite decide_True by tauto. reflexivity.
      * rewrite decide_False by tauto. unfold s0, entityExists.
        destruct (bool_decide (T ∈ entities s)) eqn:HT.
        -- apply bool_decide_eq_true in HT. rewrite get_removeComponent.
           destruct (decide (c = C /\ i = T)) as [[-> ->] | Hn].
           ++ rewrite decide_True by tauto. reflexivity.
           ++ rewrite decide_False by tauto. reflexivity.
        -- apply bool_decide_eq_false in HT.
           rewrite decide_False by tauto. reflexivity.
  - apply Z.ltb_ge in HE. exists s. split; [reflexivity |]. split; [exact HI |].
    left. split; [reflexivity |]. intros T' C' (E' & HE' & Hlt).
    rewrite Hv in HE'. injection HE' as -> -> ->. lia.
Qed.

(** One turn only removes, and leaves the other timers alone. *)
Lemma expire_shrinks s t todo :
  ready s (t :: todo) ->
  exists s1, expire effectTimer now t s = Some s1 /\
    ready s1 todo /\
    (forall i, i ∈ entities s1 -> i ∈ entities s) /\
    (forall c i v, get c i s1 = Some v -> get c i s = Some v) /\
    (forall i, i <> t -> get effectTimer i s1 = get effectTimer i s) /\
    (forall i, i <> t -> i ∈ entities s -> i ∈ entities s1).
Proof.
  intros (HI & Hnd & Hlive & Hrev).
  apply NoDup_cons in Hnd as [Hnotin Hnd].
  destruct (Hlive t (list_elem_of_here _ _)) as [Htin Hsome].
  destruct (expire_spec s t HI Htin Hsome) as (s1 & Hex & HI1 & Hcase).
  exists s1. split; [exact Hex |].
  assert ((forall i, i ∈ entities s1 -> i ∈ entities s) /\
          (forall c i v, get c i s1 = Some v -> get c i s = Some v) /\
          (forall i, i <> t -> get effectTimer i s1 = get effectTimer i s) /\
          (forall i, i <> t -> i ∈ entities s -> i ∈ entities s1)) as (H1 & H2 & H3 & H4).
  { destruct Hcase as [[-> _] | (T & C & (E & HE & _) & Hent & Hget)]; [tauto |].
    split; [| split; [| split]].
    - intros i Hi. apply Hent in Hi. tauto.
    - intros c i v. rewrite Hget. repeat destruct (decide _); congruence.
    - intros i Hne. rewrite Hget. rewrite decide_False by exact Hne.
      rewrite decide_False; [reflexivity |]. intros [Heq _].
      apply (Hrev t T C E HE). symmetry. exact Heq.
    - intros i Hne Hi. apply Hent. tauto. }
  split; [| tauto].
  split; [exact HI1 |]. split; [exact Hnd |]. split.
  - intros i Hi. assert (i <> t) as Hne by (intros ->; contradiction).
    destruct (Hlive i (list_elem_of_further _ _ _ Hi)) as [Hie Hig].
    split; [exact (H4 i Hne Hie) |]. rewrite (H3 i Hne). exact Hig.
  - intros i T C E Hg. exact (Hrev i T C E (H2 _ _ _ Hg)).
Qed.

Definition loop (todo : list nat) (cur : option store) : option store :=
  fold_left (fun cur eid => cur ≫= expire effectTimer now eid) todo cur.

(** The loop runs to its end and only removes. *)
Lemma loop_shrinks todo s :
  ready s todo ->
  exists s', loop todo (Some s) = Some s' /\ Inv s' /\
    (forall i, i ∈ entities s' -> i ∈ entities s) /\
    (forall c i v, get c i s' = Some v -> get c i s = Some v).
Proof.
  revert s. induction todo as [| t todo IH]; intros s Hr.
  - exists s. split; [reflexivity |]. destruct Hr as [HI _]. auto.
  - destruct (expire_shrinks s t todo Hr) as (s1 & Hex & Hr1 & H1 & H2 & _).
    destruct (IH s1 Hr1) as (s' & Hl & HI' & I1 & I2).
    exists s'. unfold loop in *. cbn [fold_left]. cbn [mbind option_bind].
    rewrite Hex. split; [exact Hl |]. split; [exact HI' |]. split; eauto.
Qed.

(** A timer that has not expired survives the loop with its record. *)
Lemma loop_keeps todo s eid v :
  ready s todo -> eid ∈ entities s -> get effectTimer eid s = Some v ->
  (forall T C, ~ expired s eid T C) ->
  exists s', loop todo (Some s) = Some s' /\
    eid ∈ entities s' /\ get effectTimer eid s' = Some v.
Proof.
  revert s. induction todo as [| t todo IH]; intros s Hr Hin Hv Hnot.
  - exists s. split; [reflexivity | split; assumption].
  - destruct (expire_shrinks s t todo Hr) as (s1 & Hex & Hr1 & _ & _ & H3 & H4).
    assert (eid ∈ entities s1 /\ get effectTimer eid s1 = Some v) as [Hin1 Hv1].
    { destruct (decide (eid = t)) as [-> | Hne].
      - destruct Hr as (HI & _ & _ & _).
        destruct (expire_spec s t HI Hin (mk_is_Some _ _ Hv))
          as (s1' & Hex' & _ & [[-> _] | (T & C & Hexp & _)]).
        + rewrite Hex in Hex'. injection Hex' as ->. split; assumption.
        + exfalso. exact (Hnot T C Hexp).
      - split; [exact (H4 eid Hne Hin) |]. rewrite (H3 eid Hne). exact Hv. }
    assert (forall T C, ~ expired s1 eid T C) as Hnot1.
    { intros T C (E & HE & Hlt). rewrite Hv1 in HE. apply (Hnot T C).
      exists E. split; [rewrite Hv; exact HE | exact Hlt]. }
    destruct (IH s1 Hr1 Hin1 Hv1 Hnot1) as (s' & Hl & R).
    exists s'. unfold loop in *. cbn [fold_left]. cbn [mbind option_bind].
    rewrite Hex. split; [exact Hl | exact R].
Qed.


Lemma get_live s c i v : Inv s -> get c i s = Some v -> i ∈ entities s.
Proof.
  intros (_ & _ & Hl & _) Hg. apply (Hl c i). unfold has. rewrite Hg. reflexivity.
Qed.

(** An expired timer is destroyed by the loop, and the component it
    names is gone from its target. *)
Lemma loop_removes todo s eid T C :
  ready s todo -> eid ∈ todo -> expired s eid T C ->
  exists s', loop todo (Some s) = Some s' /\
    ~ eid ∈ entities s' /\ get effectTimer eid s' = None /\ get C T s' = None.
Proof.
  revert s. induction todo as [| t todo IH]; intros s Hr Hin Hexp.
  { apply elem_of_nil in Hin. contradiction. }
  destruct (expire_shrinks s t todo Hr) as (s1 & Hex & Hr1 & _ & _ & H3 & _).
  unfold loop in *. cbn [fold_left]. cbn [mbind option_bind]. rewrite Hex.
  destruct (decide (eid = t)) as [-> | Hne].
  - destruct Hr as (HI & _ & Hlive & _).
    destruct (Hlive t (list_elem_of_here _ _)) as [Htin Hsome].
    destruct (expire_spec s t HI Htin Hsome)
      as (s1' & Hex' & _ & [[_ Hnot] | (T' & C' & Hexp' & Hent & Hget)]).
    { exfalso. exact (Hnot T C Hexp). }
    rewrite Hex in Hex'. injection Hex' as <-.
    destruct Hexp as (E & HE & Hlt). destruct Hexp' as (E' & HE' & _).
    rewrite HE in HE'. injection HE' as <- <- <-.
    destruct (loop_shrinks todo s1 Hr1) as (s' & Hl & _ & I1 & I2).
    exists s'. split; [exact Hl |]. split; [| split].
    + intros Hi. apply I1, Hent in Hi. tauto.
    + destruct (get effectTimer t s') as [v |] eqn:Hv; [| reflexivity].
      apply I2 in Hv. rewrite Hget, decide_True in Hv by reflexivity. discriminate.
    + destruct (get C T s') as [v |] eqn:Hv; [| reflexivity].
      apply I2 in Hv. rewrite Hget in Hv.
      destruct (decide (T = t)); [discriminate |].
      destruct (decide (C = C /\ T = T /\ T ∈ entities s)) as [_ | Hn]; [discriminate |].
      exfalso. apply Hn. repeat split. exact (get_live s C T v HI Hv).
  - apply elem_of_cons in Hin as [-> | Hin]; [contradiction |].
    apply (IH s1 Hr1 Hin). destruct Hexp as (E & HE & Hlt).
    exists E. split; [rewrite (H3 eid Hne); exact HE | exact Hlt].
Qed.

(** The loop leaves a component alone unless an expired timer names it
    or its entity is itself an expired timer. *)
Lemma loop_preserves todo s T C :
  ready s todo ->
  (forall t T' C', t ∈ todo -> expired s t T' C' -> t <> T /\ (T' <> T \/ C' <> C)) ->
  exists s', loop todo (Some s) = Some s' /\ get C T s' = get C T s.
Proof.
  revert s. induction todo as [| t todo IH]; intros s Hr Hsafe.
  { exists s. split; reflexivity. }
  destruct (expire_shrinks s t todo Hr) as (s1 & Hex & Hr1 & _ & _ & H3 & _).
  unfold loop in *. cbn [fold_left]. cbn [mbind option_bind]. rewrite Hex.
  assert (get C T s1 = get C T s) as Hsame.
  { destruct Hr as (HI & _ & Hlive & _).
    destruct (Hlive t (list_elem_of_here _ _)) as [Htin Hsome].
    destruct (expire_spec s t HI Htin Hsome)
      as (s1' & Hex' & _ & [[-> _] | (T' & C' & Hexp' & _ & Hget)]);
      rewrite Hex in Hex'; injection Hex' as <-; [reflexivity |].
    destruct (Hsafe t T' C' (list_elem_of_here _ _) Hexp') as [Hne Hor].
    rewrite Hget. rewrite decide_False by congruence.
    rewrite decide_False; [reflexivity |]. intros (-> & -> & _). tauto. }
  destruct (IH s1 Hr1) as (s' & Hl & Hg).
  - intros t' T' C' Hin (E & HE & Hlt).
    assert (t' <> t) as Hne.
    { destruct Hr as (_ & Hnd & _). apply NoDup_cons in Hnd as [Hnotin _].
      intros ->. contradiction. }
    apply (Hsafe t' T' C'); [apply list_elem_of_further; exact Hin |].
    exists E. split; [rewrite <- (H3 t' Hne); exact HE | exact Hlt].
  - exists s'. split; [exact Hl |]. rewrite Hg. exact Hsame.
Qed.


(** C3 (as the code has it): on a store reached by valid operations in
    which the timer query is registered, let entity [eid] carry the
    EffectTimer record (target [T], component [C], expiration [E]), and
    let no timer name the EffectTimer component itself.  Then the
    expiry step at clock value [now] runs to its end, and
    - if [now <= E] it keeps the timer entity and its record, and keeps
      [C] on [T] unless another, expired timer names [(T, C)] or [T] is
      itself an expired timer;
    - if [E < now] it destroys the timer entity and [T] no longer holds
      [C]; when [T] is no entity any more nothing of [T] changes. *)
Theorem effect_timer_expiry (ops : list (op payload)) (eid T : nat) (C : string) (E : Z) :
  validTrace empty ops -> DefineQuery [effectTimer] ∈ ops ->
  get effectTimer eid (run ops empty) = Some (Timer T C E) ->
  (forall t T' C' E', get effectTimer t (run ops empty) = Some (Timer T' C' E') ->
                      C' <> effectTimer) ->
  exists s',
    effectsSystem (queryKey [effectTimer]) effectTimer now (run ops empty) = Some s' /\
    ((now <= E)%Z ->
       eid ∈ entities s' /\
       get effectTimer eid s' = Some (Timer T C E) /\
       ((forall t T' C', expired (run ops empty) t T' C' ->
                         t <> T /\ (T' <> T \/ C' <> C)) ->
        get C T s' = get C T (run ops empty))) /\
    ((E < now)%Z ->
       ~ eid ∈ entities s' /\
       get effectTimer eid s' = None /\
       get C T s' = None /\
       (~ T ∈ entities (run ops empty) ->
        forall c, get c T s' = get c T (run ops empty))).
Proof.
  intros Hv Hq Hrec Hrev.
  destruct (query_cache_consistent ops [effectTimer] Hv Hq) as (cache & Hres & Hnd & Hmem).
  pose proof (Inv_run ops empty Inv_empty Hv) as HI.
  set (s := run ops empty) in *.
  assert (ready s cache) as Hr.
  { split; [exact HI |]. split; [exact Hnd |]. split; [| exact Hrev].
    intros t Ht. apply Hmem in Ht. unfold bruteForce in Ht.
    apply list_elem_of_In, filter_In in Ht as [Hin Hhas].
    split; [apply list_elem_of_In; exact Hin |].
    cbn in Hhas. rewrite andb_true_r in Hhas. unfold has in Hhas.
    destruct (get effectTimer t s); [eauto | discriminate]. }
  pose proof (get_live s _ _ _ HI Hrec) as Hlive.
  assert (eid ∈ cache) as Hin.
  { apply Hmem. unfold bruteForce. apply list_elem_of_In, filter_In.
    split; [apply list_elem_of_In; exact Hlive |].
    cbn. unfold has. rewrite Hrec. reflexivity. }
  destruct (loop_shrinks cache s Hr) as (s' & Hl & HI' & I1 & I2).
  exists s'. unfold effectsSystem. rewrite Hres. split; [exact Hl |].
  fold (loop cache (Some s)) in Hl. split.
  - intros Hle.
    assert (forall T0 C0, ~ expired s eid T0 C0) as Hnot.
    { intros T0 C0 (E0 & HE0 & Hlt). rewrite Hrec in HE0. injection HE0 as -> -> ->. lia. }
    destruct (loop_keeps cache s eid _ Hr Hlive Hrec Hnot) as (s1 & Hl1 & K1 & K2).
    rewrite Hl in Hl1. injection Hl1 as <-.
    split; [exact K1 |]. split; [exact K2 |]. intros Hsafe.
    destruct (loop_preserves cache s T C Hr) as (s2 & Hl2 & P).
    + intros t T' C' _ Hexp. exact (Hsafe t T' C' Hexp).
    + rewrite Hl in Hl2. injection Hl2 as <-. exact P.
  - intros Hlt.
    destruct (loop_removes cache s eid T C Hr Hin) as (s1 & Hl1 & R1 & R2 & R3).
    { exists E. split; [exact Hrec | exact Hlt]. }
    rewrite Hl in Hl1. injection Hl1 as <-.
    split; [exact R1 |]. split; [exact R2 |]. split; [exact R3 |].
    intros HT c.
    assert (get c T s = None) as Hnone.
    { destruct (get c T s) as [v |] eqn:Hg; [| reflexivity].
      exfalso. exact (HT (get_live s c T v HI Hg)). }
    rewrite Hnone. destruct (get c T s') as [v |] eqn:Hg; [| reflexivity].
    apply I2 in Hg. congruence.
Qed.

End Expiry.

(** A player (entity 1) holding component [c0], and a timer (entity 2)
    that revokes it at clock value 1000; [c1] is the EffectTimer. *)
Definition shieldTrace : list (op payload) :=
  [DefineComponent; DefineComponent; DefineQuery ["c1"]; AddEntity;
   AddComponent "c0" 1 Plain; AddEntity; AddComponent "c1" 2 (Timer 1 "c0" 1000)].

Definition shielded : store := run shieldTrace empty.

Lemma shieldTrace_valid : validTrace empty shieldTrace.
Proof.
  cbn. repeat split; try discriminate;
    repeat (apply Forall_cons; split); try apply Forall_nil_2;
    try (eexists; reflexivity); set_solver.
Qed.

Lemma shielded_timers t T' C' E' :
  get "c1" t shielded = Some (Timer T' C' E') -> C' <> "c1".
Proof.
  unfold get. change (componentRegistry shielded !! "c1")
    with (Some ({[2 := Timer 1 "c0" 1000]} : gmap nat payload)).
  cbn. intros H. apply lookup_singleton_Some in H as [_ H].
  injection H as <- <- <-. discriminate.
Qed.

Lemma effect_timer_expiry_witness :
  exists s',
    effectsSystem (queryKey ["c1"]) "c1" 1001 shielded = Some s' /\
    ~ 2 ∈ entities s' /\ get "c0" 1 s' = None.
Proof.
  destruct (effect_timer_expiry "c1" 1001 shieldTrace 2 1 "c0" 1000
              shieldTrace_valid ltac:(unfold shieldTrace; set_solver)
              eq_refl shielded_timers) as (s' & Hs & _ & Hgone).
  exists s'. split; [exact Hs |].
  destruct (Hgone ltac:(lia)) as (H1 & _ & H3 & _). split; assumption.
Defined.

(** C3 fails as stated: at the tick whose clock value equals the
    expiration (1000 >= 1000) the step removes nothing; it does at the
    next millisecond. *)
Lemma effect_timer_not_at_expiration :
  (effectsSystem (queryKey ["c1"]) "c1" 1000 shielded
     ≫= fun s' => Some (has "c0" 1 s', entityExists 2 s')) = Some (true, true) /\
  (effectsSystem (queryKey ["c1"]) "c1" 1001 shielded
     ≫= fun s' => Some (has "c0" 1 s', entityExists 2 s')) = Some (false, false).
Proof. split; vm_compute; reflexivity. Qed.

End Effects.

(** ** The maze grid and the pathfinder (findPath in nexusMazeGame.js) *)

Module Pathfinder.

(** [state.maze]: rows indexed by [z], cells by [x]; 1 is a wall, 0 is
    open. *)
Abbreviation grid := (list (list nat)).

(** A node [{ x, z }]; the maps of [findPath] are keyed by the string
    [`${x},${z}`], which determines the pair. *)
Definition node := (Z * Z)%type.

Definition nx (n : node) : Z := fst n.
Definition nz (n : node) : Z := snd n.

(** [maze[0].length] *)
Definition rowLength (maze : grid) : nat :=
  match maze with [] => 0 | row :: _ => length row end.

(** [maze[z][x]], [undefined] being [None]. *)
Definition cellAt (maze : grid) (n : node) : option nat :=
  maze !! Z.to_nat (nz n) ≫= fun row => row !! Z.to_nat (nx n).

(** The test that makes the neighbour loop [continue]. *)
Definition blocked (maze : grid) (n : node) : bool :=
  (nz n <? 0)%Z || (Z.of_nat (length maze) <=? nz n)%Z ||
  (nx n <? 0)%Z || (Z.of_nat (rowLength maze) <=? nx n)%Z ||
  match cellAt maze n with Some 1 => true | _ => false end.

(** [heuristic(a, b)]: the Manhattan distance. *)
Definition heuristic (a b : node) : nat :=
  Z.abs_nat (nx a - nx b) + Z.abs_nat (nz a - nz b).

(** The four neighbours in the order of the source. *)
Definition neighbours (c : node) : list node :=
  [(nx c, nz c - 1); (nx c, nz c + 1); (nx c - 1, nz c); (nx c + 1, nz c)]%Z.

Record search := mkSearch {
  open : list node;
  closed : gset node;
  cameFrom : gmap node node;
  gScore : gmap node nat;
  fScore : gmap node nat
}.

(** [fScore.get(key(a))] *)
Definition fOf (st : search) (a : node) : nat := default 0 (fScore st !! a).

(** [open.sort((a, b) => f(a) - f(b))]: the sort is stable, which an
    insertion from the right that stops before the first element not
    smaller reproduces. *)
Fixpoint insertByF (f : node -> nat) (a : node) (l : list node) : list node :=
  match l with
  | [] => [a]
  | b :: rest => if f a <=? f b then a :: b :: rest else b :: insertByF f a rest
  end.

Definition sortByF (f : node -> nat) (l : list node) : list node :=
  foldr (insertByF f) [] l.

(** The body of [for (const neighbour of neighbours)]. *)
Definition relax (maze : grid) (goal current : node) (st : search)
    (neighbour : node) : search :=
  if blocked maze neighbour then st
  else if bool_decide (neighbour ∈ closed st) then st
  else
    let tentativeG := default 0 (gScore st !! current) + 1 in
    if match gScore st !! neighbour with
       | None => true
       | Some g => tentativeG <? g
       end
    then
      mkSearch
        (if bool_decide (neighbour ∈ open st) then open st else open st ++ [neighbour])
        (closed st)
        (<[neighbour := current]> (cameFrom st))
        (<[neighbour := tentativeG]> (gScore st))
        (<[neighbour := tentativeG + heuristic neighbour goal]> (fScore st))
    else st.

(** [while (node) { path.unshift(node); node = cameFrom.get(key(node)); }] *)
Fixpoint reconstruct (fuel : nat) (came : gmap node node) (n : node)
    (path : list node) : option (list node) :=
  match fuel with
  | O => None
  | S fuel' =>
      match came !! n with
      | None => Some (n :: path)
      | Some prev => reconstruct fuel' came prev (n :: path)
      end
  end.

(** What [findPath] returns: a path, [null], or, for the model only,
    the exhaustion of the fuel that bounds its two loops. *)
Inductive result := Path (p : list node) | NotFound | OutOfFuel.

(** [while (open.length > 0) { ... }] *)
Fixpoint searchLoop (fuel : nat) (maze : grid) (goal : node) (st : search) : result :=
  match fuel with
  | O => OutOfFuel
  | S fuel' =>
      match sortByF (fOf st) (open st) with
      | [] => NotFound
      | current :: rest =>
          if bool_decide (current = goal) then
            match reconstruct (S (size (closed st))) (cameFrom st) current [] with
            | Some p => Path p
            | None => OutOfFuel
            end
          else
            let st1 := mkSearch rest ({[current]} ∪ closed st) (cameFrom st)
                                (gScore st) (fScore st) in
            searchLoop fuel' maze goal
              (fold_left (relax maze goal current) (neighbours current) st1)
      end
  end.

(** The number of cells of the grid as the bounds test sees it. *)
Definition cellCount (maze : grid) : nat := length maze * rowLength maze.

(** [findPath(start, end)] on [state.maze]. *)
Definition findPath (maze : grid) (start goal : node) : result :=
  searchLoop (S (S (cellCount maze))) maze goal
    (mkSearch [start] ∅ ∅ {[start := 0]} {[start := heuristic start goal]}).

(** *** The graph the search walks on, and the reference distance *)

(** A walk of [n] steps from [start]: every step goes to a neighbour
    that the search does not skip.  (The start itself is never tested.) *)
Inductive walk (maze : grid) (start : node) : node -> nat -> Prop :=
| walk_start : walk maze start start 0
| walk_step u v n :
    walk maze start u n -> v ∈ neighbours u -> blocked maze v = false ->
    walk maze start v (S n).

(** A path as [findPath] returns it: consecutive cells are neighbours,
    and every cell after the first is in the grid and no wall. *)
Fixpoint isPath (maze : grid) (p : list node) : Prop :=
  match p with
  | [] => True
  | u :: rest =>
      match rest with
      | [] => True
      | v :: _ => v ∈ neighbours u /\ blocked maze v = false
      end /\ isPath maze rest
  end.

(** Breadth-first search by levels: the cells within [n] steps. *)
Definition expand (maze : grid) (level : gset node) : gset node :=
  level ∪ list_to_set
    (flat_map (fun u => List.filter (fun v => negb (blocked maze v)) (neighbours u))
              (elements level)).

Fixpoint within (maze : grid) (start : node) (n : nat) : gset node :=
  match n with
  | O => {[start]}
  | S k => expand maze (within maze start k)
  end.

(** The breadth-first distance: the first level that holds the goal,
    searched up to the number of cells plus one. *)
Definition bfsDistance (maze : grid) (start goal : node) : option nat :=
  List.find (fun n => bool_decide (goal ∈ within maze start n))
            (seq 0 (S (S (cellCount maze)))).

(** *** Correctness of the search *)
Lemma insertByF_perm f a l : insertByF f a l ≡ₚ a :: l.
Proof.
  induction l as [| b rest IH]; simpl; [reflexivity |].
  destruct (f a <=? f b); [reflexivity |].
  rewrite IH. apply Permutation_swap.
Qed.

Lemma sortByF_perm f l : sortByF f l ≡ₚ l.
Proof.
  induction l as [| a l IH]; simpl; [reflexivity |].
  rewrite insertByF_perm, IH. reflexivity.
Qed.

Lemma sortByF_head_min f l a rest :
  sortByF f l = a :: rest -> Forall (fun b => f a <= f b) l.
Proof.
  revert a rest. induction l as [| x l IH]; intros a rest H; [constructor |].
  simpl in H. destruct (sortByF f l) as [| b r] eqn:Hs.
  - assert (l = []) as ->.
    { apply Permutation_nil_r. rewrite <- Hs. symmetry. apply sortByF_perm. }
    simpl in H. injection H as <- <-. repeat constructor.
  - specialize (IH b r eq_refl). simpl in H.
    destruct (f x <=? f b) eqn:Hle.
    + injection H as <- <-. apply Nat.leb_le in Hle. constructor; [lia |].
      eapply Forall_impl; [exact IH |]. simpl. intros c Hc. lia.
    + injection H as <- <-. apply Nat.leb_gt in Hle. constructor; [lia | exact IH].
Qed.

Lemma heuristic_step (goal u v : node) :
  v ∈ neighbours u -> heuristic u goal <= S (heuristic v goal).
Proof.
  unfold neighbours, heuristic, nx, nz. intros H.
  repeat (apply elem_of_cons in H as [-> | H]); [..| by apply elem_of_nil in H];
    cbn [fst snd]; lia.
Qed.

Lemma neighbours_ne (u v : node) : v ∈ neighbours u -> v <> u.
Proof.
  unfold neighbours, nx, nz. destruct u as [x z]. intros H.
  repeat (apply elem_of_cons in H as [-> | H]); [..| by apply elem_of_nil in H];
    cbn [fst snd]; intros [=]; lia.
Qed.

(** All cells of the grid, as the bounds test sees it. *)
Definition allCells (maze : grid) : list node :=
  map (fun i => (Z.of_nat (i mod rowLength maze), Z.of_nat (i / rowLength maze)))
      (seq 0 (cellCount maze)).

Lemma allCells_length maze : length (allCells maze) = cellCount maze.
Proof. unfold allCells. rewrite length_map, length_seq. reflexivity. Qed.

Lemma unblocked_cell maze v : blocked maze v = false -> v ∈ allCells maze.
Proof.
  unfold blocked. intros H.
  repeat (apply orb_false_iff in H as [H ?]).
  destruct v as [x z]. unfold nx, nz in *. cbn [fst snd] in *.
  set (W := rowLength maze) in *.
  assert (0 <= z < Z.of_nat (length maze))%Z as Hz by lia.
  assert (0 <= x < Z.of_nat W)%Z as Hx by lia.
  unfold allCells. apply list_elem_of_fmap.
  exists (Z.to_nat z * W + Z.to_nat x)%nat. fold W. split.
  - rewrite Nat.add_comm, Nat.Div0.mod_add, Nat.div_add by lia.
    rewrite Nat.mod_small, Nat.div_small by lia. f_equal; lia.
  - apply list_elem_of_In, in_seq. unfold cellCount. fold W. nia.
Qed.


Section Search.

Variable maze : grid.
Variables start goal : node.

(** Every node the search can close: the start and the cells. *)
Definition universe : gset node := {[start]} ∪ list_to_set (allCells maze).

Lemma list_to_set_size (l : list node) : size (list_to_set l : gset node) <= length l.
Proof.
  induction l as [| a l IH]; cbn.
  - rewrite size_empty. lia.
  - rewrite size_union_alt, size_singleton.
    assert (size (list_to_set l ∖ {[a]} : gset node) <= size (list_to_set l : gset node))
      as Hsub by (apply subseteq_size; set_solver).
    lia.
Qed.

Lemma universe_size : size universe <= S (cellCount maze).
Proof.
  unfold universe. rewrite size_union_alt, size_singleton.
  assert (size (list_to_set (allCells maze) ∖ {[start]} : gset node)
          <= size (list_to_set (allCells maze) : gset node))
    as Hsub by (apply subseteq_size; set_solver).
  pose proof (list_to_set_size (allCells maze)) as Hl.
  rewrite allCells_length in Hl. lia.
Qed.

(** The loop invariant.  [edgeDone u v] says that the edge from the
    closed node [u] to [v] has been relaxed; at the head of the loop
    that is every edge. *)
Record Inv (edgeDone : node -> node -> Prop) (st : search) : Prop := mkInv {
  inv_start_g : gScore st !! start = Some 0;
  inv_start_came : cameFrom st !! start = None;
  inv_started : start ∈ closed st \/ forall v, is_Some (gScore st !! v) -> v = start;
  inv_f : forall v g, gScore st !! v = Some g ->
            fScore st !! v = Some (g + heuristic v goal);
  inv_came : forall v g, gScore st !! v = Some g -> v <> start ->
    exists u gu, cameFrom st !! v = Some u /\ u ∈ closed st /\
      gScore st !! u = Some gu /\ g = S gu /\
      v ∈ neighbours u /\ blocked maze v = false;
  inv_open : forall v, v ∈ open st <-> is_Some (gScore st !! v) /\ v ∉ closed st;
  inv_nodup : NoDup (open st);
  inv_closed : forall u, u ∈ closed st ->
    is_Some (gScore st !! u) /\ u <> goal /\ u ∈ universe;
  inv_edge : forall u v gu, u ∈ closed st -> edgeDone u v ->
    v ∈ neighbours u -> blocked maze v = false -> gScore st !! u = Some gu ->
    exists gv, gScore st !! v = Some gv /\ gv <= S gu;
  inv_opt : forall u gu n, u ∈ closed st -> gScore st !! u = Some gu ->
    walk maze start u n -> gu <= n;
  inv_walk : forall v g, gScore st !! v = Some g -> walk maze start v g;
  inv_small : forall v g, gScore st !! v = Some g ->
    g <= size (closed st) /\ (v ∈ closed st -> g < size (closed st))
}.

Definition initial : search :=
  mkSearch [start] ∅ ∅ {[start := 0]} {[start := heuristic start goal]}.

Lemma Inv_initial : Inv (fun _ _ => True) initial.
Proof.
  split; cbn.
  - apply lookup_singleton_eq.
  - apply lookup_empty.
  - right. intros v [g Hg]. apply lookup_singleton_Some in Hg as [-> _]. reflexivity.
  - intros v g Hg. apply lookup_singleton_Some in Hg as [<- <-].
    apply lookup_singleton_eq.
  - intros v g Hg Hne. apply lookup_singleton_Some in Hg as [<- _]. congruence.
  - intros v. rewrite list_elem_of_singleton. split.
    + intros ->. rewrite lookup_singleton_eq. split; [eauto | set_solver].
    + intros [[g Hg] _]. apply lookup_singleton_Some in Hg as [<- _]. reflexivity.
  - apply NoDup_singleton.
  - intros u Hu. set_solver.
  - intros u v gu Hu. set_solver.
  - intros u gu n Hu. set_solver.
  - intros v g Hg. apply lookup_singleton_Some in Hg as [<- <-]. constructor.
  - intros v g Hg. apply lookup_singleton_Some in Hg as [<- <-].
    split; [lia | set_solver].
Qed.

(** Relaxed edges may be forgotten or, where nothing is to show, added. *)
Lemma Inv_edges (P Q : node -> node -> Prop) st :
  Inv P st ->
  (forall u v gu, u ∈ closed st -> Q u v -> v ∈ neighbours u ->
     blocked maze v = false -> gScore st !! u = Some gu ->
     P u v \/ exists gv, gScore st !! v = Some gv /\ gv <= S gu) ->
  Inv Q st.
Proof.
  intros [] HQ. split; try assumption.
  intros u v gu Hu Hq Hn Hb Hg.
  destruct (HQ u v gu Hu Hq Hn Hb Hg) as [Hp | Hdone]; [| exact Hdone].
  eauto.
Qed.


(** One neighbour relaxed. *)
Lemma relax_inv st current done w gc :
  Inv (fun u v => u <> current \/ v ∈ done) st ->
  current ∈ closed st -> start ∈ closed st ->
  gScore st !! current = Some gc -> w ∈ neighbours current ->
  Inv (fun u v => u <> current \/ v ∈ w :: done) (relax maze goal current st w) /\
  closed (relax maze goal current st w) = closed st /\
  gScore (relax maze goal current st w) !! current = Some gc.
Proof.
  intros HI Hcur Hst Hgc Hw.
  assert (walk maze start current gc) as Hwalk by (apply (inv_walk _ _ HI); exact Hgc).
  unfold relax. destruct (blocked maze w) eqn:Hb.
  { split; [| auto]. apply (Inv_edges _ _ _ HI).
    intros u v gu Hu [Hne | Hin] Hn Hbv Hg; [left; left; exact Hne |].
    apply elem_of_cons in Hin as [-> | Hin]; [congruence |].
    destruct (decide (u = current)); [left; right; exact Hin | left; left; assumption]. }
  destruct (bool_decide (w ∈ closed st)) eqn:Hc.
  { apply bool_decide_eq_true in Hc. split; [| auto]. apply (Inv_edges _ _ _ HI).
    intros u v gu Hu [Hne | Hin] Hn Hbv Hg; [left; left; exact Hne |].
    apply elem_of_cons in Hin as [-> | Hin]; [| left; right; exact Hin].
    destruct (decide (u = current)) as [-> | Hne]; [| left; left; exact Hne].
    right. destruct (inv_closed _ _ HI w Hc) as ([gw Hgw] & _ & _).
    exists gw. split; [exact Hgw |]. rewrite Hgc in Hg. injection Hg as <-.
    apply (inv_opt _ _ HI w gw (S gc) Hc Hgw).
    econstructor; eassumption. }
  apply bool_decide_eq_false in Hc. rewrite Hgc.
  change (default 0 (Some gc)) with gc.
  destruct (match gScore st !! w with Some g => gc + 1 <? g | None => true end) eqn:Himp.
  2:{ split; [| auto]. apply (Inv_edges _ _ _ HI).
      intros u v gu Hu [Hne | Hin] Hn Hbv Hg; [left; left; exact Hne |].
      apply elem_of_cons in Hin as [-> | Hin]; [| left; right; exact Hin].
      destruct (decide (u = current)) as [-> | Hne]; [| left; left; exact Hne].
      right. destruct (gScore st !! w) as [gw |]; [| discriminate].
      apply Nat.ltb_ge in Himp. exists gw. split; [reflexivity |].
      rewrite Hgc in Hg. injection Hg as <-. lia. }
  assert (w <> start) as Hws by (intros ->; contradiction).
  assert (w <> current) as Hwc by (intros ->; contradiction).
  assert (forall gw, gScore st !! w = Some gw -> gc + 1 < gw) as Hbetter.
  { intros gw Hgw. rewrite Hgw in Himp. apply Nat.ltb_lt in Himp. exact Himp. }
  split; [| split; [reflexivity | cbn; rewrite lookup_insert_ne by congruence; exact Hgc]].
  split; cbn [open closed cameFrom gScore fScore].
  - rewrite lookup_insert_ne by congruence. apply (inv_start_g _ _ HI).
  - rewrite lookup_insert_ne by congruence. apply (inv_start_came _ _ HI).
  - left. exact Hst.
  - intros v g. rewrite !lookup_insert. destruct (decide (w = v)) as [-> | Hne].
    + intros [= <-]. reflexivity.
    + apply (inv_f _ _ HI).
  - intros v g. rewrite !lookup_insert. destruct (decide (w = v)) as [-> | Hne].
    + intros [= <-] _. exists current, gc.
      rewrite lookup_insert_ne by congruence.
      repeat split; [exact Hcur | exact Hgc | lia | exact Hw | exact Hb].
    + intros Hg Hvs. destruct (inv_came _ _ HI v g Hg Hvs) as (u & gu & H1 & H2 & H3 & H4).
      exists u, gu. split; [exact H1 |]. split; [exact H2 |].
      rewrite lookup_insert_ne by (intros ->; contradiction). split; [exact H3 | exact H4].
  - intros v. rewrite lookup_insert_is_Some.
    assert (v ∈ (if bool_decide (w ∈ open st) then open st else open st ++ [w])
            <-> v ∈ open st \/ v = w) as ->.
    { destruct (bool_decide (w ∈ open st)) eqn:Ho.
      - apply bool_decide_eq_true in Ho. split; [auto |]. intros [H | ->]; assumption.
      - rewrite elem_of_app, list_elem_of_singleton. reflexivity. }
    rewrite (inv_open _ _ HI). split.
    + intros [[Hs Hn] | ->]; [split; [| exact Hn] | split; [left; reflexivity | exact Hc]].
      destruct (decide (w = v)); [left; assumption | right; split; assumption].
    + intros [[<- | [_ Hs]] Hn]; [right; reflexivity | left; split; assumption].
  - destruct (bool_decide (w ∈ open st)) eqn:Ho; [apply (inv_nodup _ _ HI) |].
    apply bool_decide_eq_false in Ho. apply NoDup_app.
    split; [apply (inv_nodup _ _ HI) |]. split; [| apply NoDup_singleton].
    intros v Hv Hv'. apply list_elem_of_singleton in Hv'. subst. contradiction.
  - intros u Hu. destruct (inv_closed _ _ HI u Hu) as (H1 & H2 & H3).
    split; [| split; assumption]. rewrite lookup_insert_is_Some.
    destruct (decide (w = u)); [left; assumption | right; split; assumption].
  - intros u v gu Hu Hq Hn Hbv. rewrite lookup_insert_ne by (intros ->; contradiction).
    intros Hg. rewrite lookup_insert. destruct (decide (w = v)) as [<- | Hne].
    + exists (gc + 1). split; [reflexivity |].
      destruct (decide (u = current)) as [-> | Hnc].
      * rewrite Hgc in Hg. injection Hg as <-. lia.
      * destruct (inv_edge _ _ HI u w gu Hu (or_introl Hnc) Hn Hbv Hg) as (gw & Hgw & Hle).
        specialize (Hbetter gw Hgw). lia.
    + apply (inv_edge _ _ HI u v gu Hu); try assumption.
      destruct Hq as [Hq | Hq]; [left; exact Hq |].
      apply elem_of_cons in Hq as [-> | Hq]; [congruence | right; exact Hq].
  - intros u gu n Hu. rewrite lookup_insert_ne by (intros ->; contradiction).
    intros Hg Hwk. exact (inv_opt _ _ HI u gu n Hu Hg Hwk).
  - intros v g. rewrite lookup_insert. destruct (decide (w = v)) as [<- | Hne].
    + intros [= <-]. replace (gc + 1) with (S gc) by lia. econstructor; eassumption.
    + apply (inv_walk _ _ HI).
  - intros v g. rewrite lookup_insert. destruct (decide (w = v)) as [<- | Hne].
    + intros [= <-]. destruct (inv_small _ _ HI current gc Hgc) as [_ Hlt].
      specialize (Hlt Hcur). split; [lia | intros; contradiction].
    + apply (inv_small _ _ HI).
Qed.


Lemma relax_list_inv (l : list node) st current done gc :
  Inv (fun u v => u <> current \/ v ∈ done) st ->
  current ∈ closed st -> start ∈ closed st ->
  gScore st !! current = Some gc ->
  (forall w, w ∈ l -> w ∈ neighbours current) ->
  Inv (fun u v => u <> current \/ v ∈ rev l ++ done)
      (fold_left (relax maze goal current) l st) /\
  closed (fold_left (relax maze goal current) l st) = closed st.
Proof.
  revert st done. induction l as [| w l IH]; intros st done HI Hcur Hst Hgc Hl.
  - split; [exact HI | reflexivity].
  - cbn [fold_left rev].
    destruct (relax_inv st current done w gc HI Hcur Hst Hgc) as (HI1 & Hcl & Hg1).
    { apply Hl. apply list_elem_of_here. }
    destruct (IH (relax maze goal current st w) (w :: done) HI1) as [HI2 Hcl2].
    + rewrite Hcl. exact Hcur.
    + rewrite Hcl. exact Hst.
    + exact Hg1.
    + intros v Hv. apply Hl. apply list_elem_of_further. exact Hv.
    + rewrite <- app_assoc. cbn [app]. split; [exact HI2 |]. rewrite Hcl2. exact Hcl.
Qed.

(** All four neighbours relaxed: the invariant of the loop head. *)
Lemma relax_all_inv st current gc :
  Inv (fun u v => u <> current \/ v ∈ []) st ->
  current ∈ closed st -> start ∈ closed st ->
  gScore st !! current = Some gc ->
  Inv (fun _ _ => True) (fold_left (relax maze goal current) (neighbours current) st) /\
  closed (fold_left (relax maze goal current) (neighbours current) st) = closed st.
Proof.
  intros HI Hcur Hst Hgc.
  destruct (relax_list_inv (neighbours current) st current [] gc HI Hcur Hst Hgc)
    as [HI' Hcl]; [auto |].
  split; [| exact Hcl]. apply (Inv_edges _ _ _ HI').
  intros u v gu Hu _ Hn Hb Hg. left.
  destruct (decide (u = current)) as [-> | Hne]; [right | left; exact Hne].
  rewrite app_nil_r. apply list_elem_of_In, (proj1 (in_rev _ _)), list_elem_of_In.
  exact Hn.
Qed.

(** Every walk either ends in a closed node or passes an open node
    whose estimate is no worse than the walk's. *)
Lemma frontier st v n :
  Inv (fun _ _ => True) st -> walk maze start v n ->
  v ∈ closed st \/
  exists w gw, w ∈ open st /\ gScore st !! w = Some gw /\
    gw + heuristic w goal <= n + heuristic v goal.
Proof.
  intros HI Hwalk. induction Hwalk as [| u v n Hwalk IH Hn Hb].
  - destruct (decide (start ∈ closed st)) as [Hc | Hc]; [left; exact Hc |].
    right. exists start, 0. split; [| split; [apply (inv_start_g _ _ HI) | lia]].
    apply (inv_open _ _ HI). split; [| exact Hc].
    rewrite (inv_start_g _ _ HI). eauto.
  - pose proof (heuristic_step goal u v Hn) as Hh.
    destruct IH as [Hc | (w & gw & Hw & Hgw & Hle)].
    + destruct (inv_closed _ _ HI u Hc) as ([gu Hgu] & _ & _).
      pose proof (inv_opt _ _ HI u gu n Hc Hgu Hwalk) as Hopt.
      destruct (inv_edge _ _ HI u v gu Hc I Hn Hb Hgu) as (gv & Hgv & Hlev).
      destruct (decide (v ∈ closed st)) as [Hvc | Hvc]; [left; exact Hvc |].
      right. exists v, gv. split; [| split; [exact Hgv | lia]].
      apply (inv_open _ _ HI). split; [rewrite Hgv; eauto | exact Hvc].
    + right. exists w, gw. split; [exact Hw |]. split; [exact Hgw | lia].
Qed.

(** The node taken from the sorted open list carries its true distance. *)
Lemma pop_optimal st current rest gc n :
  Inv (fun _ _ => True) st ->
  sortByF (fOf st) (open st) = current :: rest ->
  gScore st !! current = Some gc -> walk maze start current n -> gc <= n.
Proof.
  intros HI Hsort Hgc Hwalk.
  assert (current ∈ open st) as Hco.
  { rewrite <- (sortByF_perm (fOf st) (open st)), Hsort. apply list_elem_of_here. }
  destruct (frontier st current n HI Hwalk) as [Hc | (w & gw & Hw & Hgw & Hle)].
  - apply (inv_open _ _ HI) in Hco as [_ Hnc]. contradiction.
  - pose proof (sortByF_head_min _ _ _ _ Hsort) as Hmin.
    rewrite Forall_forall in Hmin. specialize (Hmin w Hw).
    unfold fOf in Hmin.
    rewrite (inv_f _ _ HI current gc Hgc), (inv_f _ _ HI w gw Hgw) in Hmin.
    cbn in Hmin. lia.
Qed.


(** Taking [current] from the open list and closing it. *)
Lemma close_inv st current rest :
  Inv (fun _ _ => True) st ->
  sortByF (fOf st) (open st) = current :: rest -> current <> goal ->
  let st1 := mkSearch rest ({[current]} ∪ closed st) (cameFrom st)
                      (gScore st) (fScore st) in
  Inv (fun u v => u <> current \/ v ∈ []) st1 /\
  start ∈ closed st1 /\ is_Some (gScore st1 !! current) /\
  size (closed st1) = S (size (closed st)).
Proof.
  intros HI Hsort Hng st1.
  pose proof (sortByF_perm (fOf st) (open st)) as Hperm. rewrite Hsort in Hperm.
  pose proof (inv_nodup _ _ HI) as Hnd. rewrite <- Hperm in Hnd.
  apply NoDup_cons in Hnd as [Hnotin Hnd].
  assert (current ∈ open st) as Hco by (rewrite <- Hperm; apply list_elem_of_here).
  destruct (proj1 (inv_open _ _ HI current) Hco) as [[gc Hgc] Hncl].
  assert (size (closed st1) = S (size (closed st))) as Hsize.
  { unfold st1. cbn. rewrite size_union by set_solver. rewrite size_singleton. lia. }
  assert (start ∈ closed st1) as Hst.
  { unfold st1. cbn. destruct (inv_started _ _ HI) as [Hs | Hs]; [set_solver |].
    rewrite (Hs current) by eauto. set_solver. }
  split; [| split; [exact Hst | split; [cbn; eauto | exact Hsize]]].
  split; try (unfold st1; cbn [open closed cameFrom gScore fScore]).
  - apply (inv_start_g _ _ HI).
  - apply (inv_start_came _ _ HI).
  - left. exact Hst.
  - apply (inv_f _ _ HI).
  - intros v g Hg Hvs.
    destruct (inv_came _ _ HI v g Hg Hvs) as (u & gu & H1 & H2 & H3).
    exists u, gu. split; [exact H1 |]. split; [set_solver | exact H3].
  - intros v. split.
    + intros Hv. assert (v ∈ open st) as Hvo.
      { rewrite <- Hperm. apply list_elem_of_further. exact Hv. }
      apply (inv_open _ _ HI) in Hvo as [Hs Hn]. split; [exact Hs |].
      assert (v <> current) by (intros ->; contradiction). set_solver.
    + intros [Hs Hn]. assert (v ∈ open st) as Hvo.
      { apply (inv_open _ _ HI). split; [exact Hs | set_solver]. }
      rewrite <- Hperm in Hvo. apply elem_of_cons in Hvo as [-> | Hvo]; [| exact Hvo].
      set_solver.
  - exact Hnd.
  - intros u Hu. apply elem_of_union in Hu as [Hu | Hu].
    + apply elem_of_singleton in Hu as ->. split; [eauto |]. split; [exact Hng |].
      unfold universe. destruct (decide (current = start)) as [-> | Hne]; [set_solver |].
      destruct (inv_came _ _ HI current gc Hgc Hne) as (_ & _ & _ & _ & _ & _ & _ & Hb).
      apply unblocked_cell in Hb. set_solver.
    + apply (inv_closed _ _ HI u Hu).
  - intros u v gu Hu [Hne | Hin] Hn Hb Hg; [| by apply elem_of_nil in Hin].
    apply (inv_edge _ _ HI u v gu); try assumption; [set_solver | exact I].
  - intros u gu n Hu Hg Hwalk. apply elem_of_union in Hu as [Hu | Hu].
    + apply elem_of_singleton in Hu as ->.
      exact (pop_optimal st current rest gu n HI Hsort Hg Hwalk).
    + exact (inv_opt _ _ HI u gu n Hu Hg Hwalk).
  - apply (inv_walk _ _ HI).
  - intros v g Hg. destruct (inv_small _ _ HI v g Hg) as [H1 H2].
    change (size ({[current]} ∪ closed st)) with (size (closed st1)).
    rewrite Hsize. split; [lia |]. intros Hv.
    apply elem_of_union in Hv as [Hv | Hv]; [lia |]. specialize (H2 Hv). lia.
Qed.

Lemma isPath_snoc (p : list node) u v :
  isPath maze p -> last p = Some u -> v ∈ neighbours u -> blocked maze v = false ->
  isPath maze (p ++ [v]).
Proof.
  induction p as [| a p IH]; intros Hp Hl Hn Hb; [discriminate |].
  destruct p as [| b p].
  - cbn in Hl. injection Hl as ->. cbn. tauto.
  - cbn [app]. destruct Hp as [Hab Hp]. split; [exact Hab |].
    apply IH; try assumption.
Qed.

(** Following [cameFrom] back from a scored node yields a path. *)
Lemma reconstruct_spec P st (g : nat) :
  Inv P st ->
  forall v fuel acc, gScore st !! v = Some g -> g < fuel ->
  exists p, reconstruct fuel (cameFrom st) v acc = Some (p ++ acc) /\
    length p = S g /\ head p = Some start /\ last p = Some v /\ isPath maze p.
Proof.
  intros HI. induction g as [| g IH]; intros v fuel acc Hg Hfuel;
    (destruct fuel as [| fuel]; [lia |]); cbn [reconstruct].
  - destruct (decide (v = start)) as [-> | Hne].
    + rewrite (inv_start_came _ _ HI). exists [start]. cbn. tauto.
    + destruct (inv_came _ _ HI v 0 Hg Hne) as (_ & gu & _ & _ & _ & Hbad & _). lia.
  - assert (v <> start) as Hne.
    { intros ->. rewrite (inv_start_g _ _ HI) in Hg. discriminate. }
    destruct (inv_came _ _ HI v (S g) Hg Hne) as (u & gu & Hc & _ & Hgu & Heq & Hn & Hb).
    injection Heq as <-. rewrite Hc.
    destruct (IH u fuel (v :: acc) Hgu ltac:(lia)) as (p & Hr & Hlen & Hhd & Hlast & Hp).
    exists (p ++ [v]). rewrite <- app_assoc. cbn [app]. split; [exact Hr |].
    split; [rewrite length_app; cbn; lia |]. split; [| split].
    + destruct p; [discriminate | exact Hhd].
    + apply last_snoc.
    + eapply isPath_snoc; eassumption.
Qed.

Lemma closed_size P st : Inv P st -> size (closed st) <= S (cellCount maze).
Proof.
  intros HI. etransitivity; [| apply universe_size].
  apply subseteq_size. intros u Hu. apply (inv_closed _ _ HI u Hu).
Qed.

(** What the loop computes, with enough fuel. *)
Lemma searchLoop_spec fuel st :
  Inv (fun _ _ => True) st -> S (cellCount maze) < fuel + size (closed st) ->
  match searchLoop fuel maze goal st with
  | Path p =>
      exists g, walk maze start goal g /\ (forall n, walk maze start goal n -> g <= n) /\
        g <= S (cellCount maze) /\
        length p = S g /\ head p = Some start /\ last p = Some goal /\ isPath maze p
  | NotFound => forall n, ~ walk maze start goal n
  | OutOfFuel => False
  end.
Proof.
  revert st. induction fuel as [| fuel IH]; intros st HI Hfuel.
  { pose proof (closed_size _ st HI). lia. }
  cbn [searchLoop]. destruct (sortByF (fOf st) (open st)) as [| current rest] eqn:Hsort.
  - intros n Hwalk.
    assert (open st = []) as Hopen.
    { apply Permutation_nil_r. rewrite <- Hsort. symmetry. apply sortByF_perm. }
    destruct (frontier st goal n HI Hwalk) as [Hc | (w & _ & Hw & _)].
    + destruct (inv_closed _ _ HI goal Hc) as (_ & Hne & _). congruence.
    + rewrite Hopen in Hw. by apply elem_of_nil in Hw.
  - destruct (bool_decide (current = goal)) eqn:Hg.
    + apply bool_decide_eq_true in Hg. subst current.
      assert (goal ∈ open st) as Hco.
      { rewrite <- (sortByF_perm (fOf st) (open st)), Hsort. apply list_elem_of_here. }
      destruct (proj1 (inv_open _ _ HI goal) Hco) as [[g Hgg] _].
      destruct (inv_small _ _ HI goal g Hgg) as [Hsmall _].
      destruct (reconstruct_spec _ st g HI goal (S (size (closed st))) [] Hgg ltac:(lia))
        as (p & Hr & Hlen & Hhd & Hlast & Hp).
      rewrite Hr, app_nil_r. exists g.
      split; [apply (inv_walk _ _ HI); exact Hgg |].
      split; [intros n Hn; exact (pop_optimal st goal rest g n HI Hsort Hgg Hn) |].
      split; [pose proof (closed_size _ st HI); lia |]. tauto.
    + apply bool_decide_eq_false in Hg.
      destruct (close_inv st current rest HI Hsort Hg) as (HI1 & Hst & [gc Hgc] & Hsize).
      set (st1 := mkSearch rest _ _ _ _) in *.
      destruct (relax_all_inv st1 current gc HI1) as [HI2 Hcl];
        [unfold st1; cbn; set_solver | exact Hst | exact Hgc |].
      apply IH; [exact HI2 |]. rewrite Hcl, Hsize. lia.
Qed.


(** [findPath] never runs out of fuel; what it returns is decided by
    the walks from [start] to [goal]. *)
Lemma findPath_spec :
  match findPath maze start goal with
  | Path p =>
      exists g, walk maze start goal g /\ (forall n, walk maze start goal n -> g <= n) /\
        g <= S (cellCount maze) /\
        length p = S g /\ head p = Some start /\ last p = Some goal /\ isPath maze p
  | NotFound => forall n, ~ walk maze start goal n
  | OutOfFuel => False
  end.
Proof.
  apply (searchLoop_spec (S (S (cellCount maze))) initial Inv_initial).
  cbn. rewrite size_empty. lia.
Qed.

(** The levels of the breadth-first search are the walks. *)
Lemma within_mono n : within maze start n ⊆ within maze start (S n).
Proof. cbn. unfold expand. set_solver. Qed.

Lemma within_walk n v :
  v ∈ within maze start n <-> exists k, k <= n /\ walk maze start v k.
Proof.
  split.
  - revert v. induction n as [| n IH]; intros v Hv.
    + cbn in Hv. apply elem_of_singleton in Hv as ->. exists 0. split; [lia | constructor].
    + cbn in Hv. unfold expand in Hv. apply elem_of_union in Hv as [Hv | Hv].
      * destruct (IH v Hv) as (k & Hk & Hw). exists k. split; [lia | exact Hw].
      * apply elem_of_list_to_set, list_elem_of_In, in_flat_map in Hv
          as (u & Hu & Hv).
        apply filter_In in Hv as [Hn Hb].
        apply list_elem_of_In, elem_of_elements in Hu.
        destruct (IH u Hu) as (k & Hk & Hw). exists (S k). split; [lia |].
        econstructor; [exact Hw | apply list_elem_of_In; exact Hn |].
        apply negb_true_iff. exact Hb.
  - intros (k & Hk & Hw). revert n Hk.
    induction Hw as [| u v k Hw IH Hn Hb]; intros n Hk.
    + induction n as [| n IHn]; [cbn; set_solver |].
      apply within_mono. apply IHn. lia.
    + destruct n as [| n]; [lia |]. cbn. unfold expand. apply elem_of_union. right.
      apply elem_of_list_to_set, list_elem_of_In, in_flat_map.
      exists u. split.
      * apply list_elem_of_In, elem_of_elements. apply IH. lia.
      * apply filter_In. split; [apply list_elem_of_In; exact Hn |].
        apply negb_true_iff. exact Hb.
Qed.

Lemma find_first (f : nat -> bool) (len g s : nat) :
  f (s + g) = true -> (forall n, n < g -> f (s + n) = false) -> g < len ->
  List.find f (seq s len) = Some (s + g).
Proof.
  revert s g. induction len as [| len IH]; intros s g Hg Hlt Hlen; [lia |].
  cbn [seq List.find]. destruct g as [| g].
  - rewrite Nat.add_0_r in *. rewrite Hg. reflexivity.
  - rewrite <- (Nat.add_0_r s) at 1. rewrite (Hlt 0) by lia.
    replace (s + S g) with (S s + g) in * by lia.
    apply IH; [exact Hg | | lia].
    intros n Hn. replace (S s + n) with (s + S n) by lia. apply Hlt. lia.
Qed.

Lemma find_nowhere (f : nat -> bool) (l : list nat) :
  (forall n, f n = false) -> List.find f l = None.
Proof. intros H. induction l as [| a l IH]; cbn; [| rewrite H]; auto. Qed.

(** The breadth-first distance is the length of a shortest walk. *)
Lemma bfsDistance_shortest g :
  walk maze start goal g -> (forall n, walk maze start goal n -> g <= n) ->
  g <= S (cellCount maze) -> bfsDistance maze start goal = Some g.
Proof.
  intros Hw Hmin Hle. unfold bfsDistance.
  apply (find_first _ _ g 0); [| | lia].
  - apply bool_decide_eq_true. apply within_walk. exists g. split; [lia | exact Hw].
  - intros n Hn. apply bool_decide_eq_false. rewrite within_walk.
    intros (k & Hk & Hwk). specialize (Hmin k Hwk). cbn in Hk. lia.
Qed.

Lemma bfsDistance_unreachable :
  (forall n, ~ walk maze start goal n) -> bfsDistance maze start goal = None.
Proof.
  intros Hno. unfold bfsDistance. apply find_nowhere.
  intros n. apply bool_decide_eq_false. rewrite within_walk.
  intros (k & _ & Hw). exact (Hno k Hw).
Qed.

(** On a walk from an open start every cell is open. *)
Lemma isPath_open (p : list node) :
  isPath maze p -> (forall c, head p = Some c -> blocked maze c = false) ->
  Forall (fun c => blocked maze c = false) p.
Proof.
  induction p as [| a p IH]; intros Hp Hhd; [constructor |].
  constructor; [apply Hhd; reflexivity |].
  destruct Hp as [Hstep Hp]. apply IH; [exact Hp |].
  destruct p as [| b p]; [discriminate |].
  intros c [= <-]. tauto.
Qed.

End Search.

(** Connected through 4-connected cells that are in the grid and no wall. *)
Definition connected (maze : grid) (start goal : node) : Prop :=
  exists n, walk maze start goal n.

Lemma within_connected (maze : grid) (start goal : node) (n : nat) :
  bool_decide (goal ∈ within maze start n) = true -> connected maze start goal.
Proof.
  intros H. apply bool_decide_eq_true in H. apply within_walk in H as (k & _ & Hw).
  exists k. exact Hw.
Qed.

(** C2: between an open start and a goal connected to it, [findPath]
    returns a path from start to goal inclusive, through open cells
    only, whose number of steps is the breadth-first distance (no walk
    is shorter); for a goal not connected to the start it returns
    NotFound. *)
Theorem findPath_shortest (maze : grid) (start goal : node) :
  blocked maze start = false ->
  (connected maze start goal ->
   exists p, findPath maze start goal = Path p /\
     head p = Some start /\ last p = Some goal /\ isPath maze p /\
     Forall (fun c => blocked maze c = false) p /\
     bfsDistance maze start goal = Some (length p - 1) /\
     forall n, walk maze start goal n -> length p - 1 <= n) /\
  (~ connected maze start goal ->
   findPath maze start goal = NotFound /\ bfsDistance maze start goal = None).
Proof.
  intros Hstart. pose proof (findPath_spec maze start goal) as Hspec.
  destruct (findPath maze start goal) as [p | |]; [| | contradiction].
  - destruct Hspec as (g & Hw & Hmin & Hle & Hlen & Hhd & Hlast & Hp). split.
    + intros _. exists p. split; [reflexivity |].
      split; [exact Hhd |]. split; [exact Hlast |]. split; [exact Hp |].
      replace (length p - 1) with g by lia.
      split; [| split; [apply bfsDistance_shortest; assumption | exact Hmin]].
      apply isPath_open; [exact Hp |]. intros c Hc. rewrite Hhd in Hc.
      injection Hc as <-. exact Hstart.
    + intros Hno. exfalso. apply Hno. exists g. exact Hw.
  - split.
    + intros (n & Hw). exfalso. exact (Hspec n Hw).
    + intros _. split; [reflexivity |]. apply bfsDistance_unreachable. exact Hspec.
Qed.

(** A grid with two walls to go around. *)
Definition corridors : grid :=
  [[0;0;0;0];[1;1;1;0];[0;0;0;0];[0;1;1;1];[0;0;0;0]].

Lemma findPath_shortest_witness :
  exists p, findPath corridors (0, 0)%Z (3, 4)%Z = Path p /\
    bfsDistance corridors (0, 0)%Z (3, 4)%Z = Some (length p - 1).
Proof.
  destruct (findPath_shortest corridors (0, 0)%Z (3, 4)%Z eq_refl) as [Hyes _].
  destruct Hyes as (p & Hp & _ & _ & _ & _ & Hd & _).
  - apply (within_connected _ _ _ 13). vm_compute. reflexivity.
  - exists p. split; assumption.
Defined.

(** C6 (as the code has it): when the goal is a wall cell, or outside
    the grid, [findPath] returns NotFound for every other start, and
    the one-cell path when start and goal are the same cell. *)
Theorem findPath_wall_goal (maze : grid) (start goal : node) :
  blocked maze goal = true ->
  (start <> goal -> findPath maze start goal = NotFound) /\
  (start = goal -> findPath maze start goal = Path [start]).
Proof.
  intros Hwall. split.
  - intros Hne. pose proof (findPath_spec maze start goal) as Hspec.
    destruct (findPath maze start goal) as [p | |]; [| reflexivity | contradiction].
    destruct Hspec as (g & Hw & _). exfalso.
    inversion Hw; subst; congruence.
  - intros <-. unfold findPath. cbn [searchLoop open sortByF foldr insertByF].
    rewrite bool_decide_eq_true_2 by reflexivity.
    cbn. rewrite lookup_empty. reflexivity.
Qed.

Lemma findPath_wall_goal_witness :
  findPath [[0; 1; 0]] (0, 0)%Z (1, 0)%Z = NotFound /\
  findPath [[0; 1; 0]] (1, 0)%Z (1, 0)%Z = Path [(1, 0)%Z].
Proof.
  split.
  - apply (findPath_wall_goal [[0; 1; 0]] (0, 0)%Z (1, 0)%Z eq_refl). discriminate.
  - apply (findPath_wall_goal [[0; 1; 0]] (1, 0)%Z (1, 0)%Z eq_refl). reflexivity.
Defined.

(** C6 fails as stated: the start cell is never tested, so from a wall
    cell next to an open goal a path is returned. *)
Lemma findPath_from_wall :
  cellAt [[1; 0]] (0, 0)%Z = Some 1 /\
  findPath [[1; 0]] (0, 0)%Z (1, 0)%Z = Path [(0, 0)%Z; (1, 0)%Z].
Proof. split; vm_compute; reflexivity. Qed.

End Pathfinder.

(** ** The maze generator (#generateMaze, and the size chosen by #createLevel) *)

Module Maze.
Import Pathfinder.

Local Open Scope Z_scope.

(** [Math.random()]: the value returned by the [k]-th call. *)
Definition random := nat -> Q.

(** [Math.floor(r * n)] *)
Definition scaled (r : Q) (n : Z) : Z := Qfloor (r * inject_Z n)%Q.

(** A hole of a JS array reads as [undefined], neither 0 nor 1; the
    model writes 2 for it.  Holes only arise for sizes below 3. *)
Definition hole : nat := 2%nat.

(** [row[x] = v]: inside the row an update; beyond its end the array
    grows; a negative index sets a property and leaves the cells. *)
Definition jsSet (row : list nat) (x : Z) (v : nat) : list nat :=
  if x <? 0 then row
  else if (Z.to_nat x <? length row)%nat then <[Z.to_nat x := v]> row
  else row ++ replicate (Z.to_nat x - length row) hole ++ [v].

(** [maze[y][x] = v]; [None] is the TypeError raised when [maze[y]] is
    [undefined]. *)
Definition setCell (maze : grid) (c : node) (v : nat) : option grid :=
  if nz c <? 0 then None
  else match maze !! Z.to_nat (nz c) with
       | None => None
       | Some row => Some (<[Z.to_nat (nz c) := jsSet row (nx c) v]> maze)
       end.

Definition directions : list node := [(0, -2); (2, 0); (0, 2); (-2, 0)].

(** The test of the inner loop: a cell strictly inside the border that
    is still a wall. *)
Definition carvable (width height : Z) (maze : grid) (n : node) : bool :=
  (0 <? nx n) && (nx n <? width - 1) && (0 <? nz n) && (nz n <? height - 1) &&
  bool_decide (cellAt maze n = Some 1%nat).

Definition plus (c d : node) : node := (nx c + nx d, nz c + nz d).
Definition half (d : node) : node := (nx d / 2, nz d / 2).

(** The neighbours pushed for [cell], each with its direction. *)
Definition wallNeighbours (width height : Z) (maze : grid) (cell : node)
    : list (node * node) :=
  List.filter (fun nd => carvable width height maze (fst nd))
              (map (fun dir => (plus cell dir, dir)) directions).

(** [while (stack.length > 0) { ... }]; the top of the stack is the head
    of the list, [k] counts the calls of [Math.random]. *)
Fixpoint carveLoop (fuel : nat) (width height : Z) (rng : random)
    (maze : grid) (stack : list node) (k : nat) : option (grid * nat) :=
  match fuel with
  | O => None
  | S fuel' =>
      match stack with
      | [] => Some (maze, k)
      | cell :: below =>
          let neighbours := wallNeighbours width height maze cell in
          match neighbours with
          | [] => carveLoop fuel' width height rng maze below k
          | _ :: _ =>
              match neighbours !! Z.to_nat (scaled (rng k) (Z.of_nat (length neighbours))) with
              | None => None
              | Some (chosen, dir) =>
                  match setCell maze chosen 0 with
                  | None => None
                  | Some maze1 =>
                      match setCell maze1 (plus cell (half dir)) 0 with
                      | None => None
                      | Some maze2 =>
                          carveLoop fuel' width height rng maze2 (chosen :: stack) (S k)
                      end
                  end
              end
          end
      end
  end.

(** The maze before the extra openings: all walls, room (1, 1) opened,
    then the carving loop. *)
Definition carve (width height : nat) (rng : random) : option (grid * nat) :=
  match setCell (replicate height (replicate width 1%nat)) (1, 1) 0 with
  | None => None
  | Some maze =>
      carveLoop (2 * width * height + 2) (Z.of_nat width) (Z.of_nat height)
                rng maze [(1, 1)] 0
  end.

(** [Math.floor(width * height * 0.003)]; exact whenever
    [width * height] is no multiple of 1000. *)
Definition randomOpenings (width height : nat) : nat :=
  Z.to_nat (Z.of_nat width * Z.of_nat height * 3 / 1000).

(** [for (let i = 0; i < randomOpenings; i += 1) { ... }] *)
Fixpoint punch (n : nat) (width height : Z) (rng : random) (maze : grid) (k : nat)
    : option grid :=
  match n with
  | O => Some maze
  | S n' =>
      let x := 2 + scaled (rng k) (width - 4) in
      let y := 2 + scaled (rng (S k)) (height - 4) in
      match (if (Z.rem x 2 =? 0) && (Z.rem y 2 =? 1) then setCell maze (x, y) 0
             else Some maze) with
      | None => None
      | Some maze1 =>
          match (if (Z.rem x 2 =? 1) && (Z.rem y 2 =? 0) then setCell maze1 (x, y) 0
                 else Some maze1) with
          | None => None
          | Some maze2 => punch n' width height rng maze2 (S (S k))
          end
      end
  end.

(** [#generateMaze(width, height)]; [None] is an exception. *)
Definition generateMaze (width height : nat) (rng : random) : option grid :=
  match carve width height rng with
  | None => None
  | Some (maze, k) =>
      punch (randomOpenings width height) (Z.of_nat width) (Z.of_nat height) rng maze k
  end.

(** The size [#createLevel] asks for:
    [Math.min(INITIAL_MAZE_SIZE + Math.floor(level / 2) * 4, 71)]. *)
Definition INITIAL_MAZE_SIZE : Z := 31.
Definition mazeSize (level : Z) : Z := Z.min (INITIAL_MAZE_SIZE + level / 2 * 4) 71.

(** *** What the carving leaves behind *)
(** A room: both coordinates odd, strictly inside the border. *)
Definition isRoom (width height : Z) (c : node) : bool :=
  (0 <? nx c) && (nx c <? width - 1) && (0 <? nz c) && (nz c <? height - 1) &&
  Z.odd (nx c) && Z.odd (nz c).

(** [maze[y][x] === 0] *)
Definition isOpen (maze : grid) (c : node) : bool :=
  bool_decide (cellAt maze c = Some 0%nat).

(** The cells of a [width] by [height] grid. *)
Definition gridCells (width height : nat) : list node :=
  map (fun i => (Z.of_nat (i mod width), Z.of_nat (i / width)))
      (seq 0 (height * width)).

(** An open cell that is no room: a connector that was carved. *)
Definition carvedConnector (width height : Z) (maze : grid) (c : node) : bool :=
  negb (isRoom width height c) && isOpen maze c.

Definition openRoom (width height : Z) (maze : grid) (c : node) : bool :=
  isRoom width height c && isOpen maze c.

(** An open connector lies between two open rooms. *)
Definition joinsRooms (width height : Z) (maze : grid) (c : node) : Prop :=
  exists a d, d ∈ directions /\ c = plus a (half d) /\
    isRoom width height a = true /\ isOpen maze a = true /\
    isRoom width height (plus a d) = true /\ isOpen maze (plus a d) = true.

Lemma scaled_range (r : Q) (n : Z) :
  (0 <= r)%Q -> (r < 1)%Q -> 0 < n -> 0 <= scaled r n < n.
Proof.
  intros H0 H1 Hn. unfold scaled.
  assert (inject_Z 0 < inject_Z n)%Q as Hn1 by (rewrite <- Zlt_Qlt; lia).
  change (inject_Z 0) with 0%Q in Hn1.
  split.
  - change 0 with (Qfloor 0). apply Qfloor_resp_le. nra.
  - rewrite Zlt_Qlt. eapply Qle_lt_trans; [apply Qfloor_le |]. nra.
Qed.

Lemma filter_agree (P P' : node -> bool) (l : list node) :
  (forall c, c ∈ l -> P' c = P c) -> List.filter P' l = List.filter P l.
Proof.
  induction l as [| a l IH]; intros Hag; [reflexivity |]. cbn.
  rewrite (Hag a) by apply list_elem_of_here.
  rewrite IH; [reflexivity |]. intros c Hc. apply Hag. apply list_elem_of_further. exact Hc.
Qed.

(** Turning one element of a duplicate-free list on adds one to the count. *)
Lemma filter_flip (P P' : node -> bool) (l : list node) (c0 : node) :
  NoDup l -> c0 ∈ l -> P c0 = false -> P' c0 = true ->
  (forall c, c ∈ l -> c <> c0 -> P' c = P c) ->
  length (List.filter P' l) = S (length (List.filter P l)).
Proof.
  induction l as [| a l IH]; intros Hnd Hin H0 H1 Hag.
  { by apply elem_of_nil in Hin. }
  apply NoDup_cons in Hnd as [Hnotin Hnd]. cbn.
  destruct (decide (a = c0)) as [-> | Hne].
  - rewrite H0, H1. cbn. f_equal. f_equal. apply filter_agree.
    intros c Hc. apply Hag; [apply list_elem_of_further; exact Hc |].
    intros ->. contradiction.
  - rewrite (Hag a) by (apply list_elem_of_here || exact Hne).
    apply elem_of_cons in Hin as [-> | Hin]; [congruence |].
    assert (length (List.filter P' l) = S (length (List.filter P l))) as IH'.
    { apply IH; try assumption. intros c Hc. apply Hag. apply list_elem_of_further. exact Hc. }
    destruct (P a); cbn; rewrite IH'; reflexivity.
Qed.

Lemma filter_count_le (P Q : node -> bool) (l : list node) :
  (forall c, P c = true -> Q c = true) ->
  (length (List.filter P l) <= length (List.filter Q l))%nat.
Proof.
  intros HPQ. induction l as [| a l IH]; cbn; [lia |].
  destruct (P a) eqn:HP.
  - rewrite (HPQ a HP). cbn. lia.
  - destruct (Q a); cbn; lia.
Qed.

Lemma walk_mono (maze maze' : grid) (s v : node) (n : nat) :
  (forall c, blocked maze c = false -> blocked maze' c = false) ->
  walk maze s v n -> walk maze' s v n.
Proof.
  intros Hmono Hw. induction Hw as [| u v n Hw IH Hn Hb]; [constructor |].
  econstructor; [exact IH | exact Hn | apply Hmono; exact Hb].
Qed.

(** The four directions, and what lies between a room and the next. *)
Lemma directions_cases (d : node) :
  d ∈ directions -> d = (0, -2) \/ d = (2, 0) \/ d = (0, 2) \/ d = (-2, 0).
Proof.
  unfold directions. intros Hd.
  repeat (apply elem_of_cons in Hd as [-> | Hd]); [tauto .. |].
  by apply elem_of_nil in Hd.
Qed.

Lemma odd_shape (x : Z) : Z.odd x = true -> exists k, x = 2 * k + 1.
Proof. intros Hx. apply Z.odd_spec in Hx. exact Hx. Qed.

Lemma odd_plus_two (x : Z) : Z.odd (x + 2) = Z.odd x /\ Z.odd (x + -2) = Z.odd x.
Proof.
  split.
  - rewrite Z.odd_add. cbn. apply xorb_false_r.
  - rewrite Z.odd_add. cbn. apply xorb_false_r.
Qed.

Section Carving.

Variables width height : nat.
Hypothesis width_ok : (3 <= width)%nat.
Hypothesis height_ok : (3 <= height)%nat.

Let W : Z := Z.of_nat width.
Let H : Z := Z.of_nat height.

Definition wellFormed (maze : grid) : Prop :=
  length maze = height /\ Forall (fun row => length row = width) maze.

Definition inGrid (c : node) : Prop := 0 <= nx c < W /\ 0 <= nz c < H.

Lemma cellAt_inGrid maze c :
  wellFormed maze -> inGrid c -> exists v, cellAt maze c = Some v.
Proof.
  intros [Hlen Hrows] [Hx Hz]. unfold cellAt.
  destruct (lookup_lt_is_Some_2 maze (Z.to_nat (nz c))) as [row Hrow]; [subst W H; lia |].
  rewrite Hrow. cbn. apply lookup_lt_is_Some_2.
  rewrite Forall_forall in Hrows. rewrite (Hrows row); [subst W H; lia |].
  eapply list_elem_of_lookup_2. exact Hrow.
Qed.

Lemma rowLength_wellFormed maze : wellFormed maze -> rowLength maze = width.
Proof.
  intros [Hlen Hrows]. destruct maze as [| row rest]; [cbn in Hlen; lia |].
  cbn. apply Forall_cons in Hrows as [Hr _]. exact Hr.
Qed.

(** Writing a cell of the grid. *)
Lemma setCell_inGrid maze c v :
  wellFormed maze -> inGrid c ->
  exists maze', setCell maze c v = Some maze' /\ wellFormed maze' /\
    forall c', 0 <= nx c' -> 0 <= nz c' ->
      cellAt maze' c' = if decide (c' = c) then Some v else cellAt maze c'.
Proof.
  intros [Hlen Hrows] [Hx Hz]. unfold setCell.
  destruct (Z.ltb_spec (nz c) 0) as [? | _]; [lia |].
  destruct (lookup_lt_is_Some_2 maze (Z.to_nat (nz c))) as [row Hrow]; [subst W H; lia |].
  rewrite Hrow.
  assert (length row = width) as Hrl.
  { rewrite Forall_forall in Hrows. apply Hrows.
    eapply list_elem_of_lookup_2. exact Hrow. }
  assert (jsSet row (nx c) v = <[Z.to_nat (nx c) := v]> row) as ->.
  { unfold jsSet. destruct (Z.ltb_spec (nx c) 0) as [? | _]; [lia |].
    destruct (Nat.ltb_spec (Z.to_nat (nx c)) (length row)) as [_ | ?]; [reflexivity |].
    subst W. lia. }
  eexists. split; [reflexivity |]. split.
  - split; [rewrite length_insert; exact Hlen |].
    apply Forall_insert; [exact Hrows |]. rewrite length_insert. exact Hrl.
  - intros c' Hx' Hz'. unfold cellAt.
    destruct (decide (c' = c)) as [-> | Hne].
    + rewrite list_lookup_insert_eq by (subst H; lia). cbn.
      apply list_lookup_insert_eq. subst W. lia.
    + destruct (decide (Z.to_nat (nz c) = Z.to_nat (nz c'))) as [Heq | Hnz].
      * rewrite <- Heq. rewrite list_lookup_insert_eq by (subst H; lia).
        rewrite Hrow. cbn. apply list_lookup_insert_ne.
        intros Hxx. apply Hne. destruct c, c'. unfold nx, nz in *. cbn in *.
        f_equal; lia.
      * rewrite list_lookup_insert_ne by exact Hnz. reflexivity.
Qed.

Lemma blocked_false maze c :
  wellFormed maze ->
  blocked maze c = false <-> inGrid c /\ cellAt maze c <> Some 1%nat.
Proof.
  intros Hwf. unfold blocked. rewrite (rowLength_wellFormed maze Hwf).
  destruct Hwf as [Hlen _]. rewrite Hlen. unfold inGrid. subst W H.
  rewrite !orb_false_iff, !Z.ltb_ge, !Z.leb_gt.
  split.
  - intros ((((? & ?) & ?) & ?) & Hc). split; [lia |].
    intros Heq. rewrite Heq in Hc. discriminate.
  - intros [? Hc]. repeat split; try lia.
    destruct (cellAt maze c) as [[| [| n]] |]; try reflexivity. congruence.
Qed.

Lemma gridCells_spec (c : node) :
  c ∈ gridCells width height <-> inGrid c.
Proof.
  unfold gridCells, inGrid. subst W H. rewrite list_elem_of_fmap. split.
  - intros (i & -> & Hi). apply list_elem_of_In, in_seq in Hi. cbn [nx nz fst snd].
    pose proof (Nat.mod_upper_bound i width ltac:(lia)).
    assert (i / width < height)%nat by (apply Nat.Div0.div_lt_upper_bound; lia).
    lia.
  - intros [Hx Hz]. destruct c as [x z]. cbn [nx nz fst snd] in *.
    exists (Z.to_nat z * width + Z.to_nat x)%nat. split.
    + rewrite Nat.add_comm, Nat.Div0.mod_add, Nat.div_add by lia.
      rewrite Nat.mod_small, Nat.div_small by lia. f_equal; lia.
    + apply list_elem_of_In, in_seq. nia.
Qed.

Lemma gridCells_NoDup : NoDup (gridCells width height).
Proof.
  unfold gridCells. apply NoDup_fmap_2_strong; [| apply NoDup_seq].
  intros i j _ _ [= Hm Hd].
  rewrite (Nat.div_mod_eq i width), (Nat.div_mod_eq j width). lia.
Qed.


Lemma isRoom_inGrid c : isRoom W H c = true -> inGrid c.
Proof.
  unfold isRoom, inGrid. rewrite !andb_true_iff, !Z.ltb_lt. lia.
Qed.

Lemma isRoom_parts c :
  isRoom W H c = true <->
  (0 < nx c < W - 1 /\ 0 < nz c < H - 1) /\ Z.odd (nx c) = true /\ Z.odd (nz c) = true.
Proof. unfold isRoom. rewrite !andb_true_iff, !Z.ltb_lt. tauto. Qed.

(** The loop invariant of the carving. *)
Record MInv (maze : grid) (stack : list node) : Prop := mkMInv {
  m_wf : wellFormed maze;
  m_bin : forall c, inGrid c ->
    cellAt maze c = Some 0%nat \/ cellAt maze c = Some 1%nat;
  m_form : forall c, inGrid c -> isOpen maze c = true ->
    isRoom W H c = true \/ joinsRooms W H maze c;
  m_start : isOpen maze (1, 1) = true;
  m_stack : forall c, c ∈ stack -> isRoom W H c = true /\ isOpen maze c = true;
  m_conn : forall c, isRoom W H c = true -> isOpen maze c = true ->
    connected maze (1, 1) c;
  m_done : forall c d, isRoom W H c = true -> isOpen maze c = true ->
    c ∉ stack -> d ∈ directions -> isRoom W H (plus c d) = true ->
    isOpen maze (plus c d) = true;
  m_count :
    length (List.filter (openRoom W H maze) (gridCells width height))
    = S (length (List.filter (carvedConnector W H maze) (gridCells width height)))
}.

(** Leaving a room whose neighbours are all open. *)
Lemma pop_inv maze cell below :
  MInv maze (cell :: below) -> wallNeighbours W H maze cell = [] -> MInv maze below.
Proof.
  intros [] Hnone. split; try assumption.
  - intros c Hc. apply m_stack0. apply list_elem_of_further. exact Hc.
  - intros c d Hroom Hopen Hnot Hd Hnext.
    destruct (decide (c = cell)) as [-> | Hne].
    + assert ((plus cell d, d) ∈ map (fun dir => (plus cell dir, dir)) directions) as Hin.
      { apply list_elem_of_In.
        apply (in_map (fun dir => (plus cell dir, dir)) directions d).
        apply list_elem_of_In. exact Hd. }
      destruct (carvable W H maze (plus cell d)) eqn:Hcarv.
      * exfalso. assert ((plus cell d, d) ∈ wallNeighbours W H maze cell) as Hbad.
        { unfold wallNeighbours. apply list_elem_of_In, filter_In.
          split; [apply list_elem_of_In; exact Hin | exact Hcarv]. }
        rewrite Hnone in Hbad. by apply elem_of_nil in Hbad.
      * apply isRoom_parts in Hnext as Hparts. destruct Hparts as ((Hx & Hz) & _).
        unfold carvable in Hcarv.
        rewrite (proj2 (Z.ltb_lt _ _) (proj1 Hx)), (proj2 (Z.ltb_lt _ _) (proj2 Hx)),
          (proj2 (Z.ltb_lt _ _) (proj1 Hz)), (proj2 (Z.ltb_lt _ _) (proj2 Hz)) in Hcarv.
        cbn in Hcarv. apply bool_decide_eq_false in Hcarv.
        unfold isOpen. apply bool_decide_eq_true.
        destruct (m_bin0 (plus cell d) (isRoom_inGrid _ Hnext)) as [H0 | H1];
          [exact H0 | contradiction].
    + apply (m_done0 c d); try assumption.
      intros Hin. apply elem_of_cons in Hin as [-> | Hin]; contradiction.
Qed.


Lemma room_next maze cell dir :
  isRoom W H cell = true -> dir ∈ directions ->
  carvable W H maze (plus cell dir) = true ->
  isRoom W H (plus cell dir) = true /\ cellAt maze (plus cell dir) = Some 1%nat.
Proof.
  intros Hc Hd Hcarv. unfold carvable in Hcarv.
  rewrite !andb_true_iff, !Z.ltb_lt, bool_decide_eq_true in Hcarv.
  destruct Hcarv as ((((? & ?) & ?) & ?) & Hwall). split; [| exact Hwall].
  apply isRoom_parts in Hc as (_ & Hox & Hoz). apply isRoom_parts.
  split; [lia |].
  destruct cell as [cx cz]. cbn [nx nz fst snd] in *.
  destruct (directions_cases dir Hd) as [-> | [-> | [-> | ->]]];
    unfold plus; cbn [nx nz fst snd]; rewrite ?Z.add_0_r;
    rewrite ?(proj1 (odd_plus_two _)), ?(proj2 (odd_plus_two _)); tauto.
Qed.

Lemma between_geometry cell dir :
  isRoom W H cell = true -> dir ∈ directions -> isRoom W H (plus cell dir) = true ->
  inGrid (plus cell (half dir)) /\ isRoom W H (plus cell (half dir)) = false /\
  plus cell (half dir) <> plus cell dir /\
  plus cell (half dir) ∈ neighbours cell /\
  plus cell dir ∈ neighbours (plus cell (half dir)).
Proof.
  intros Hc Hd Hn.
  apply isRoom_parts in Hc as (Hrc & Hox & Hoz).
  apply isRoom_parts in Hn as (Hrn & _).
  destruct cell as [cx cz]. cbn [nx nz fst snd] in *.
  assert (forall x, Z.odd x = true -> Z.odd (x + 1) = false /\ Z.odd (x + -1) = false)
    as Hevn.
  { intros x Hx. rewrite !Z.odd_add, Hx. split; reflexivity. }
  destruct (Hevn cx Hox) as [Hx1 Hx2]. destruct (Hevn cz Hoz) as [Hz1 Hz2].
  destruct (directions_cases dir Hd) as [-> | [-> | [-> | ->]]];
    unfold plus, half, inGrid, neighbours, isRoom in *; cbn [nx nz fst snd] in *;
    change (0 / 2) with 0; change (2 / 2) with 1; change (-2 / 2) with (-1);
    rewrite ?Z.add_0_r in *;
    (split; [lia |]); (split; [rewrite ?Hx1, ?Hx2, ?Hz1, ?Hz2, ?andb_false_r; reflexivity |]);
    (split; [intros [=]; lia |]); split.
  all: rewrite ?Z.add_0_r; replace (cz + -2) with (cz + -1 - 1) by lia;
    replace (cx + -2) with (cx + -1 - 1) by lia;
    replace (cz + 2) with (cz + 1 + 1) by lia;
    replace (cx + 2) with (cx + 1 + 1) by lia;
    replace (cz + -1) with (cz - 1) by lia; replace (cx + -1) with (cx - 1) by lia;
    set_solver.
Qed.


(** A connector lies between exactly one pair of rooms. *)
Lemma between_unique cell dir a d :
  isRoom W H cell = true -> dir ∈ directions ->
  isRoom W H a = true -> d ∈ directions ->
  plus cell (half dir) = plus a (half d) ->
  (a = cell /\ plus a d = plus cell dir) \/ (a = plus cell dir /\ plus a d = cell).
Proof.
  intros Hc Hdir Ha Hd Heq.
  apply isRoom_parts in Hc as (_ & Hcx & Hcz).
  apply isRoom_parts in Ha as (_ & Hax & Haz).
  destruct cell as [cx cz], a as [ax az]. cbn [nx nz fst snd] in *.
  apply odd_shape in Hcx as [k1 ->], Hcz as [k2 ->], Hax as [k3 ->], Haz as [k4 ->].
  destruct (directions_cases dir Hdir) as [-> | [-> | [-> | ->]]];
    destruct (directions_cases d Hd) as [-> | [-> | [-> | ->]]];
    unfold plus, half in *; cbn [nx nz fst snd] in *;
    change (0 / 2) with 0 in *; change (2 / 2) with 1 in *;
    change (-2 / 2) with (-1) in *;
    injection Heq as Hx Hz;
    try (exfalso; lia);
    ((left; split; f_equal; lia) || (right; split; f_equal; lia)).
Qed.

Lemma isOpen_true maze c : isOpen maze c = true <-> cellAt maze c = Some 0%nat.
Proof. unfold isOpen. apply bool_decide_eq_true. Qed.

(** Opening the next room and the connector towards it. *)
Lemma carve_inv maze cell below chosen dir :
  MInv maze (cell :: below) -> (chosen, dir) ∈ wallNeighbours W H maze cell ->
  exists maze1 maze2,
    setCell maze chosen 0 = Some maze1 /\
    setCell maze1 (plus cell (half dir)) 0 = Some maze2 /\
    MInv maze2 (chosen :: cell :: below) /\
    length (List.filter (openRoom W H maze2) (gridCells width height))
    = S (length (List.filter (openRoom W H maze) (gridCells width height))).
Proof.
  intros HI Hin.
  unfold wallNeighbours in Hin. apply list_elem_of_In, filter_In in Hin as [Hin Hcarv].
  apply in_map_iff in Hin as (d0 & [= <- <-] & Hdir). apply list_elem_of_In in Hdir.
  cbn [fst] in Hcarv.
  destruct (m_stack _ _ HI cell (list_elem_of_here _ _)) as [Hcell Hcello].
  destruct (room_next maze cell d0 Hcell Hdir Hcarv) as [Hchosen Hwall].
  destruct (between_geometry cell d0 Hcell Hdir Hchosen) as (Hmg & Hmr & Hmne & Hmn & Hcn).
  set (chosen := plus cell d0) in *. set (mid := plus cell (half d0)) in *.
  pose proof (isRoom_inGrid _ Hchosen) as Hcg.
  assert (cellAt maze mid = Some 1%nat) as Hmidwall.
  { destruct (m_bin _ _ HI mid Hmg) as [H0 | H1]; [exfalso | exact H1].
    destruct (m_form _ _ HI mid Hmg (proj2 (isOpen_true _ _) H0)) as [Hr | Hj];
      [congruence |].
    destruct Hj as (a & d & Hd & Hmid & Har & Hao & Hbr & Hbo).
    apply isOpen_true in Hao, Hbo.
    destruct (between_unique cell d0 a d Hcell Hdir Har Hd Hmid) as [[-> Hb] | [Ha _]].
    - rewrite Hb in Hbo. fold chosen in Hbo. congruence.
    - fold chosen in Ha. subst a. congruence. }
  destruct (setCell_inGrid maze chosen 0%nat (m_wf _ _ HI) Hcg) as (maze1 & Hs1 & Hwf1 & Hc1).
  destruct (setCell_inGrid maze1 mid 0%nat Hwf1 Hmg) as (maze2 & Hs2 & Hwf2 & Hc2).
  exists maze1, maze2. split; [exact Hs1 |]. split; [exact Hs2 |].
  assert (forall c, inGrid c ->
            cellAt maze2 c = if decide (c = mid) then Some 0%nat
                             else if decide (c = chosen) then Some 0%nat
                             else cellAt maze c) as Hcell2.
  { intros c [Hx Hz]. rewrite Hc2 by lia. destruct (decide (c = mid)); [reflexivity |].
    apply Hc1; lia. }
  assert (forall c, inGrid c -> isOpen maze c = true -> isOpen maze2 c = true) as Hmono.
  { intros c Hc Ho. apply isOpen_true. apply isOpen_true in Ho. rewrite Hcell2 by exact Hc.
    repeat destruct (decide _); auto. }
  assert (forall c, inGrid c -> isOpen maze2 c = true ->
            c = mid \/ c = chosen \/ isOpen maze c = true) as Hinv.
  { intros c Hc Ho. apply isOpen_true in Ho. rewrite Hcell2 in Ho by exact Hc.
    destruct (decide (c = mid)); [tauto |]. destruct (decide (c = chosen)); [tauto |].
    right. right. apply isOpen_true. exact Ho. }
  assert (forall c, blocked maze c = false -> blocked maze2 c = false) as Hbl.
  { intros c Hb. apply (blocked_false maze c (m_wf _ _ HI)) in Hb as [Hc Hne].
    apply (blocked_false maze2 c Hwf2). split; [exact Hc |].
    rewrite Hcell2 by exact Hc. repeat destruct (decide _); congruence. }
  assert (isOpen maze2 mid = true /\ isOpen maze2 chosen = true) as [Hmo Hco].
  { split; apply isOpen_true; rewrite Hcell2 by assumption.
    - rewrite decide_True by reflexivity. reflexivity.
    - destruct (decide (chosen = mid)); [reflexivity |].
      rewrite decide_True by reflexivity. reflexivity. }
  assert (isOpen maze chosen = false /\ isOpen maze mid = false) as [Hcw Hmw].
  { split; apply bool_decide_eq_false; congruence. }
  split.
  - split.
    + exact Hwf2.
    + intros c Hc. rewrite Hcell2 by exact Hc.
      repeat destruct (decide _); auto. apply (m_bin _ _ HI c Hc).
    + intros c Hc Ho. destruct (Hinv c Hc Ho) as [-> | [-> | Hold]].
      * right. exists cell, d0. split; [exact Hdir |]. split; [reflexivity |].
        split; [exact Hcell |]. split; [| split; [exact Hchosen | exact Hco]].
        apply Hmono; [apply isRoom_inGrid; exact Hcell | exact Hcello].
      * left. exact Hchosen.
      * destruct (m_form _ _ HI c Hc Hold) as [Hr | (a & d & Hd & -> & Har & Hao & Hbr & Hbo)];
          [left; exact Hr |].
        right. exists a, d. split; [exact Hd |]. split; [reflexivity |].
        split; [exact Har |]. split; [| split; [exact Hbr |]];
          apply Hmono; auto using isRoom_inGrid.
    + apply Hmono; [| apply (m_start _ _ HI)].
      unfold inGrid, W, H. cbn. lia.
    + intros c Hc. apply elem_of_cons in Hc as [-> | Hc]; [split; assumption |].
      destruct (m_stack _ _ HI c Hc) as [Hr Ho]. split; [exact Hr |].
      apply Hmono; auto using isRoom_inGrid.
    + intros c Hr Ho. destruct (Hinv c (isRoom_inGrid _ Hr) Ho) as [-> | [-> | Hold]].
      * congruence.
      * destruct (m_conn _ _ HI cell Hcell Hcello) as [n Hw].
        exists (S (S n)).
        apply (walk_step maze2 (1, 1) mid chosen (S n));
          [apply (walk_step maze2 (1, 1) cell mid n) | exact Hcn |].
        -- apply (walk_mono maze maze2); [exact Hbl | exact Hw].
        -- exact Hmn.
        -- apply (blocked_false maze2 mid Hwf2). split; [exact Hmg |].
           apply isOpen_true in Hmo. congruence.
        -- apply (blocked_false maze2 chosen Hwf2). split; [exact Hcg |].
           apply isOpen_true in Hco. congruence.
      * destruct (m_conn _ _ HI c Hr Hold) as [n Hw]. exists n.
        apply (walk_mono maze maze2); [exact Hbl | exact Hw].
    + intros c d Hr Ho Hnot Hd Hnext.
      assert (c <> chosen) as Hnc by (intros ->; apply Hnot; apply list_elem_of_here).
      destruct (Hinv c (isRoom_inGrid _ Hr) Ho) as [-> | [-> | Hold]]; [congruence.. |].
      apply Hmono; [apply isRoom_inGrid; exact Hnext |].
      apply (m_done _ _ HI c d); try assumption.
      intros Hcin. apply Hnot. apply list_elem_of_further. exact Hcin.
    + rewrite (filter_flip (openRoom W H maze) (openRoom W H maze2) _ chosen).
      * rewrite (filter_flip (carvedConnector W H maze) (carvedConnector W H maze2) _ mid).
        -- f_equal. apply (m_count _ _ HI).
        -- apply gridCells_NoDup.
        -- apply gridCells_spec. exact Hmg.
        -- unfold carvedConnector. rewrite Hmw. apply andb_false_r.
        -- unfold carvedConnector. rewrite Hmr, Hmo. reflexivity.
        -- intros c Hc Hne. apply gridCells_spec in Hc. unfold carvedConnector.
           destruct (decide (c = chosen)) as [-> | Hnc]; [rewrite Hchosen; reflexivity |].
           f_equal. unfold isOpen. rewrite Hcell2 by exact Hc.
           rewrite decide_False by exact Hne. rewrite decide_False by exact Hnc. reflexivity.
      * apply gridCells_NoDup.
      * apply gridCells_spec. exact Hcg.
      * unfold openRoom. rewrite Hcw. apply andb_false_r.
      * unfold openRoom. rewrite Hchosen, Hco. reflexivity.
      * intros c Hc Hne. apply gridCells_spec in Hc. unfold openRoom.
        destruct (decide (c = mid)) as [-> | Hnm]; [rewrite Hmr; reflexivity |].
        f_equal. unfold isOpen. rewrite Hcell2 by exact Hc.
        rewrite decide_False by exact Hnm. rewrite decide_False by exact Hne. reflexivity.
  - apply (filter_flip (openRoom W H maze) (openRoom W H maze2) _ chosen).
    + apply gridCells_NoDup.
    + apply gridCells_spec. exact Hcg.
    + unfold openRoom. rewrite Hcw. apply andb_false_r.
    + unfold openRoom. rewrite Hchosen, Hco. reflexivity.
    + intros c Hc Hne. apply gridCells_spec in Hc. unfold openRoom.
      destruct (decide (c = mid)) as [-> | Hnm]; [rewrite Hmr; reflexivity |].
      f_equal. unfold isOpen. rewrite Hcell2 by exact Hc.
      rewrite decide_False by exact Hnm. rewrite decide_False by exact Hne. reflexivity.
Qed.


Definition roomCount : nat :=
  length (List.filter (isRoom W H) (gridCells width height)).
Definition openRoomCount (maze : grid) : nat :=
  length (List.filter (openRoom W H maze) (gridCells width height)).

Lemma openRoomCount_le maze : (openRoomCount maze <= roomCount)%nat.
Proof.
  apply filter_count_le. intros c Hc. unfold openRoom in Hc.
  apply andb_prop in Hc as [Hr _]. exact Hr.
Qed.

Variable rng : random.
Hypothesis rng_unit : forall k, (0 <= rng k)%Q /\ (rng k < 1)%Q.

(** With fuel above twice the walls still to open plus the stack, the
    loop ends, with the invariant and an empty stack. *)
Lemma carveLoop_spec (fuel : nat) :
  forall maze stack k,
    MInv maze stack ->
    (2 * (roomCount - openRoomCount maze) + length stack < fuel)%nat ->
    exists maze' k', carveLoop fuel W H rng maze stack k = Some (maze', k') /\
                     MInv maze' [].
Proof.
  induction fuel as [| fuel IH]; intros maze stack k HI Hfuel; [lia |].
  cbn [carveLoop]. destruct stack as [| cell below]; [eauto |].
  destruct (wallNeighbours W H maze cell) as [| p ps] eqn:Hnb.
  - apply IH; [apply (pop_inv maze cell below HI Hnb) |]. cbn [length] in Hfuel. lia.
  - set (nbs := p :: ps) in *.
    destruct (scaled_range (rng k) (Z.of_nat (length nbs))) as [Hlo Hhi];
      [apply rng_unit | apply rng_unit | cbn; lia |].
    destruct (lookup_lt_is_Some_2 nbs (Z.to_nat (scaled (rng k) (Z.of_nat (length nbs)))))
      as [[chosen dir] Hpick]; [lia |].
    rewrite Hpick.
    assert ((chosen, dir) ∈ wallNeighbours W H maze cell) as Hin.
    { rewrite Hnb. eapply list_elem_of_lookup_2. exact Hpick. }
    destruct (carve_inv maze cell below chosen dir HI Hin)
      as (maze1 & maze2 & Hs1 & Hs2 & HI2 & Hcount).
    rewrite Hs1, Hs2. apply IH; [exact HI2 |].
    fold (openRoomCount maze2) in Hcount. fold (openRoomCount maze) in Hcount.
    pose proof (openRoomCount_le maze2). cbn [length] in *. lia.
Qed.

Definition allWalls : grid := replicate height (replicate width 1%nat).

Lemma allWalls_wellFormed : wellFormed allWalls.
Proof.
  unfold allWalls. split; [apply length_replicate |].
  apply Forall_replicate. apply length_replicate.
Qed.

Lemma allWalls_cell c : inGrid c -> cellAt allWalls c = Some 1%nat.
Proof.
  intros [Hx Hz]. unfold cellAt, allWalls.
  rewrite lookup_replicate_2 by (subst H; lia). cbn.
  apply lookup_replicate_2. subst W. lia.
Qed.

Lemma filter_none (P : node -> bool) (l : list node) :
  (forall c, c ∈ l -> P c = false) -> List.filter P l = [].
Proof.
  induction l as [| a l IH]; intros Hall; [reflexivity |]. cbn.
  rewrite (Hall a) by apply list_elem_of_here. apply IH.
  intros c Hc. apply Hall. apply list_elem_of_further. exact Hc.
Qed.

(** The state in which the loop is entered. *)
Lemma first_room :
  exists maze, setCell allWalls (1, 1) 0 = Some maze /\ MInv maze [(1, 1)] /\
               openRoomCount maze = 1%nat.
Proof.
  assert (inGrid (1, 1)) as Hg by (unfold inGrid; subst W H; cbn; lia).
  assert (isRoom W H (1, 1) = true) as Hroom.
  { apply isRoom_parts. unfold W, H. cbn. repeat split; lia. }
  destruct (setCell_inGrid allWalls (1, 1) 0%nat allWalls_wellFormed Hg)
    as (maze & Hs & Hwf & Hcell).
  assert (forall c, inGrid c ->
            cellAt maze c = if decide (c = (1, 1)) then Some 0%nat else Some 1%nat)
    as Hcells.
  { intros c Hc. destruct Hc as [Hx Hz]. rewrite Hcell by lia.
    destruct (decide _); [reflexivity |]. apply allWalls_cell. split; assumption. }
  assert (forall c, inGrid c -> isOpen maze c = true -> c = (1, 1)) as Honly.
  { intros c Hc Ho. apply isOpen_true in Ho. rewrite (Hcells c Hc) in Ho.
    destruct (decide _); [assumption | discriminate]. }
  assert (isOpen maze (1, 1) = true) as Hopen.
  { apply isOpen_true. rewrite (Hcells _ Hg). rewrite decide_True by reflexivity.
    reflexivity. }
  assert (openRoomCount maze = 1%nat) as Hcount.
  { unfold openRoomCount.
    rewrite (filter_flip (fun _ => false) (openRoom W H maze) _ (1, 1)).
    - rewrite filter_none by reflexivity. reflexivity.
    - apply gridCells_NoDup.
    - apply gridCells_spec. exact Hg.
    - reflexivity.
    - unfold openRoom. rewrite Hroom, Hopen. reflexivity.
    - intros c Hc Hne. apply gridCells_spec in Hc. unfold openRoom.
      destruct (isOpen maze c) eqn:Ho; [| apply andb_false_r].
      exfalso. apply Hne. apply Honly; assumption. }
  exists maze. split; [exact Hs |]. split; [| exact Hcount]. split.
  - exact Hwf.
  - intros c Hc. rewrite (Hcells c Hc). destruct (decide _); auto.
  - intros c Hc Ho. left. rewrite (Honly c Hc Ho). exact Hroom.
  - exact Hopen.
  - intros c Hc. apply list_elem_of_singleton in Hc as ->. split; assumption.
  - intros c Hr Ho. rewrite (Honly c (isRoom_inGrid _ Hr) Ho). exists 0%nat. constructor.
  - intros c d Hr Ho Hnot. exfalso. apply Hnot.
    rewrite (Honly c (isRoom_inGrid _ Hr) Ho). apply list_elem_of_here.
  - fold (openRoomCount maze). rewrite Hcount. f_equal. symmetry.
    rewrite filter_none; [reflexivity |].
    intros c Hc. apply gridCells_spec in Hc. unfold carvedConnector.
    destruct (isOpen maze c) eqn:Ho; [| apply andb_false_r].
    rewrite (Honly c Hc Ho), Hroom. reflexivity.
Qed.

(** When the stack is empty every room has been opened. *)
Lemma all_rooms_open maze :
  MInv maze [] -> forall c, isRoom W H c = true -> isOpen maze c = true.
Proof.
  intros HI c. remember (Z.to_nat (nx c + nz c)) as m eqn:Hm. revert c Hm.
  induction (lt_wf m) as [m _ IH]. intros [x z] Hm Hr.
  apply isRoom_parts in Hr as Hparts. cbn [nx nz fst snd] in *.
  destruct Hparts as ((Hx & Hz) & Hox & Hoz).
  apply odd_shape in Hox as Hkx. destruct Hkx as [kx Hkx].
  apply odd_shape in Hoz as Hkz. destruct Hkz as [kz Hkz].
  destruct (decide (x = 1)) as [-> | Hx1].
  - destruct (decide (z = 1)) as [-> | Hz1]; [apply (m_start _ _ HI) |].
    assert (isRoom W H (1, z - 2) = true) as Hprev.
    { apply isRoom_parts. cbn [nx nz fst snd]. split; [lia |]. split; [reflexivity |].
      replace (z - 2) with (z + -2) by lia. rewrite (proj2 (odd_plus_two z)). exact Hoz. }
    replace (1, z) with (plus (1, z - 2) (0, 2))
      by (unfold plus; cbn [nx nz fst snd]; f_equal; lia).
    apply (m_done _ _ HI); [exact Hprev | | apply not_elem_of_nil | set_solver |].
    + apply (IH (Z.to_nat (1 + (z - 2)))); [lia | reflexivity | exact Hprev].
    + unfold plus. cbn [nx nz fst snd]. replace (z - 2 + 2) with z by lia.
      replace (1 + 0) with 1 by lia. exact Hr.
  - assert (isRoom W H (x - 2, z) = true) as Hprev.
    { apply isRoom_parts. cbn [nx nz fst snd]. split; [lia |]. split; [| exact Hoz].
      replace (x - 2) with (x + -2) by lia. rewrite (proj2 (odd_plus_two x)). exact Hox. }
    replace (x, z) with (plus (x - 2, z) (2, 0))
      by (unfold plus; cbn [nx nz fst snd]; f_equal; lia).
    apply (m_done _ _ HI); [exact Hprev | | apply not_elem_of_nil | set_solver |].
    + apply (IH (Z.to_nat (x - 2 + z))); [lia | reflexivity | exact Hprev].
    + unfold plus. cbn [nx nz fst snd]. replace (x - 2 + 2) with x by lia.
      replace (z + 0) with z by lia. exact Hr.
Qed.


Lemma offset_range (r : Q) (n : Z) :
  (0 <= r)%Q -> (r < 1)%Q -> 3 <= n -> 0 <= 2 + scaled r (n - 4) < n.
Proof.
  intros H0 H1 Hn. destruct (Z_lt_le_dec 0 (n - 4)) as [Hpos | Hsmall].
  - pose proof (scaled_range r (n - 4) H0 H1 Hpos). lia.
  - assert (-1 <= scaled r (n - 4) <= 0); [| lia]. unfold scaled.
    assert (inject_Z (-1) <= inject_Z (n - 4))%Q as Hlo by (rewrite <- Zle_Qle; lia).
    assert (inject_Z (n - 4) <= inject_Z 0)%Q as Hhi by (rewrite <- Zle_Qle; lia).
    change (inject_Z 0) with 0%Q in Hhi. change (inject_Z (-1)) with (-1)%Q in Hlo.
    split.
    + change (-1) with (Qfloor (-1)). apply Qfloor_resp_le. nra.
    + change 0 with (Qfloor 0). apply Qfloor_resp_le. nra.
Qed.

(** The extra openings stay inside the grid. *)
Lemma punch_wellFormed (n : nat) :
  forall maze k, wellFormed maze ->
    exists maze', punch n W H rng maze k = Some maze' /\ wellFormed maze'.
Proof.
  induction n as [| n IH]; intros maze k Hwf; [cbn; eauto |].
  cbn [punch].
  set (x := 2 + scaled (rng k) (W - 4)). set (y := 2 + scaled (rng (S k)) (H - 4)).
  assert (inGrid (x, y)) as Hg.
  { split; cbn [nx nz fst snd]; apply offset_range;
      try apply rng_unit; unfold W, H; lia. }
  assert (forall (b : bool) m, wellFormed m ->
            exists m', (if b then setCell m (x, y) 0 else Some m) = Some m' /\
                       wellFormed m') as Hstep.
  { intros b m Hm. destruct b; [| eauto].
    destruct (setCell_inGrid m (x, y) 0%nat Hm Hg) as (m' & Hs & Hm' & _). eauto. }
  destruct (Hstep ((Z.rem x 2 =? 0) && (Z.rem y 2 =? 1)) maze Hwf) as (m1 & -> & Hwf1).
  destruct (Hstep ((Z.rem x 2 =? 1) && (Z.rem y 2 =? 0)) m1 Hwf1) as (m2 & -> & Hwf2).
  apply IH. exact Hwf2.
Qed.

Lemma roomCount_le : (roomCount <= height * width)%nat.
Proof.
  unfold roomCount. etransitivity; [apply List.filter_length_le |].
  unfold gridCells. rewrite length_map, length_seq. lia.
Qed.

(** The carving phase as a whole. *)
Lemma carve_spec :
  exists maze k, carve width height rng = Some (maze, k) /\ MInv maze [].
Proof.
  destruct first_room as (maze1 & Hs & HI & Hcount).
  unfold carve. fold allWalls. rewrite Hs.
  apply carveLoop_spec; [exact HI |]. rewrite Hcount. pose proof roomCount_le.
  cbn [length]. nia.
Qed.

End Carving.

(** A connected cell has a breadth-first distance. *)
Lemma connected_bfsDistance (maze : grid) (start goal : node) :
  connected maze start goal -> exists d, bfsDistance maze start goal = Some d.
Proof.
  intros [n Hw]. pose proof (findPath_spec maze start goal) as Hspec.
  destruct (findPath maze start goal) as [p | |]; [| | contradiction].
  - destruct Hspec as (g & Hg & Hmin & Hle & _). exists g.
    apply bfsDistance_shortest; assumption.
  - exfalso. exact (Hspec n Hw).
Qed.

(** C4: for sizes from 3 on and random numbers in [0, 1), the carving
    loop ends; in the maze it leaves (before the extra openings) every
    room is open and reached by the breadth-first search from room
    (1, 1), the open cells that are no rooms are one fewer than the
    rooms, and each of them joins two open rooms next to each other. *)
Theorem carve_spanning_tree (width height : nat) (rng : random) :
  (3 <= width)%nat -> (3 <= height)%nat ->
  (forall k, (0 <= rng k)%Q /\ (rng k < 1)%Q) ->
  exists maze k, carve width height rng = Some (maze, k) /\
    length maze = height /\ Forall (fun row => length row = width) maze /\
    (forall c, isRoom (Z.of_nat width) (Z.of_nat height) c = true ->
       cellAt maze c = Some 0%nat /\ exists d, bfsDistance maze (1, 1) c = Some d) /\
    S (length (List.filter (carvedConnector (Z.of_nat width) (Z.of_nat height) maze)
                           (gridCells width height)))
    = length (List.filter (isRoom (Z.of_nat width) (Z.of_nat height))
                          (gridCells width height)) /\
    (forall c, c ∈ gridCells width height -> cellAt maze c = Some 0%nat ->
       isRoom (Z.of_nat width) (Z.of_nat height) c = true \/
       joinsRooms (Z.of_nat width) (Z.of_nat height) maze c).
Proof.
  intros Hw Hh Hrng.
  destruct (carve_spec width height Hw Hh rng Hrng) as (maze & k & Hc & HI).
  pose proof (all_rooms_open width height Hw Hh rng Hrng maze HI) as Hall.
  exists maze, k. split; [exact Hc |].
  destruct (m_wf _ _ _ _ HI) as [Hlen Hrows].
  split; [exact Hlen |]. split; [exact Hrows |]. split; [| split].
  - intros c Hr. split; [apply isOpen_true, Hall; exact Hr |].
    apply connected_bfsDistance. apply (m_conn _ _ _ _ HI c Hr). apply Hall. exact Hr.
  - rewrite <- (m_count _ _ _ _ HI). f_equal. apply filter_agree.
    intros c _. unfold openRoom.
    destruct (isRoom (Z.of_nat width) (Z.of_nat height) c) eqn:Hr; [| reflexivity].
    rewrite (Hall c Hr). reflexivity.
  - intros c Hcell Ho. apply (m_form _ _ _ _ HI c).
    + apply gridCells_spec; assumption.
    + apply isOpen_true. exact Ho.
Qed.

Lemma carve_spanning_tree_witness :
  exists maze k, carve 5 5 (fun _ => 0%Q) = Some (maze, k) /\
    forall c, isRoom 5 5 c = true ->
      cellAt maze c = Some 0%nat /\ exists d, bfsDistance maze (1, 1) c = Some d.
Proof.
  destruct (carve_spanning_tree 5 5 (fun _ => 0%Q) ltac:(lia) ltac:(lia))
    as (maze & k & Hc & _ & _ & Hrooms & _).
  - intros _. split; [apply Qle_refl | reflexivity].
  - exists maze, k. split; [exact Hc | exact Hrooms].
Defined.


Lemma mazeSize_odd_bounded (level : Z) :
  0 <= level -> Z.odd (mazeSize level) = true /\ 31 <= mazeSize level <= 71.
Proof.
  intros Hl. unfold mazeSize, INITIAL_MAZE_SIZE.
  assert (0 <= level / 2) as Hd by (apply Z.div_pos; lia).
  split; [| lia].
  destruct (Z.min_spec (31 + level / 2 * 4) 71) as [[_ ->] | [_ ->]]; [| reflexivity].
  rewrite Z.odd_add, Z.odd_mul. cbn. rewrite andb_false_r. reflexivity.
Qed.

(** C5 (as the code has it): [#generateMaze] does not test its
    dimensions.  For every width and height from 3 on, of any parity,
    it returns a grid of that size and raises nothing; a malformed size
    is kept out by the caller alone: [#createLevel] asks for
    [min(31 + 4 * floor(level / 2), 71)], which is odd and between 31
    and 71 at every level. *)
Theorem generateMaze_unchecked (width height : nat) (rng : random) (level : Z) :
  (3 <= width)%nat -> (3 <= height)%nat ->
  (forall k, (0 <= rng k)%Q /\ (rng k < 1)%Q) -> 0 <= level ->
  (exists maze, generateMaze width height rng = Some maze /\
     length maze = height /\ Forall (fun row => length row = width) maze) /\
  Z.odd (mazeSize level) = true /\ 31 <= mazeSize level <= 71.
Proof.
  intros Hw Hh Hrng Hl. split; [| apply mazeSize_odd_bounded; exact Hl].
  destruct (carve_spec width height Hw Hh rng Hrng) as (maze & k & Hc & HI).
  unfold generateMaze. rewrite Hc.
  destruct (punch_wellFormed width height Hw Hh rng Hrng
              (randomOpenings width height) maze k (m_wf _ _ _ _ HI))
    as (maze' & Hp & Hlen & Hrows).
  exists maze'. split; [exact Hp |]. split; assumption.
Qed.

Lemma generateMaze_unchecked_witness :
  (exists maze, generateMaze 4 6 (fun _ => 0%Q) = Some maze /\
     length maze = 6%nat /\ Forall (fun row => length row = 4%nat) maze) /\
  Z.odd (mazeSize 19) = true /\ 31 <= mazeSize 19 <= 71.
Proof.
  apply (generateMaze_unchecked 4 6 (fun _ => 0%Q) 19); try lia.
  intros _. split; [apply Qle_refl | reflexivity].
Defined.

(** C5 fails as stated: an even size below 5 is accepted and a grid is
    returned (of which only room (1, 1) is open); so is a 6 by 5 one. *)
Lemma generateMaze_accepts_even :
  generateMaze 4 4 (fun _ => 0%Q)
    = Some [[1; 1; 1; 1]; [1; 0; 1; 1]; [1; 1; 1; 1]; [1; 1; 1; 1]]%nat /\
  generateMaze 6 5 (fun _ => 0%Q)
    = Some [[1; 1; 1; 1; 1; 1]; [1; 0; 0; 0; 1; 1]; [1; 1; 1; 0; 1; 1];
            [1; 0; 0; 0; 1; 1]; [1; 1; 1; 1; 1; 1]]%nat.
Proof. split; vm_compute; reflexivity. Qed.

End Maze.

(** ** The coordinate helpers on binary64 numbers

    [Coords] computes with exact rationals.  The same two functions are
    written here over IEEE 754 doubles, the numbers JavaScript has, and
    the round trip is checked on every cell of every maze size that
    [#createLevel] can ask for. *)

Module Binary64.
Import Floats Maze.

Local Open Scope float_scope.

Definition CELL_SIZE : float := 2.5.

(** [Math.floor] of a finite double, as an integer; [None] on NaN and
    on the infinities. *)
Definition floor (f : float) : option Z :=
  match Prim2SF f with
  | S754_zero _ => Some 0%Z
  | S754_finite s m e =>
      let n := if s then Z.neg m else Z.pos m in
      Some (if (0 <=? e)%Z then (n * 2 ^ e)%Z else (n / 2 ^ (- e))%Z)
  | _ => None
  end.

(** The double of a (small) integer. *)
Definition ofZ (z : Z) : float :=
  match z with
  | Z0 => 0
  | Zpos _ => of_uint63 (Uint63.of_Z z)
  | Zneg p => - of_uint63 (Uint63.of_Z (Z.pos p))
  end.

Definition gridToWorld (size gx gz : float) : float * float :=
  let cs := CELL_SIZE in
  ((gx - size / 2) * cs + cs / 2, (gz - size / 2) * cs + cs / 2).

Definition worldToGrid (size wx wz : float) : option Z * option Z :=
  let cs := CELL_SIZE in
  (floor (wx / cs + size / 2), floor (wz / cs + size / 2)).

(** [worldToGrid(gridToWorld(gx, gz))] gives back [(gx, gz)]. *)
Definition returns (size : Z) (c : Z * Z) : bool :=
  let sz := ofZ size in
  let (wx, wz) := gridToWorld sz (ofZ (fst c)) (ofZ (snd c)) in
  match worldToGrid sz wx wz with
  | (Some x, Some z) => (x =? fst c)%Z && (z =? snd c)%Z
  | _ => false
  end.

Definition indices (size : Z) : list Z := List.map Z.of_nat (seq 0 (Z.to_nat size)).

Definition allReturn (size : Z) : bool :=
  forallb (returns size) (list_prod (indices size) (indices size)).

(** The sizes of [mazeSize]: 31, 35, ..., 71. *)
Definition levelSizes : list Z := List.map (fun k => (31 + 4 * Z.of_nat k)%Z) (seq 0 11).

Lemma mazeSize_levelSizes (level : Z) : (0 <= level)%Z -> In (mazeSize level) levelSizes.
Proof.
  intros Hl. unfold levelSizes. apply in_map_iff.
  assert (0 <= level / 2)%Z as Hq by (apply Z.div_pos; lia).
  unfold mazeSize, INITIAL_MAZE_SIZE.
  exists (Z.to_nat (Z.min (level / 2) 10)). split; [lia |].
  apply in_seq. lia.
Qed.

Lemma levelSizes_allReturn : forallb allReturn levelSizes = true.
Proof. vm_compute. reflexivity. Qed.

Lemma indices_spec (size g : Z) : (0 <= g < size)%Z -> In g (indices size).
Proof.
  intros Hg. unfold indices. apply in_map_iff. exists (Z.to_nat g).
  split; [lia |]. apply in_seq. lia.
Qed.

(** X1: in binary64 arithmetic, at every level from 0 on and for every
    cell of the maze of that level, [worldToGrid] applied to the result
    of [gridToWorld] returns the cell. *)
Theorem round_trip_binary64 (level gx gz : Z) :
  (0 <= level)%Z ->
  (0 <= gx < mazeSize level)%Z -> (0 <= gz < mazeSize level)%Z ->
  let size := ofZ (mazeSize level) in
  let w := gridToWorld size (ofZ gx) (ofZ gz) in
  worldToGrid size (fst w) (snd w) = (Some gx, Some gz).
Proof.
  intros Hl Hx Hz.
  pose proof (proj1 (forallb_forall _ _) levelSizes_allReturn _
                (mazeSize_levelSizes level Hl)) as Hall.
  unfold allReturn in Hall.
  pose proof (proj1 (forallb_forall _ _) Hall (gx, gz)
                (proj2 (in_prod_iff _ _ _ _)
                   (conj (indices_spec _ _ Hx) (indices_spec _ _ Hz)))) as Hc.
  unfold returns in Hc. cbn [fst snd] in Hc. cbv zeta.
  destruct (gridToWorld _ _ _) as [wx wz]. cbn [fst snd].
  destruct (worldToGrid _ wx wz) as [[x |] [z |]]; try discriminate.
  apply andb_prop in Hc as [Ex Ez].
  apply Z.eqb_eq in Ex, Ez. subst. reflexivity.
Qed.

(** At level 19 the maze has side 67; cell (3, 37) lies at (-75, 10). *)
Lemma round_trip_binary64_witness :
  gridToWorld (ofZ (mazeSize 19)) (ofZ 3) (ofZ 37) = (-75, 10) /\
  worldToGrid (ofZ (mazeSize 19)) (-75) 10 = (Some 3%Z, Some 37%Z).
Proof.
  split; [vm_compute; reflexivity |].
  change (worldToGrid (ofZ (mazeSize 19)) (-75) 10)
    with (let w := gridToWorld (ofZ (mazeSize 19)) (ofZ 3) (ofZ 37) in
          worldToGrid (ofZ (mazeSize 19)) (fst w) (snd w)).
  apply (round_trip_binary64 19 3 37); vm_compute; intuition discriminate.
Defined.

End Binary64.

(** ** What the listeners of a GameStateManager see (gameStateManager.js,
       emitter.js) *)

Module Observers.
Import GameState.

Local Open Scope Q_scope.

(** The calls a client can make on a [GameStateManager]. *)
Inductive call :=
| On (event : string) (listener : nat)
| SetScore (value : Q)
| SetHealth (value : Q)
| SetEnergy (value : Q)
| SetLevel (value : Q)
| AddScore (points multiplier : Q)
| Reset.

Definition perform (s : state) (c : call) : state :=
  match c with
  | On event listener => on event listener s
  | SetScore value => set_score value s
  | SetHealth value => set_health value s
  | SetEnergy value => set_energy value s
  | SetLevel value => set_level value s
  | AddScore points multiplier => addScore points multiplier s
  | Reset => reset s
  end.

Definition run (cs : list call) (s : state) : state := fold_left perform cs s.

(** The listeners [emit] iterates over. *)
Definition listeners (event : string) (s : state) : list nat :=
  default [] (events s !! event).

(** The payload of the last [event] in a log, [d] when there is none. *)
Definition lastPayload (event : string) (d : Q) (log : list (string * Q)) : Q :=
  match last (List.filter (fun p => bool_decide (fst p = event)) log) with
  | Some p => snd p
  | None => d
  end.

(** Every payload that [event] carried lies in [[0, 100]]. *)
Definition payloadsBounded (event : string) (log : list (string * Q)) : Prop :=
  forall v, (event, v) ∈ log -> 0 <= v <= 100.

Lemma run_snoc (cs : list call) (c : call) (s : state) :
  run (cs ++ [c]) s = perform (run cs s) c.
Proof. unfold run. rewrite fold_left_app. reflexivity. Qed.

Lemma events_perform (s : state) (c : call) :
  (forall e l, c <> On e l) -> events (perform s c) = events s.
Proof.
  intros Hc. destruct c as [e l | v | v | v | v | p m |]; cbn;
    try reflexivity; try (exfalso; exact (Hc e l eq_refl)).
  - unfold set_health. destruct (Qeq_bool _ _); reflexivity.
  - unfold set_energy. destruct (Qeq_bool _ _); reflexivity.
Qed.

Lemma listeners_on (event e : string) (l : nat) (s : state) :
  listeners e (on event l s)
  = if decide (event = e)
    then (if decide (l ∈ listeners e s) then listeners e s else listeners e s ++ [l])
    else listeners e s.
Proof.
  unfold listeners, on. cbn [events]. rewrite lookup_insert.
  destruct (decide (event = e)) as [-> | Hne]; reflexivity.
Qed.

(** What the registry holds after a sequence of calls. *)
Lemma listeners_run (cs : list call) (e : string) :
  NoDup (listeners e (run cs initial)) /\
  forall l, l ∈ listeners e (run cs initial) <-> On e l ∈ cs.
Proof.
  induction cs as [| c cs IH] using rev_ind.
  - cbn. unfold listeners. cbn. rewrite lookup_empty. cbn. split; [constructor |].
    intros l. rewrite !elem_of_nil. tauto.
  - rewrite run_snoc. destruct IH as [Hnd Hmem].
    destruct c as [event l0 | v | v | v | v | p m |];
      try (unfold listeners in *; rewrite events_perform by discriminate;
           split; [exact Hnd |]; intros l; rewrite Hmem, elem_of_app,
             list_elem_of_singleton; split; [tauto |]; intros [H | H];
           [exact H | discriminate]).
    cbn [perform]. rewrite listeners_on.
    destruct (decide (event = e)) as [-> | Hne].
    + destruct (decide (l0 ∈ listeners e (run cs initial))) as [Hin | Hout].
      * split; [exact Hnd |]. intros l.
        rewrite Hmem, elem_of_app, list_elem_of_singleton. split; [tauto |].
        intros [H | [= ->]]; [exact H |]. apply Hmem. exact Hin.
      * split.
        -- apply NoDup_app. repeat split; [exact Hnd | | apply NoDup_singleton].
           intros x Hx Hx'. apply list_elem_of_singleton in Hx'. subst. contradiction.
        -- intros l. rewrite !elem_of_app, !list_elem_of_singleton, Hmem.
           split; [intros [H | ->]; tauto |]. intros [H | [= ->]]; tauto.
    + split; [exact Hnd |]. intros l.
      rewrite Hmem, elem_of_app, list_elem_of_singleton. split; [tauto |].
      intros [H | [= -> ->]]; [exact H | congruence].
Qed.

(** X2: whatever calls came before, [emit(event, payload)] invokes each
    listener that [on] registered for that event exactly once, however
    often it was registered, and no other listener. *)
Theorem emit_reaches_each_listener_once
    (cs : list call) (event : string) (payload : Q) :
  exists ls,
    delivered (emit event payload (run cs initial))
    = delivered (run cs initial) ++ map (fun l => (l, event, payload)) ls /\
    NoDup ls /\ forall l, l ∈ ls <-> On event l ∈ cs.
Proof.
  exists (listeners event (run cs initial)).
  split; [reflexivity |]. apply listeners_run.
Qed.

Lemma lastPayload_snoc (event e : string) (d v : Q) (log : list (string * Q)) :
  lastPayload event d (log ++ [(e, v)])
  = if decide (e = event) then v else lastPayload event d log.
Proof.
  unfold lastPayload. rewrite List.filter_app. cbn [List.filter fst].
  destruct (decide (e = event)) as [-> | Hne].
  - rewrite bool_decide_eq_true_2 by reflexivity. rewrite last_snoc. reflexivity.
  - rewrite bool_decide_eq_false_2 by exact Hne. rewrite app_nil_r. reflexivity.
Qed.

(** The four observable fields agree with the last notification. *)
Definition current (s : state) : Prop :=
  lastPayload "scoreChanged" 0 (emitted s) = score s /\
  lastPayload "healthChanged" 100 (emitted s) = health s /\
  lastPayload "energyChanged" 100 (emitted s) = energy s /\
  lastPayload "levelChanged" 1 (emitted s) = level s.

Lemma current_perform (s : state) (c : call) :
  c <> Reset -> current s -> current (perform s c).
Proof.
  intros Hc (Hs & Hh & He & Hl).
  destruct c as [e l | v | v | v | v | p m |]; cbn [perform]; try congruence.
  - exact (conj Hs (conj Hh (conj He Hl))).
  - unfold current, set_score, emit. cbn. rewrite !lastPayload_snoc.
    repeat split; try assumption.
  - unfold set_health. destruct (Qeq_bool _ _); [exact (conj Hs (conj Hh (conj He Hl))) |].
    unfold current, emit. cbn. rewrite !lastPayload_snoc. repeat split; assumption.
  - unfold set_energy. destruct (Qeq_bool _ _); [exact (conj Hs (conj Hh (conj He Hl))) |].
    unfold current, emit. cbn. rewrite !lastPayload_snoc. repeat split; assumption.
  - unfold current, set_level, emit. cbn. rewrite !lastPayload_snoc.
    repeat split; assumption.
  - unfold current, addScore, set_score, emit. cbn. rewrite !lastPayload_snoc.
    repeat split; assumption.
Qed.

(** X3: as long as [reset()] is not called, every observable field
    equals the payload of the last change event emitted for it (or its
    initial value when none was emitted): a listener that stores what it
    is told always holds the current score, health, energy and level. *)
Theorem observers_current (cs : list call) :
  Reset ∉ cs ->
  let s := run cs initial in
  lastPayload "scoreChanged" 0 (emitted s) = score s /\
  lastPayload "healthChanged" 100 (emitted s) = health s /\
  lastPayload "energyChanged" 100 (emitted s) = energy s /\
  lastPayload "levelChanged" 1 (emitted s) = level s.
Proof.
  intros Hr. cbv zeta. change (current (run cs initial)).
  induction cs as [| c cs IH] using rev_ind.
  - repeat split.
  - rewrite run_snoc. apply current_perform.
    + intros ->. apply Hr. apply elem_of_app. right. apply list_elem_of_here.
    + apply IH. intros H. apply Hr. apply elem_of_app. left. exact H.
Qed.

(** A damaged player, a score, and the next level. *)
Definition session : list call :=
  [On "healthChanged" 7; SetHealth 80; AddScore 25 3; SetEnergy 130; SetLevel 2;
   SetHealth 60].

Lemma observers_current_witness :
  lastPayload "healthChanged" 100 (emitted (run session initial)) = 60 /\
  health (run session initial) = 60.
Proof.
  assert (Reset ∉ session) as Hr.
  { unfold session. intros H. repeat (apply elem_of_cons in H as [H | H]; [discriminate |]).
    by apply elem_of_nil in H. }
  pose proof (observers_current session Hr) as H. cbv zeta in H.
  destruct H as (_ & Hh & _). split; [| reflexivity].
  rewrite Hh. reflexivity.
Defined.

(** [reset()] assigns the fields without a notification: afterwards the
    fields are the initial ones and the listeners still hold the old
    values. *)
Lemma reset_is_silent :
  let s := run [SetHealth 40; Reset] initial in
  health s = 100 /\ lastPayload "healthChanged" 100 (emitted s) = 40.
Proof. split; reflexivity. Qed.

(** The invariant of the clamped fields. *)
Definition bounded (s : state) : Prop :=
  0 <= health s <= 100 /\ 0 <= energy s <= 100 /\
  payloadsBounded "healthChanged" (emitted s) /\
  payloadsBounded "energyChanged" (emitted s).

Lemma payloadsBounded_snoc (event e : string) (v : Q) (log : list (string * Q)) :
  payloadsBounded event log -> (e = event -> 0 <= v <= 100) ->
  payloadsBounded event (log ++ [(e, v)]).
Proof.
  intros Hlog Hv w Hw. apply elem_of_app in Hw as [Hw | Hw]; [exact (Hlog w Hw) |].
  apply list_elem_of_singleton in Hw. injection Hw as <- <-. apply Hv. reflexivity.
Qed.

Lemma bounded_perform (s : state) (c : call) : bounded s -> bounded (perform s c).
Proof.
  intros (Hh & He & Hph & Hpe).
  destruct c as [e l | v | v | v | v | p m |]; cbn [perform].
  - exact (conj Hh (conj He (conj Hph Hpe))).
  - refine (conj Hh (conj He (conj _ _)));
      apply payloadsBounded_snoc; (assumption || discriminate).
  - unfold set_health. destruct (Qeq_bool _ _); [exact (conj Hh (conj He (conj Hph Hpe))) |].
    pose proof (normalize_range v) as Hn.
    refine (conj Hn (conj He (conj _ _))).
    + apply payloadsBounded_snoc; [assumption | intros _; exact Hn].
    + apply payloadsBounded_snoc; [assumption | discriminate].
  - unfold set_energy. destruct (Qeq_bool _ _); [exact (conj Hh (conj He (conj Hph Hpe))) |].
    pose proof (normalize_range v) as Hn.
    refine (conj Hh (conj Hn (conj _ _))).
    + apply payloadsBounded_snoc; [assumption | discriminate].
    + apply payloadsBounded_snoc; [assumption | intros _; exact Hn].
  - refine (conj Hh (conj He (conj _ _)));
      apply payloadsBounded_snoc; (assumption || discriminate).
  - refine (conj Hh (conj He (conj _ _)));
      apply payloadsBounded_snoc; (assumption || discriminate).
  - refine (conj _ (conj _ (conj Hph Hpe))); cbn; lra.
Qed.

(** X4: along every sequence of calls, [reset()] included, health and
    energy stay within [[0, 100]], and so does every payload that a
    [healthChanged] or [energyChanged] event ever carried. *)
Theorem health_energy_bounded (cs : list call) :
  let s := run cs initial in
  0 <= health s <= 100 /\ 0 <= energy s <= 100 /\
  payloadsBounded "healthChanged" (emitted s) /\
  payloadsBounded "energyChanged" (emitted s).
Proof.
  cbv zeta. change (bounded (run cs initial)).
  induction cs as [| c cs IH] using rev_ind.
  - refine (conj _ (conj _ (conj _ _))); cbn; try lra;
      intros v Hv; by apply elem_of_nil in Hv.
  - rewrite run_snoc. apply bounded_perform. exact IH.
Qed.

End Observers.

(** ** Laws of the entity-component store (src/core/simpleEcs.js) *)

Module StoreLaws.
Import ECS.

(** *** The order of component names *)

Lemma ascii_compare_trans (a b c : ascii) :
  Ascii.compare a b = Lt -> Ascii.compare b c = Lt -> Ascii.compare a c = Lt.
Proof.
  unfold Ascii.compare. rewrite !N.compare_lt_iff. lia.
Qed.

Lemma ascii_compare_eq (a b : ascii) : Ascii.compare a b = Eq -> a = b.
Proof.
  unfold Ascii.compare. rewrite N.compare_eq_iff. intros H.
  rewrite <- (ascii_N_embedding a), <- (ascii_N_embedding b), H. reflexivity.
Qed.

Lemma string_compare_refl (s : string) : String.compare s s = Eq.
Proof.
  induction s as [| c s IH]; cbn; [reflexivity |].
  unfold Ascii.compare. rewrite N.compare_refl. exact IH.
Qed.

Lemma string_compare_lt_trans (s1 s2 s3 : string) :
  String.compare s1 s2 = Lt -> String.compare s2 s3 = Lt -> String.compare s1 s3 = Lt.
Proof.
  revert s2 s3. induction s1 as [| a s1 IH]; intros [| b s2] [| c s3]; cbn;
    try discriminate; try reflexivity.
  destruct (Ascii.compare a b) eqn:Hab; try discriminate;
    destruct (Ascii.compare b c) eqn:Hbc; try discriminate; intros H12 H23.
  - apply ascii_compare_eq in Hab, Hbc. subst.
    unfold Ascii.compare. rewrite N.compare_refl. exact (IH _ _ H12 H23).
  - apply ascii_compare_eq in Hab. subst. rewrite Hbc. reflexivity.
  - apply ascii_compare_eq in Hbc. subst. rewrite Hab. reflexivity.
  - rewrite (ascii_compare_trans a b c Hab Hbc). reflexivity.
Qed.

#[local] Instance name_le_trans : Transitive name_le.
Proof.
  intros s1 s2 s3. unfold name_le, String.leb. intros H12 H23.
  destruct (String.compare s1 s2) eqn:E12; try discriminate;
    destruct (String.compare s2 s3) eqn:E23; try discriminate.
  - apply String.compare_eq_iff in E12, E23. subst. rewrite string_compare_refl. reflexivity.
  - apply String.compare_eq_iff in E12. subst. rewrite E23. reflexivity.
  - apply String.compare_eq_iff in E23. subst. rewrite E12. reflexivity.
  - rewrite (string_compare_lt_trans _ _ _ E12 E23). reflexivity.
Qed.

#[local] Instance name_le_total : Total name_le.
Proof. intros s1 s2. apply String.leb_total. Qed.

#[local] Instance name_le_antisym : AntiSymm eq name_le.
Proof. intros s1 s2. apply String.leb_antisym. Qed.

(** Sorting forgets the order in which the components were given. *)
Lemma queryKey_Permutation (cs cs' : list string) :
  cs ≡ₚ cs' -> queryKey cs = queryKey cs'.
Proof.
  intros Hp. unfold queryKey. f_equal.
  apply (StronglySorted_unique name_le).
  - apply StronglySorted_merge_sort; apply _.
  - apply StronglySorted_merge_sort; apply _.
  - rewrite !merge_sort_Permutation. exact Hp.
Qed.

Section Laws.

Context {V : Type}.
Implicit Types s : ecs V.

(** X5: a query is identified by its set of components, not by the
    order in which they are listed: [defineQuery] over a permutation of
    the components of a query defined before returns the same key and
    leaves the store, and so the one shared cache, as it is. *)
Theorem defineQuery_order_free (cs cs' : list string) s :
  cs ≡ₚ cs' ->
  fst (defineQuery cs' s) = fst (defineQuery cs s) /\
  defineQuery cs' (snd (defineQuery cs s))
  = (fst (defineQuery cs s), snd (defineQuery cs s)).
Proof.
  intros Hp. pose proof (queryKey_Permutation cs cs' Hp) as Hk.
  assert (forall l s0, fst (defineQuery (V := V) l s0) = queryKey l) as Hfst.
  { intros l s0. unfold defineQuery. destruct (queryCache s0 !! queryKey l); reflexivity. }
  rewrite !Hfst. split; [congruence |].
  destruct (defineQuery_defined s cs) as [cache Hc].
  unfold defineQuery at 1. rewrite <- Hk, Hc. reflexivity.
Qed.

(** *** Entity ids *)

(** Every live id lies below the next id to hand out. *)
Definition below s : Prop := forall id, id ∈ entities s -> id < nextEntityId s.

Lemma nextEntityId_updateCaches id name s :
  nextEntityId (updateCaches id name s) = nextEntityId s /\
  entities (updateCaches id name s) = entities s.
Proof. split; reflexivity. Qed.

Lemma nextEntityId_apply s (o : op V) :
  nextEntityId s <= nextEntityId (apply s o).
Proof.
  destruct o as [| id | | cs | name id v | name id]; cbn [apply].
  - cbn. lia.
  - unfold removeEntity. destruct (decide _); cbn; lia.
  - cbn. lia.
  - unfold defineQuery. destruct (queryCache s !! queryKey cs); cbn; lia.
  - cbn. lia.
  - unfold removeComponent. destruct (has name id s); cbn; lia.
Qed.

Lemma nextEntityId_run (ops : list (op V)) s :
  nextEntityId s <= nextEntityId (run ops s).
Proof.
  revert s. induction ops as [| o ops IH]; intros s; [cbn; lia |].
  cbn [run fold_left]. pose proof (nextEntityId_apply s o).
  specialize (IH (apply s o)). unfold run in IH. lia.
Qed.

Lemma below_apply s (o : op V) : below s -> below (apply s o).
Proof.
  intros Hb. destruct o as [| id | | cs | name id v | name id]; cbn [apply].
  - intros i Hi. cbn in *. apply elem_of_setAdd in Hi as [-> | Hi]; [lia |].
    specialize (Hb i Hi). lia.
  - unfold removeEntity. destruct (decide _); [| exact Hb].
    intros i Hi. cbn in *. apply elem_of_setDelete in Hi as [Hi _]. exact (Hb i Hi).
  - exact Hb.
  - unfold defineQuery. destruct (queryCache s !! queryKey cs); exact Hb.
  - exact Hb.
  - unfold removeComponent. destruct (has name id s); exact Hb.
Qed.

Lemma below_run (ops : list (op V)) s : below s -> below (run ops s).
Proof.
  revert s. induction ops as [| o ops IH]; intros s Hb; [exact Hb |].
  cbn [run fold_left]. apply IH. apply below_apply. exact Hb.
Qed.

(** X6: entity ids are never handed out twice: an id returned by
    [addEntity] is larger than every id returned earlier, whatever
    happened in between, the removal of the earlier entity included, and
    it is not the id of a live entity. *)
Theorem addEntity_never_reuses (before between : list (op V)) :
  let s1 := run before empty in
  let s2 := run between (snd (addEntity s1)) in
  fst (addEntity s1) < fst (addEntity s2) /\
  fst (addEntity s2) ∉ entities s2.
Proof.
  cbv zeta. split.
  - pose proof (nextEntityId_run between (snd (addEntity (run before empty)))) as H.
    cbn in *. lia.
  - intros Hin.
    assert (below (run between (snd (addEntity (run before (@empty V)))))) as Hb.
    { apply below_run. change (below (apply (run before empty) AddEntity)).
      apply below_apply, below_run. intros i Hi. by apply elem_of_nil in Hi. }
    specialize (Hb _ Hin). cbn in Hb. lia.
Qed.

(** X7: along a sequence of operations that adds components to live
    entities only, a new entity is blank: it holds no component and no
    query resolves to it. *)
Theorem new_entity_is_blank (ops : list (op V)) :
  validTrace empty ops ->
  let s := run ops empty in
  let id := fst (addEntity s) in
  let s' := snd (addEntity s) in
  id ∈ entities s' /\
  (forall c, has c id s' = false) /\
  (forall key cache, resolve key s' = Some cache -> id ∉ cache).
Proof.
  intros Hv. cbv zeta.
  pose proof (Inv_run ops empty Inv_empty Hv) as HI.
  assert (below (run ops (@empty V))) as Hb.
  { apply below_run. intros i Hi. by apply elem_of_nil in Hi. }
  assert (forall c, has c (nextEntityId (run ops empty)) (run ops (@empty V)) = false) as Hno.
  { intros c. destruct (has c _ _) eqn:Hh; [| reflexivity].
    destruct HI as (_ & _ & Hl & _). specialize (Hb _ (Hl c _ Hh)). lia. }
  split; [cbn; apply elem_of_setAdd; left; reflexivity |].
  split; [exact Hno |].
  intros key cache Hk Hin.
  pose proof (Inv_addEntity _ HI) as (_ & _ & _ & Hc).
  destruct (Hc key cache Hk) as (_ & _ & Hmem).
  apply Hmem in Hin as [_ Hall].
  destruct (split key) as [| c0 rest] eqn:Hs; [by apply split_cons_ne in Hs |].
  cbn in Hall. apply andb_prop in Hall as [Hc0 _].
  change (has c0 (nextEntityId (run ops empty)) (run ops empty) = true) in Hc0.
  rewrite Hno in Hc0. discriminate.
Qed.

(** *** Removing an entity *)

(** X8: along a sequence of operations that adds components to live
    entities only, after [removeEntity(id)] the id is not live, holds no
    component and is in no query cache, while every other entity keeps
    its components and its place; ids are not recycled. *)
Theorem removeEntity_purges (ops : list (op V)) (id : nat) :
  validTrace empty ops ->
  let s := run ops empty in
  let s' := removeEntity id s in
  entityExists id s' = false /\
  (forall c, get c id s' = None) /\
  (forall key cache, resolve key s' = Some cache -> id ∉ cache) /\
  (forall c i, i <> id -> get c i s' = get c i s) /\
  (forall i, i <> id -> entityExists i s' = entityExists i s) /\
  nextEntityId s' = nextEntityId s.
Proof.
  intros Hv. cbv zeta.
  pose proof (Inv_run ops empty Inv_empty Hv) as HI.
  set (s := run ops empty) in *.
  pose proof (Inv_removeEntity s id HI) as HI'.
  assert (id ∉ entities (removeEntity id s)) as Hgone.
  { unfold removeEntity. destruct (decide (id ∈ entities s)) as [Hin | Hout]; [| exact Hout].
    cbn. rewrite elem_of_setDelete. tauto. }
  assert (forall c, get c id (removeEntity id s) = None) as Hnone.
  { intros c. destruct (get c id (removeEntity id s)) as [v |] eqn:Hg; [| reflexivity].
    exfalso. apply Hgone. destruct HI' as (_ & _ & Hl & _). apply (Hl c).
    unfold has. rewrite Hg. reflexivity. }
  split; [apply bool_decide_eq_false; exact Hgone |].
  split; [exact Hnone |]. split; [| split; [| split]].
  - intros key cache Hk Hin. destruct HI' as (_ & _ & _ & Hc).
    destruct (Hc key cache Hk) as (_ & _ & Hmem). apply Hmem in Hin as [Hin _].
    contradiction.
  - intros c i Hne. unfold removeEntity.
    destruct (decide (id ∈ entities s)); [| reflexivity].
    unfold get. cbn. rewrite lookup_fmap.
    destruct (componentRegistry s !! c) as [d |]; cbn; [| reflexivity].
    apply lookup_delete_ne. congruence.
  - intros i Hne. unfold entityExists, removeEntity.
    destruct (decide (id ∈ entities s)); [| reflexivity]. cbn.
    apply bool_decide_ext. rewrite elem_of_setDelete. tauto.
  - unfold removeEntity. destruct (decide _); reflexivity.
Qed.

(** *** Components *)

Lemma get_updateCaches id name s c i : get c i (updateCaches id name s) = get c i s.
Proof. reflexivity. Qed.

Lemma get_after_add s name id v c i :
  is_Some (componentRegistry s !! name) ->
  get c i (addComponent name id v s)
  = if decide (c = name /\ i = id) then Some v else get c i s.
Proof.
  intros [d Hd]. unfold addComponent. rewrite get_updateCaches.
  unfold get. cbn. rewrite lookup_alter.
  destruct (decide (name = c)) as [<- | Hne].
  - rewrite Hd. cbn. rewrite lookup_insert.
    destruct (decide (id = i)) as [<- | Hni].
    + rewrite decide_True by tauto. reflexivity.
    + rewrite decide_False by (intros [_ ?]; congruence). reflexivity.
  - rewrite decide_False by (intros [? _]; congruence). reflexivity.
Qed.

Lemma get_after_remove s name id c i :
  get c i (removeComponent name id s)
  = if decide (c = name /\ i = id) then None else get c i s.
Proof.
  unfold removeComponent, has. destruct (get name id s) as [v |] eqn:Hg.
  - rewrite get_updateCaches. unfold get. cbn. rewrite lookup_alter.
    destruct (decide (name = c)) as [<- | Hne].
    + destruct (componentRegistry s !! name) as [d |]; cbn.
      * rewrite lookup_delete. destruct (decide (id = i)) as [<- | Hni].
        -- rewrite decide_True by tauto. reflexivity.
        -- rewrite decide_False by (intros [_ ?]; congruence). reflexivity.
      * destruct (decide _); reflexivity.
    + rewrite decide_False by (intros [? _]; congruence). reflexivity.
  - destruct (decide _) as [[-> ->] | _]; [exact Hg | reflexivity].
Qed.

(** X9: for a defined component, [get] after [add] returns the values
    added, the last ones when added twice; [remove] after [add] leaves
    no value; neither touches the value of any other component or
    entity, nor the set of entities. *)
Theorem component_add_get_remove s (name : string) (id : nat) (v w : V) :
  is_Some (componentRegistry s !! name) ->
  get name id (addComponent name id v s) = Some v /\
  get name id (addComponent name id w (addComponent name id v s)) = Some w /\
  hasComponent name id (removeComponent name id (addComponent name id v s)) = false /\
  (forall c i, c <> name \/ i <> id ->
     get c i (addComponent name id v s) = get c i s /\
     get c i (removeComponent name id (addComponent name id v s)) = get c i s) /\
  entities (removeComponent name id (addComponent name id v s)) = entities s.
Proof.
  intros Hdef.
  assert (is_Some (componentRegistry (addComponent name id v s) !! name)) as Hdef'.
  { cbn. rewrite lookup_alter_is_Some. exact Hdef. }
  split; [rewrite get_after_add by exact Hdef; rewrite decide_True by tauto; reflexivity |].
  split; [rewrite get_after_add by exact Hdef'; rewrite decide_True by tauto; reflexivity |].
  split; [| split].
  - unfold hasComponent, has. rewrite get_after_remove, decide_True by tauto. reflexivity.
  - intros c i Hne.
    rewrite get_after_remove, get_after_add by exact Hdef.
    rewrite !decide_False by tauto. split; reflexivity.
  - unfold removeComponent. destruct (has _ _ _); reflexivity.
Qed.

End Laws.

Lemma defineQuery_order_free_witness :
  fst (defineQuery ["c1"; "c0"] (@empty nat)) = fst (defineQuery ["c0"; "c1"] (@empty nat)).
Proof.
  apply (defineQuery_order_free ["c0"; "c1"] ["c1"; "c0"] (@empty nat)).
  apply Permutation_swap.
Defined.

(** Two components, two entities, a query, and a removal. *)
Definition sample : list (op nat) :=
  [DefineComponent; DefineComponent; AddEntity; AddEntity;
   AddComponent "c0" 1 7; DefineQuery ["c1"; "c0"]; AddComponent "c1" 1 8;
   AddComponent "c0" 2 9; RemoveEntity 2].

Lemma sample_valid : validTrace empty sample.
Proof.
  cbn. repeat split; try discriminate;
    repeat (apply Forall_cons; split); try apply Forall_nil_2;
    try (eexists; reflexivity); set_solver.
Qed.

Lemma new_entity_is_blank_witness :
  let s := run sample empty in
  3 ∈ entities (snd (addEntity s)) /\
  (forall c, has c 3 (snd (addEntity s)) = false) /\
  (forall key cache, resolve key (snd (addEntity s)) = Some cache -> 3 ∉ cache).
Proof. exact (new_entity_is_blank sample sample_valid). Defined.

Lemma removeEntity_purges_witness :
  let s := run sample empty in
  entityExists 1 (removeEntity 1 s) = false /\
  (forall c, get c 1 (removeEntity 1 s) = None).
Proof.
  pose proof (removeEntity_purges sample 1 sample_valid) as H. cbv zeta in *.
  destruct H as (H1 & H2 & _). split; assumption.
Defined.

Lemma component_add_get_remove_witness :
  get "c1" 1 (addComponent "c1" 1 5 (run sample empty)) = Some 5.
Proof.
  apply (component_add_get_remove (run sample empty) "c1" 1 5 6).
  eexists. vm_compute. reflexivity.
Defined.

End StoreLaws.

(** ** More on the paths of findPath *)

Module Routes.
Import Pathfinder.

Lemma isPath_app (maze : grid) (a : list node) (x : node) (c : list node) :
  isPath maze (a ++ x :: c) <-> isPath maze (a ++ [x]) /\ isPath maze (x :: c).
Proof.
  induction a as [| u a IH].
  - cbn. tauto.
  - destruct a as [| v a].
    + cbn. tauto.
    + change (isPath maze ((u :: v :: a) ++ x :: c))
        with ((v ∈ neighbours u /\ blocked maze v = false) /\ isPath maze ((v :: a) ++ x :: c)).
      change (isPath maze ((u :: v :: a) ++ [x]))
        with ((v ∈ neighbours u /\ blocked maze v = false) /\ isPath maze ((v :: a) ++ [x])).
      rewrite IH. tauto.
Qed.

(** A path is a walk from its first to its last cell. *)
Lemma isPath_walk (maze : grid) (s : node) (q : list node) :
  forall u n, walk maze s u n -> isPath maze (u :: q) ->
    exists v, last (u :: q) = Some v /\ walk maze s v (n + length q).
Proof.
  induction q as [| w q IH]; intros u n Hw Hp.
  - exists u. split; [reflexivity |]. rewrite Nat.add_0_r. exact Hw.
  - destruct Hp as [[Hn Hb] Hp].
    destruct (IH w (S n) (walk_step maze s u w n Hw Hn Hb) Hp) as (v & Hl & Hv).
    exists v. split; [exact Hl |].
    replace (n + length (w :: q)) with (S n + length q) by (cbn; lia). exact Hv.
Qed.

(** A list with a repetition, cut at it. *)
Lemma repetition (p : list node) :
  ~ NoDup p -> exists a x b c, p = a ++ x :: b ++ x :: c.
Proof.
  induction p as [| u p IH]; intros Hnd; [exfalso; apply Hnd; constructor |].
  destruct (decide (u ∈ p)) as [Hin | Hout].
  - apply list_elem_of_split in Hin as (b & c & ->). exists [], u, b, c. reflexivity.
  - destruct IH as (a & x & b & c & ->).
    + intros Hp. apply Hnd. constructor; assumption.
    + exists (u :: a), x, b, c. reflexivity.
Qed.

(** X13: a path returned by [findPath] visits no cell twice. *)
Theorem findPath_simple (maze : grid) (start goal : node) (p : list node) :
  findPath maze start goal = Path p -> NoDup p.
Proof.
  intros Hfind. pose proof (findPath_spec maze start goal) as Hspec.
  rewrite Hfind in Hspec.
  destruct Hspec as (g & _ & Hmin & _ & Hlen & Hhd & Hlast & Hp).
  destruct (decide (NoDup p)) as [Hnd | Hdup]; [exact Hnd | exfalso].
  apply repetition in Hdup as (a & x & b & c & ->).
  apply isPath_app in Hp as [Ha Hrest].
  change (x :: b ++ x :: c) with ((x :: b) ++ x :: c) in Hrest.
  apply isPath_app in Hrest as [_ Hc].
  assert (isPath maze (a ++ x :: c)) as Hshort by (apply isPath_app; split; assumption).
  assert (head (a ++ x :: c) = Some start) as Hhd'.
  { destruct a; [| exact Hhd]. cbn in *. exact Hhd. }
  assert (last (a ++ x :: c) = Some goal) as Hlast'.
  { rewrite last_app in Hlast |- *. cbn [last] in *.
    change (x :: b ++ x :: c) with ((x :: b) ++ x :: c) in Hlast.
    rewrite last_app in Hlast.
    destruct (last (x :: c)) eqn:E; [exact Hlast |].
    apply last_None in E. discriminate E. }
  destruct (a ++ x :: c) as [| u q] eqn:Hq; [discriminate Hhd' |].
  injection Hhd' as ->.
  destruct (isPath_walk maze start q start 0 (walk_start maze start) Hshort)
    as (v & Hv & Hwalk).
  rewrite Hlast' in Hv. injection Hv as <-.
  specialize (Hmin _ Hwalk).
  apply (f_equal length) in Hq. rewrite length_app in Hq, Hlen.
  cbn [length] in Hq, Hlen. rewrite length_app in Hlen. cbn [length] in Hlen. lia.
Qed.

(** A ring of open cells around one wall: two routes to every cell. *)
Definition ring : grid := [[0; 0; 0]; [0; 1; 0]; [0; 0; 0]].

Lemma findPath_simple_witness :
  exists p, findPath ring (0, 0)%Z (2, 2)%Z = Path p /\ NoDup p.
Proof.
  destruct (findPath ring (0, 0)%Z (2, 2)%Z) as [p | |] eqn:E;
    [| vm_compute in E; discriminate E | vm_compute in E; discriminate E].
  exists p. split; [reflexivity |].
  exact (findPath_simple ring (0, 0)%Z (2, 2)%Z p E).
Defined.

End Routes.

(** ** The maze that #generateMaze returns, extra openings included *)

Module Labyrinth.
Import Pathfinder Maze.

Local Open Scope Z_scope.

(** A cell of the outer ring of the grid. *)
Definition onBorder (width height : Z) (c : node) : bool :=
  (nx c =? 0) || (nx c =? width - 1) || (nz c =? 0) || (nz c =? height - 1).

(** A cell with two even coordinates: no room and no connector. *)
Definition isPillar (c : node) : bool := Z.even (nx c) && Z.even (nz c).

Lemma rem2_even (x : Z) : 0 <= x -> (Z.rem x 2 =? 0) = Z.even x.
Proof.
  intros Hx. rewrite Z.rem_mod_nonneg by lia. rewrite Zmod_even.
  destruct (Z.even x); reflexivity.
Qed.

Lemma rem2_odd (x : Z) : 0 <= x -> (Z.rem x 2 =? 1) = Z.odd x.
Proof.
  intros Hx. rewrite Z.rem_mod_nonneg by lia. rewrite Zmod_odd.
  destruct (Z.odd x); reflexivity.
Qed.

Section Final.

Variables width height : nat.
Hypothesis width_ok : (5 <= width)%nat.
Hypothesis height_ok : (5 <= height)%nat.

Let W := Z.of_nat width.
Let H := Z.of_nat height.

Let width3 : (3 <= width)%nat := ltac:(lia).
Let height3 : (3 <= height)%nat := ltac:(lia).

(** What holds of the maze once the carving is over, and after every
    extra opening. *)
Record Sound (maze : grid) : Prop := mkSound {
  s_wf : wellFormed width height maze;
  s_bin : forall c, inGrid width height c ->
    cellAt maze c = Some 0%nat \/ cellAt maze c = Some 1%nat;
  s_rooms : forall c, isRoom W H c = true -> isOpen maze c = true;
  s_closed : forall c, inGrid width height c ->
    onBorder W H c || isPillar c = true -> cellAt maze c = Some 1%nat;
  s_conn : forall c, inGrid width height c -> isOpen maze c = true ->
    connected maze (1, 1) c
}.

Lemma open_unblocked maze c :
  wellFormed width height maze -> inGrid width height c ->
  isOpen maze c = true -> blocked maze c = false.
Proof.
  intros Hwf Hg Ho. apply (blocked_false width height width3 height3 maze c Hwf).
  split; [exact Hg |]. apply isOpen_true in Ho. rewrite Ho. discriminate.
Qed.

Lemma room_not_closed c :
  isRoom W H c = true -> onBorder W H c || isPillar c = false.
Proof.
  intros Hr. apply isRoom_parts in Hr as ((Hx & Hz) & Hox & Hoz).
  unfold onBorder, isPillar. fold W H in Hx, Hz.
  rewrite <- Z.negb_odd, Hox. cbn [negb andb]. rewrite orb_false_r.
  rewrite !orb_false_iff, !Z.eqb_neq. lia.
Qed.

Lemma connector_not_closed maze c :
  joinsRooms W H maze c -> inGrid width height c /\ onBorder W H c || isPillar c = false.
Proof.
  intros (a & d & Hd & -> & Ha & _ & Hb & _).
  destruct (between_geometry width height width3 height3 a d Ha Hd Hb) as (Hg & _).
  split; [exact Hg |].
  apply isRoom_parts in Ha as ((Hax & Haz) & Haox & Haoz).
  apply isRoom_parts in Hb as ((Hbx & Hbz) & _). fold W H in Hax, Haz, Hbx, Hbz.
  destruct a as [ax az]. unfold plus in Hbx, Hbz. cbn [nx nz fst snd] in Hax, Haz, Haox, Haoz.
  assert (Z.even ax = false) as Hex by (rewrite <- Z.negb_odd, Haox; reflexivity).
  assert (Z.even az = false) as Hez by (rewrite <- Z.negb_odd, Haoz; reflexivity).
  unfold onBorder, isPillar, plus, half.
  apply directions_cases in Hd as [-> | [-> | [-> | ->]]];
    cbn [nx nz fst snd] in Hbx, Hbz |- *;
    change (0 / 2) with 0; change (-2 / 2) with (-1); change (2 / 2) with 1;
    rewrite ?Z.add_0_r, ?Hex, ?Hez, ?andb_false_r; cbn [andb];
    rewrite orb_false_r, !orb_false_iff, !Z.eqb_neq; lia.
Qed.

(** The carving leaves a sound maze. *)
Lemma carved_sound maze : MInv width height maze [] -> Sound maze.
Proof.
  intros HI.
  pose proof (all_rooms_open width height width3 height3 (fun _ => 0%Q)
                ltac:(intros k; split; [apply Qle_refl | reflexivity]) maze HI) as Hall.
  pose proof (m_wf _ _ _ _ HI) as Hwf.
  split.
  - exact Hwf.
  - exact (m_bin _ _ _ _ HI).
  - exact Hall.
  - intros c Hg Hc.
    destruct (m_bin _ _ _ _ HI c Hg) as [H0 | H1]; [| exact H1]. exfalso.
    apply isOpen_true in H0.
    destruct (m_form _ _ _ _ HI c Hg H0) as [Hr | Hj].
    + rewrite (room_not_closed c Hr) in Hc. discriminate.
    + destruct (connector_not_closed maze c Hj) as [_ Hn]. rewrite Hn in Hc. discriminate.
  - intros c Hg Ho. destruct (m_form _ _ _ _ HI c Hg Ho) as [Hr | Hj].
    + exact (m_conn _ _ _ _ HI c Hr Ho).
    + destruct Hj as (a & d & Hd & -> & Ha & Hao & Hb & _).
      destruct (between_geometry width height width3 height3 a d Ha Hd Hb)
        as (_ & _ & _ & Hn & _).
      destruct (m_conn _ _ _ _ HI a Ha Hao) as [n Hwalk].
      exists (S n). econstructor; [exact Hwalk | exact Hn |].
      apply open_unblocked; assumption.
Qed.

(** Opening one more connector keeps the maze sound. *)
Lemma open_connector_sound maze (x y : Z) :
  Sound maze -> 2 <= x <= W - 3 -> 2 <= y <= H - 3 ->
  (Z.even x = true /\ Z.odd y = true) \/ (Z.odd x = true /\ Z.even y = true) ->
  exists maze', setCell maze (x, y) 0 = Some maze' /\ Sound maze'.
Proof.
  intros HS Hx Hy Hpar.
  assert (inGrid width height (x, y)) as Hg.
  { unfold inGrid. cbn [nx nz fst snd]. fold W H. lia. }
  destruct (setCell_inGrid width height width3 height3 maze (x, y) 0%nat (s_wf _ HS) Hg)
    as (maze' & Hset & Hwf' & Hcell).
  exists maze'. split; [exact Hset |].
  assert (forall c, inGrid width height c ->
            cellAt maze' c = if decide (c = (x, y)) then Some 0%nat else cellAt maze c)
    as Hcells.
  { intros c [Hcx Hcz]. apply Hcell; lia. }
  assert (forall c, blocked maze c = false -> blocked maze' c = false) as Hmono.
  { intros c Hb.
    apply (blocked_false width height width3 height3 maze c (s_wf _ HS)) in Hb as [Hc Hne].
    apply (blocked_false width height width3 height3 maze' c Hwf').
    split; [exact Hc |]. rewrite (Hcells c Hc). destruct (decide _); [discriminate | exact Hne]. }
  split.
  - exact Hwf'.
  - intros c Hc. rewrite (Hcells c Hc). destruct (decide _); [left; reflexivity |].
    exact (s_bin _ HS c Hc).
  - intros c Hr. apply isOpen_true.
    rewrite (Hcells c (isRoom_inGrid width height width3 height3 c Hr)).
    destruct (decide _); [reflexivity |]. apply isOpen_true. exact (s_rooms _ HS c Hr).
  - intros c Hc Hcl. rewrite (Hcells c Hc).
    destruct (decide (c = (x, y))) as [-> | _]; [| exact (s_closed _ HS c Hc Hcl)].
    exfalso. unfold onBorder, isPillar in Hcl. cbn [nx nz fst snd] in Hcl.
    assert (Z.even x && Z.even y = false) as Hp.
    { rewrite <- !Z.negb_odd. destruct Hpar as [[_ Ho] | [Ho _]]; rewrite Ho;
        cbn; rewrite ?andb_false_r; reflexivity. }
    rewrite Hp, orb_false_r in Hcl.
    rewrite !orb_true_iff, !Z.eqb_eq in Hcl. fold W H in Hcl. lia.
  - intros c Hc Ho. apply isOpen_true in Ho. rewrite (Hcells c Hc) in Ho.
    destruct (decide (c = (x, y))) as [-> | Hne].
    + set (a := if Z.even x then (x - 1, y) else (x, y - 1)).
      assert (isRoom W H a = true /\ (x, y) ∈ neighbours a) as [Ha Hn].
      { destruct Hpar as [[Hex Hoy] | [Hox Hey]].
        - unfold a. rewrite Hex. split.
          + apply isRoom_parts. cbn [nx nz fst snd]. fold W H.
            split; [lia |]. split; [| exact Hoy].
            rewrite Z.odd_sub. rewrite <- Z.negb_odd in Hex.
            apply negb_true_iff in Hex. rewrite Hex. reflexivity.
          + unfold neighbours. cbn [nx nz fst snd].
            replace (x - 1 + 1) with x by lia. set_solver.
        - unfold a. rewrite <- Z.negb_odd, Hox. cbn [negb]. split.
          + apply isRoom_parts. cbn [nx nz fst snd]. fold W H.
            split; [lia |]. split; [exact Hox |].
            rewrite Z.odd_sub. rewrite <- Z.negb_odd in Hey.
            apply negb_true_iff in Hey. rewrite Hey. reflexivity.
          + unfold neighbours. cbn [nx nz fst snd].
            replace (y - 1 + 1) with y by lia. set_solver. }
      destruct (s_conn _ HS a (isRoom_inGrid width height width3 height3 a Ha)
                  (s_rooms _ HS a Ha)) as [n Hwalk].
      exists (S n). econstructor; [exact (walk_mono _ _ _ _ _ Hmono Hwalk) | exact Hn |].
      apply (blocked_false width height width3 height3 maze' (x, y) Hwf').
      split; [exact Hc |]. rewrite (Hcells _ Hc), decide_True by reflexivity. discriminate.
    + apply isOpen_true in Ho. destruct (s_conn _ HS c Hc Ho) as [n Hwalk].
      exists n. exact (walk_mono _ _ _ _ _ Hmono Hwalk).
Qed.

Variable rng : random.
Hypothesis rng_unit : forall k, (0 <= rng k)%Q /\ (rng k < 1)%Q.

Lemma punch_sound (n : nat) :
  forall maze k, Sound maze ->
    exists maze', punch n W H rng maze k = Some maze' /\ Sound maze'.
Proof.
  induction n as [| n IH]; intros maze k HS; [cbn; eauto |].
  cbn [punch].
  set (x := 2 + scaled (rng k) (W - 4)). set (y := 2 + scaled (rng (S k)) (H - 4)).
  assert (2 <= x <= W - 3) as Hx.
  { destruct (rng_unit k) as [H0 H1].
    pose proof (scaled_range (rng k) (W - 4) H0 H1 ltac:(unfold W; lia)). unfold x. lia. }
  assert (2 <= y <= H - 3) as Hy.
  { destruct (rng_unit (S k)) as [H0 H1].
    pose proof (scaled_range (rng (S k)) (H - 4) H0 H1 ltac:(unfold H; lia)). unfold y. lia. }
  rewrite !rem2_even, !rem2_odd by lia.
  assert (forall (b : bool) m,
            (b = true -> (Z.even x = true /\ Z.odd y = true) \/
                         (Z.odd x = true /\ Z.even y = true)) ->
            Sound m ->
            exists m', (if b then setCell m (x, y) 0 else Some m) = Some m' /\ Sound m')
    as Hstep.
  { intros [|] m Hb Hm; [| eauto].
    apply open_connector_sound; auto. }
  destruct (Hstep (Z.even x && Z.odd y) maze) as (m1 & -> & HS1); [| exact HS |].
  { intros Hb. apply andb_prop in Hb. left. exact Hb. }
  destruct (Hstep (Z.odd x && Z.even y) m1) as (m2 & -> & HS2); [| exact HS1 |].
  { intros Hb. apply andb_prop in Hb. right. exact Hb. }
  apply IH. exact HS2.
Qed.

Lemma generateMaze_sound :
  exists maze, generateMaze width height rng = Some maze /\ Sound maze.
Proof.
  destruct (carve_spec width height width3 height3 rng rng_unit) as (maze & k & Hc & HI).
  unfold generateMaze. rewrite Hc. apply punch_sound. apply carved_sound. exact HI.
Qed.

End Final.

(** In a sound maze [findPath] reaches every open cell from the start
    room, through open cells only. *)
Lemma sound_routes (width height : nat) (maze : grid) (c : node) :
  (5 <= width)%nat -> (5 <= height)%nat -> Sound width height maze ->
  inGrid width height c -> cellAt maze c = Some 0%nat ->
  exists p, findPath maze (1, 1) c = Path p /\
    head p = Some (1, 1) /\ last p = Some c /\
    Forall (fun c' => cellAt maze c' = Some 0%nat) p.
Proof.
  intros Hw Hh HS Hc Ho.
  assert (3 <= width)%nat as Hw3 by lia. assert (3 <= height)%nat as Hh3 by lia.
  apply isOpen_true in Ho.
  destruct (s_conn _ _ _ HS c Hc Ho) as [n Hwalk].
  pose proof (findPath_spec maze (1, 1) c) as Hspec.
  destruct (findPath maze (1, 1) c) as [p | |]; [| | contradiction].
  + destruct Hspec as (g & _ & _ & _ & _ & Hhd & Hlast & Hp).
    exists p. split; [reflexivity |]. split; [exact Hhd |]. split; [exact Hlast |].
    assert (isOpen maze (1, 1) = true) as Hstart.
    { apply (s_rooms _ _ _ HS). apply isRoom_parts. cbn. repeat split; lia. }
    assert (inGrid width height (1, 1)) as Hg1 by (unfold inGrid; cbn; lia).
    pose proof (isPath_open maze p Hp) as Hopen.
    eapply Forall_impl; [apply Hopen |].
    * intros c0 Hc0. rewrite Hhd in Hc0. injection Hc0 as <-.
      apply (blocked_false width height Hw3 Hh3 maze _ (s_wf _ _ _ HS)).
      split; [exact Hg1 |]. apply isOpen_true in Hstart. rewrite Hstart. discriminate.
    * intros c' Hb. cbn in Hb.
      apply (blocked_false width height Hw3 Hh3 maze c' (s_wf _ _ _ HS)) in Hb as [Hg' Hne].
      destruct (s_bin _ _ _ HS c' Hg') as [H0 | H1]; [exact H0 | congruence].
  + exfalso. exact (Hspec n Hwalk).
Qed.

(** X10: for sizes from 5 on, the maze returned is enclosed: every cell
    is 0 or 1, every cell of the outer ring is a wall, and so is every
    cell with two even coordinates; neither the carving nor an extra
    opening ever opens one. *)
Theorem generateMaze_enclosed (width height : nat) (rng : random) :
  (5 <= width)%nat -> (5 <= height)%nat ->
  (forall k, (0 <= rng k)%Q /\ (rng k < 1)%Q) ->
  exists maze, generateMaze width height rng = Some maze /\
    forall c, c ∈ gridCells width height ->
      (cellAt maze c = Some 0%nat \/ cellAt maze c = Some 1%nat) /\
      (onBorder (Z.of_nat width) (Z.of_nat height) c || isPillar c = true ->
       cellAt maze c = Some 1%nat).
Proof.
  intros Hw Hh Hrng.
  destruct (generateMaze_sound width height Hw Hh rng Hrng) as (maze & Hgen & HS).
  exists maze. split; [exact Hgen |]. intros c Hc.
  apply (gridCells_spec width height ltac:(lia) ltac:(lia)) in Hc.
  split; [exact (s_bin _ _ _ HS c Hc) | exact (s_closed _ _ _ HS c Hc)].
Qed.

Lemma generateMaze_enclosed_witness :
  exists maze, generateMaze 7 5 (fun _ => 0%Q) = Some maze /\
    forall c, c ∈ gridCells 7 5 ->
      (cellAt maze c = Some 0%nat \/ cellAt maze c = Some 1%nat) /\
      (onBorder 7 5 c || isPillar c = true -> cellAt maze c = Some 1%nat).
Proof.
  apply (generateMaze_enclosed 7 5 (fun _ => 0%Q)); try lia.
  intros _. split; [apply Qle_refl | reflexivity].
Defined.

(** X11: for sizes from 5 on, the maze returned has no isolated part:
    every room is open, and from the start room (1, 1) [findPath] finds
    a path to every open cell of the grid, through open cells only. *)
Theorem generateMaze_reachable (width height : nat) (rng : random) :
  (5 <= width)%nat -> (5 <= height)%nat ->
  (forall k, (0 <= rng k)%Q /\ (rng k < 1)%Q) ->
  exists maze, generateMaze width height rng = Some maze /\
    (forall c, isRoom (Z.of_nat width) (Z.of_nat height) c = true ->
       cellAt maze c = Some 0%nat) /\
    (forall c, c ∈ gridCells width height -> cellAt maze c = Some 0%nat ->
       exists p, findPath maze (1, 1) c = Path p /\
         head p = Some (1, 1) /\ last p = Some c /\
         Forall (fun c' => cellAt maze c' = Some 0%nat) p).
Proof.
  intros Hw Hh Hrng.
  destruct (generateMaze_sound width height Hw Hh rng Hrng) as (maze & Hgen & HS).
  exists maze. split; [exact Hgen |]. split.
  - intros c Hr. apply isOpen_true. exact (s_rooms _ _ _ HS c Hr).
  - intros c Hc Ho.
    apply (gridCells_spec width height ltac:(lia) ltac:(lia)) in Hc.
    exact (sound_routes width height maze c Hw Hh HS Hc Ho).
Qed.

Lemma generateMaze_reachable_witness :
  exists maze, generateMaze 7 5 (fun _ => 0%Q) = Some maze /\
    forall c, isRoom 7 5 c = true -> cellAt maze c = Some 0%nat.
Proof.
  destruct (generateMaze_reachable 7 5 (fun _ => 0%Q)) as (maze & Hg & Hr & _); try lia.
  - intros _. split; [apply Qle_refl | reflexivity].
  - exists maze. split; [exact Hg | exact Hr].
Defined.

(** X12: every level can be won: at every level from 0 on, in the maze
    generated for the size of that level, [findPath] from the cell of
    the player's start (1, 1) to the cell of the goal
    (size - 2, size - 2) returns a path through open cells. *)
Theorem level_solvable (level : Z) (rng : random) :
  0 <= level ->
  (forall k, (0 <= rng k)%Q /\ (rng k < 1)%Q) ->
  let size := mazeSize level in
  exists maze p,
    generateMaze (Z.to_nat size) (Z.to_nat size) rng = Some maze /\
    findPath maze (1, 1) (size - 2, size - 2) = Path p /\
    head p = Some (1, 1) /\ last p = Some (size - 2, size - 2) /\
    Forall (fun c => cellAt maze c = Some 0%nat) p.
Proof.
  intros Hl Hrng. cbv zeta.
  destruct (mazeSize_odd_bounded level Hl) as [Hodd Hrange].
  set (size := mazeSize level) in *.
  destruct (generateMaze_sound (Z.to_nat size) (Z.to_nat size) ltac:(lia) ltac:(lia)
              rng Hrng) as (maze & Hgen & HS).
  assert (isRoom (Z.of_nat (Z.to_nat size)) (Z.of_nat (Z.to_nat size))
                 (size - 2, size - 2) = true) as Hgoal.
  { apply isRoom_parts. cbn [nx nz fst snd]. rewrite !Z2Nat.id by lia.
    split; [lia |]. rewrite Z.odd_sub, Hodd. split; reflexivity. }
  destruct (sound_routes (Z.to_nat size) (Z.to_nat size) maze (size - 2, size - 2))
    as (p & Hp & Hhd & Hlast & Hopen); [lia | lia | exact HS | | |].
  - unfold inGrid. cbn [nx nz fst snd]. lia.
  - apply isOpen_true. exact (s_rooms _ _ _ HS _ Hgoal).
  - exists maze, p. repeat split; assumption.
Qed.

Lemma level_solvable_witness :
  exists maze p,
    generateMaze 31 31 (fun _ => 0%Q) = Some maze /\
    findPath maze (1, 1) (29, 29) = Path p /\ head p = Some (1, 1).
Proof.
  destruct (level_solvable 1 (fun _ => 0%Q) ltac:(lia)) as (maze & p & Hg & Hp & Hh & _).
  - intros _. split; [apply Qle_refl | reflexivity].
  - exists maze, p. split; [exact Hg |]. split; [exact Hp | exact Hh].
Defined.

End Labyrinth.

(** ** Walls: the first block of #collisionSystem *)

Module Walls.
Import Pathfinder.

Local Open Scope R_scope.

Definition CELL_SIZE : R := 5 / 2.
Definition PLAYER_RADIUS : R := 1 / 2.
Definition WALL_RESTITUTION : R := 2 / 5.

(** The player's [Position] and [Velocity] in the plane; the block
    reads [playerPos.y] only to place sparks. *)
Record body := mkBody { posX : R; posZ : R; velX : R; velZ : R }.

(** [Math.floor] *)
Definition floor (r : R) : Z := Int_part r.

(** [maze[z] && maze[z][x]] is truthy: the cell exists and holds a
    number other than 0. *)
Definition solid (maze : grid) (c : node) : bool :=
  match cellAt maze c with
  | Some v => negb (v =? 0)%nat && negb (v =? Maze.hole)%nat
  | None => false
  end.

(** [(x - halfSize) * cellSize] *)
Definition world (size g : Z) : R := (IZR g - IZR size / 2) * CELL_SIZE.

(** [Math.max(lo, Math.min(v, hi))] *)
Definition nearest (lo v hi : R) : R := Rmax lo (Rmin v hi).

(** The point of the box of cell [c] closest to the player. *)
Definition closest (size : Z) (b : body) (c : node) : R * R :=
  (nearest (world size (nx c) - CELL_SIZE / 2) (posX b) (world size (nx c) + CELL_SIZE / 2),
   nearest (world size (nz c) - CELL_SIZE / 2) (posZ b) (world size (nz c) + CELL_SIZE / 2)).

Definition distanceSq (size : Z) (b : body) (c : node) : R :=
  let dx := posX b - fst (closest size b c) in
  let dz := posZ b - snd (closest size b c) in
  dx * dx + dz * dz.


(** The body of the two loops for a solid cell: the player after it,
    and the place of the spark it asks for, if any. *)
Definition resolveWall (size : Z) (b : body) (c : node) : body * list (R * R) :=
  let closestX := fst (closest size b c) in
  let closestZ := snd (closest size b c) in
  let dx := posX b - closestX in
  let dz := posZ b - closestZ in
  let distanceSq := dx * dx + dz * dz in
  if Rlt_dec distanceSq (PLAYER_RADIUS * PLAYER_RADIUS) then
    let distance := Contact.orOne (sqrt distanceSq) in
    let normX := dx / distance in
    let normZ := dz / distance in
    let penetration := PLAYER_RADIUS - distance in
    let dot := velX b * normX + velZ b * normZ in
    let b' := mkBody (posX b + normX * penetration) (posZ b + normZ * penetration)
                     (velX b - (1 + WALL_RESTITUTION) * dot * normX)
                     (velZ b - (1 + WALL_RESTITUTION) * dot * normZ) in
    (b', if Rlt_dec 2 (Contact.hypot (velX b') (velZ b'))
         then [(closestX, closestZ)] else [])
  else (b, []).

(** [for (let v = lo; v <= hi; v += 1)] *)
Definition range (lo hi : Z) : list Z :=
  map (fun i => (lo + Z.of_nat i)%Z) (seq 0 (Z.to_nat (hi - lo + 1))).

(** The cells the two loops visit, in their order: [gridX] and [gridZ]
    are computed once, before the loops. *)
Definition window (size : Z) (b : body) : list node :=
  let gridX := floor (posX b / CELL_SIZE + IZR size / 2) in
  let gridZ := floor (posZ b / CELL_SIZE + IZR size / 2) in
  flat_map (fun z => map (fun x => (x, z))
                         (range (Z.max 0 (gridX - 1)) (Z.min (size - 1) (gridX + 1))))
           (range (Z.max 0 (gridZ - 1)) (Z.min (size - 1) (gridZ + 1))).

(** The whole block. *)
Definition wallBlock (size : Z) (maze : grid) (b : body) : body * list (R * R) :=
  fold_left (fun acc c =>
               if solid maze c then
                 (fst (resolveWall size (fst acc) c),
                  snd acc ++ snd (resolveWall size (fst acc) c))
               else acc)
            (window size b) (b, []).

Lemma range_spec (lo hi v : Z) : v ∈ range lo hi <-> (lo <= v <= hi)%Z.
Proof.
  unfold range. rewrite list_elem_of_fmap. split.
  - intros (i & -> & Hi). apply list_elem_of_In, in_seq in Hi. lia.
  - intros Hv. exists (Z.to_nat (v - lo)). split; [lia |].
    apply list_elem_of_In, in_seq. lia.
Qed.

Lemma nearest_bounds (lo v hi : R) : lo <= hi -> lo <= nearest lo v hi <= hi.
Proof.
  intros Hle. unfold nearest, Rmax, Rmin.
  destruct (Rle_dec v hi); destruct (Rle_dec lo _); lra.
Qed.

Lemma distanceSq_nonneg size b c : 0 <= distanceSq size b c.
Proof. unfold distanceSq. cbv zeta. apply Rplus_le_le_0_compat; apply Rle_0_sqr. Qed.




(** The player 0.3 to the left of the box of cell (1, 1) of a 3 by 3
    maze, moving right. *)
Definition grazing : body := mkBody (- 14 / 5) 0 3 1.

Lemma grazing_distance : distanceSq 3 grazing (1, 1)%Z = 9 / 100.
Proof.
  unfold distanceSq, closest, nearest, world, grazing, CELL_SIZE. cbn [fst snd posX posZ nx nz].
  unfold Rmax, Rmin.
  repeat (destruct (Rle_dec _ _); try lra).
Qed.


(** X16: the 3 by 3 window of cells around the player's cell misses no
    wall: every cell of the grid whose box is closer to the player than
    the player's radius is one of the cells the two loops visit. *)
Theorem wall_window_complete (size : Z) (b : body) (c : node) :
  (0 <= nx c < size)%Z -> (0 <= nz c < size)%Z ->
  distanceSq size b c < PLAYER_RADIUS * PLAYER_RADIUS ->
  c ∈ window size b.
Proof.
  intros Hx Hz Hd.
  assert (forall (g : Z) (v : R),
            (v - nearest (world size g - CELL_SIZE / 2) v (world size g + CELL_SIZE / 2))
            * (v - nearest (world size g - CELL_SIZE / 2) v (world size g + CELL_SIZE / 2))
            < 1 / 4 ->
            (floor (v / CELL_SIZE + IZR size / 2) <= g
             <= floor (v / CELL_SIZE + IZR size / 2) + 1)%Z) as Haxis.
  { intros g v Hsq.
    pose proof (nearest_bounds (world size g - CELL_SIZE / 2) v (world size g + CELL_SIZE / 2)
                  ltac:(unfold CELL_SIZE; lra)) as [Hlo Hhi].
    set (q := nearest _ v _) in *.
    assert (- (1 / 2) < v - q < 1 / 2) as Hdx by (split; nra).
    unfold floor. destruct (base_Int_part (v / CELL_SIZE + IZR size / 2)) as [Hfl Hfu].
    set (fl := Int_part _) in *.
    assert (IZR g - 7 / 10 < v / CELL_SIZE + IZR size / 2 < IZR g + 7 / 10) as Hr.
    { unfold world, CELL_SIZE in *. split.
      - apply Rmult_lt_reg_r with (5 / 2); [lra |].
        replace ((v / (5 / 2) + IZR size / 2) * (5 / 2)) with (v + IZR size / 2 * (5 / 2))
          by (field; lra). lra.
      - apply Rmult_lt_reg_r with (5 / 2); [lra |].
        replace ((v / (5 / 2) + IZR size / 2) * (5 / 2)) with (v + IZR size / 2 * (5 / 2))
          by (field; lra). lra. }
    split.
    - apply Z.lt_succ_r. apply lt_IZR. rewrite succ_IZR. lra.
    - apply Z.lt_succ_r. apply lt_IZR. rewrite succ_IZR, plus_IZR. lra. }
  unfold distanceSq, closest, PLAYER_RADIUS in Hd. cbv zeta in Hd. cbn [fst snd] in Hd.
  set (ex := (posX b - nearest _ (posX b) _) * _) in Hd.
  set (ez := (posZ b - nearest _ (posZ b) _) * _) in Hd.
  assert (0 <= ex) as Hex by (unfold ex; apply Rle_0_sqr).
  assert (0 <= ez) as Hez by (unfold ez; apply Rle_0_sqr).
  pose proof (Haxis (nx c) (posX b) ltac:(fold ex; lra)) as Hgx.
  pose proof (Haxis (nz c) (posZ b) ltac:(fold ez; lra)) as Hgz.
  unfold window. cbv zeta. apply list_elem_of_In, in_flat_map.
  exists (nz c). split.
  - apply list_elem_of_In, range_spec. lia.
  - apply list_elem_of_In, list_elem_of_fmap. exists (nx c).
    split; [destruct c; reflexivity |]. apply range_spec. lia.
Qed.

Lemma wall_window_complete_witness : (1, 1)%Z ∈ window 3 grazing.
Proof.
  apply (wall_window_complete 3 grazing (1, 1)%Z); cbn; try lia.
  rewrite grazing_distance. unfold PLAYER_RADIUS. lra.
Defined.

End Walls.

(** ** Enemies pushing each other apart: the fifth block of #collisionSystem *)

Module Crowd.

Local Open Scope R_scope.












End Crowd.

(** ** The particle pool (#initializeParticlePool, #spawnParticle,
       #createParticleBurst, #particleSystem) *)

Module Particles.

Local Open Scope Q_scope.

Definition vec : Type := Q * Q * Q.

(** What the game keeps for one pooled entity: its [Particle]
    component, its [Position] and [Velocity], and of its mesh the
    colour, the opacity and the visibility. *)
Record slot := mkSlot {
  active : bool;
  life : Q;
  maxLife : Q;
  position : vec;
  velocity : vec;
  color : Z;
  opacity : Q;
  visible : bool
}.

(** [ids] is [queries.particles] in iteration order; the head of
    [particlePool] is the end of the array, where [push] and [pop]
    work. *)
Record state := mkState {
  ids : list nat;
  slots : gmap nat slot;
  particlePool : list nat
}.

Definition PARTICLE_BASE_LIFE : Q := 20.
Definition PARTICLE_LIFE_VARIANCE : Q := 20.

(** [#initializeParticlePool()] for the entities [eids], in the order
    in which [addEntity] returned them. *)
Definition initializeParticlePool (eids : list nat) : state :=
  fold_left
    (fun s eid =>
       mkState (ids s ++ [eid])
               (<[eid := mkSlot false 0 60 (0, 0, 0) (0, 0, 0) 16777215 1 false]> (slots s))
               (eid :: particlePool s))
    eids (mkState [] ∅ []).

(** [#spawnParticle(x, y, z, color, life, velocity)]; [None] is the
    TypeError of a pooled id without components. *)
Definition spawnParticle (p : vec) (c : Z) (l : Q) (v : vec) (s : state) : option state :=
  match particlePool s with
  | [] => Some s
  | eid :: rest =>
      match slots s !! eid with
      | None => None
      | Some _ =>
          Some (mkState (ids s)
                        (<[eid := mkSlot true l l p v c 1 true]> (slots s))
                        rest)
      end
  end.

(** [#createParticleBurst(x, y, z, color, count)]; [k] counts the calls
    of [Math.random], four for every particle asked for. *)
Fixpoint createParticleBurst (p : vec) (c : Z) (count : nat) (rng : nat -> Q)
    (k : nat) (s : state) : option (state * nat) :=
  match count with
  | O => Some (s, k)
  | S count' =>
      let v := ((rng k - (1 # 2)) * 3, (rng (1 + k)%nat - (1 # 2)) * 3,
                (rng (2 + k)%nat - (1 # 2)) * 3) in
      let l := PARTICLE_BASE_LIFE + rng (3 + k)%nat * PARTICLE_LIFE_VARIANCE in
      match spawnParticle p c l v s with
      | None => None
      | Some s1 => createParticleBurst p c count' rng (4 + k) s1
      end
  end.

(** The body of the loop of [#particleSystem()] for [eid]. *)
Definition age (eid : nat) (s : state) : option state :=
  match slots s !! eid with
  | None => None
  | Some sl =>
      if active sl then
        let l := life sl - 1 in
        if Qle_bool l 0 then
          Some (mkState (ids s)
                        (<[eid := mkSlot false l (maxLife sl) (position sl) (velocity sl)
                                         (color sl) (opacity sl) false]> (slots s))
                        (eid :: particlePool s))
        else
          Some (mkState (ids s)
                        (<[eid := mkSlot true l (maxLife sl) (position sl) (velocity sl)
                                         (color sl) (l / maxLife sl) (visible sl)]> (slots s))
                        (particlePool s))
      else Some s
  end.

(** [#particleSystem()] *)
Definition particleSystem (s : state) : option state :=
  fold_left (fun cur eid => cur ≫= age eid) (ids s) (Some s).

(** What the rest of the game does to the pool. *)
Inductive op :=
| Spawn (p : vec) (c : Z) (l : Q) (v : vec)
| Burst (p : vec) (c : Z) (count : nat)
| Tick.

Definition perform (rng : nat -> Q) (cur : option (state * nat)) (o : op)
    : option (state * nat) :=
  cur ≫= fun sk =>
    match o with
    | Spawn p c l v => spawnParticle p c l v (fst sk) ≫= fun s => Some (s, snd sk)
    | Burst p c count => createParticleBurst p c count rng (snd sk) (fst sk)
    | Tick => particleSystem (fst sk) ≫= fun s => Some (s, snd sk)
    end.

Definition run (rng : nat -> Q) (ops : list op) (s : state) : option (state * nat) :=
  fold_left (perform rng) ops (Some (s, 0%nat)).

(** The invariant: the pool holds each idle particle once, and no
    other; a particle is shown exactly while it is active. *)
Definition consistent (s : state) : Prop :=
  NoDup (particlePool s) /\
  (forall eid, eid ∈ particlePool s -> eid ∈ ids s) /\
  forall eid, eid ∈ ids s ->
    exists sl, slots s !! eid = Some sl /\
      (active sl = false <-> eid ∈ particlePool s) /\ visible sl = active sl.

Lemma initializeParticlePool_consistent (eids : list nat) :
  NoDup eids ->
  consistent (initializeParticlePool eids) /\
  ids (initializeParticlePool eids) = eids /\
  particlePool (initializeParticlePool eids) = rev eids.
Proof.
  intros Hnd. unfold initializeParticlePool.
  assert (forall (todo : list nat) (s : state),
            NoDup (ids s ++ todo) -> consistent s -> particlePool s = rev (ids s) ->
            let s' := fold_left
                        (fun s eid =>
                           mkState (ids s ++ [eid])
                             (<[eid := mkSlot false 0 60 (0, 0, 0) (0, 0, 0) 16777215 1 false]>
                                (slots s))
                             (eid :: particlePool s)) todo s in
            consistent s' /\ ids s' = ids s ++ todo /\ particlePool s' = rev (ids s'))
    as Hgen.
  { induction todo as [| eid todo IH]; intros s Hall Hc Hp.
    - cbn. rewrite app_nil_r. auto.
    - cbn [fold_left].
      set (s1 := mkState _ _ _).
      assert (eid ∉ ids s) as Hfresh.
      { apply NoDup_app in Hall as (_ & Hdis & _). intros Hin.
        apply (Hdis eid Hin). apply list_elem_of_here. }
      destruct (IH s1) as (H1 & H2 & H3).
      + cbn. rewrite <- app_assoc. exact Hall.
      + destruct Hc as (Hnp & Hsub & Hsl). split; [| split].
        * cbn. constructor; [| exact Hnp]. intros Hin. apply Hfresh, Hsub, Hin.
        * cbn. intros e He. apply elem_of_cons in He as [-> | He].
          -- apply elem_of_app. right. apply list_elem_of_here.
          -- apply elem_of_app. left. apply Hsub, He.
        * cbn. intros e He. apply elem_of_app in He as [He | He].
          -- destruct (Hsl e He) as (sl & Hl & Ha & Hv). exists sl.
             assert (e <> eid) as Hne by (intros ->; contradiction).
             rewrite lookup_insert_ne by congruence.
             split; [exact Hl |]. split; [| exact Hv].
             rewrite Ha, elem_of_cons. split; [tauto |]. intros [? | ?]; [congruence | assumption].
          -- apply list_elem_of_singleton in He as ->. eexists.
             rewrite lookup_insert_eq. split; [reflexivity |]. cbn.
             split; [| reflexivity]. split; [intros _; apply list_elem_of_here | reflexivity].
      + cbn. rewrite Hp, rev_app_distr. reflexivity.
      + split; [exact H1 |]. split; [| exact H3].
        rewrite H2. cbn. rewrite <- app_assoc. reflexivity. }
  destruct (Hgen eids (mkState [] ∅ [])) as (H1 & H2 & H3).
  - exact Hnd.
  - split; [constructor |]. split; intros e He; by apply elem_of_nil in He.
  - reflexivity.
  - split; [exact H1 |]. split; [exact H2 |]. rewrite H3. f_equal. exact H2.
Qed.

Lemma spawnParticle_consistent p c l v s :
  consistent s ->
  exists s', spawnParticle p c l v s = Some s' /\ consistent s' /\ ids s' = ids s /\
    length (particlePool s') = Nat.pred (length (particlePool s)).
Proof.
  intros (Hnp & Hsub & Hsl). unfold spawnParticle.
  destruct (particlePool s) as [| eid rest] eqn:Hp.
  - exists s. split; [reflexivity |]. split; [| split; [reflexivity | rewrite Hp; reflexivity]].
    split; [rewrite Hp; exact Hnp |]. rewrite Hp. split; assumption.
  - destruct (Hsl eid (Hsub eid (list_elem_of_here _ _))) as (sl & Hl & _).
    rewrite Hl. eexists. split; [reflexivity |].
    apply NoDup_cons in Hnp as [Hout Hnr].
    split; [| split; reflexivity]. split; [exact Hnr |]. split.
    + cbn. intros e He. apply Hsub. apply list_elem_of_further. exact He.
    + cbn. intros e He. destruct (decide (e = eid)) as [-> | Hne].
      * eexists. rewrite lookup_insert_eq. split; [reflexivity |]. cbn.
        split; [| reflexivity]. split; [discriminate | contradiction].
      * destruct (Hsl e He) as (sl' & Hl' & Ha & Hv). exists sl'.
        rewrite lookup_insert_ne by congruence. split; [exact Hl' |].
        split; [| exact Hv]. rewrite Ha, elem_of_cons. split; [| tauto].
        intros [? | ?]; [congruence | assumption].
Qed.

Lemma createParticleBurst_consistent p c rng (count : nat) :
  forall k s, consistent s ->
    exists s', createParticleBurst p c count rng k s = Some (s', (4 * count + k)%nat) /\
      consistent s' /\ ids s' = ids s /\
      length (particlePool s') = (length (particlePool s) - count)%nat.
Proof.
  induction count as [| count IH]; intros k s Hc.
  - exists s. cbn. rewrite Nat.sub_0_r. auto.
  - cbn [createParticleBurst].
    destruct (spawnParticle_consistent p c
                (PARTICLE_BASE_LIFE + rng (3 + k)%nat * PARTICLE_LIFE_VARIANCE)
                ((rng k - (1 # 2)) * 3, (rng (1 + k)%nat - (1 # 2)) * 3,
                 (rng (2 + k)%nat - (1 # 2)) * 3) s Hc) as (s1 & -> & Hc1 & Hi1 & Hl1).
    destruct (IH (4 + k)%nat s1 Hc1) as (s' & Hs' & Hc' & Hi' & Hl').
    exists s'. split; [rewrite Hs'; do 2 f_equal; lia |].
    split; [exact Hc' |]. split; [congruence | lia].
Qed.

Lemma age_consistent eid s :
  consistent s -> eid ∈ ids s ->
  exists s', age eid s = Some s' /\ consistent s' /\ ids s' = ids s.
Proof.
  intros (Hnp & Hsub & Hsl) Hin. unfold age.
  destruct (Hsl eid Hin) as (sl & Hl & Ha & Hv). rewrite Hl.
  destruct (active sl) eqn:Hact; [| exists s; repeat split; assumption].
  assert (eid ∉ particlePool s) as Hout by (intros H; apply Ha in H; discriminate).
  destruct (Qle_bool (life sl - 1) 0).
  - eexists. split; [reflexivity |]. split; [| reflexivity]. split; [| split].
    + cbn. constructor; assumption.
    + cbn. intros e He. apply elem_of_cons in He as [-> | He]; [exact Hin | exact (Hsub e He)].
    + cbn. intros e He. destruct (decide (e = eid)) as [-> | Hne].
      * eexists. rewrite lookup_insert_eq. split; [reflexivity |]. cbn.
        split; [| reflexivity]. split; [intros _; apply list_elem_of_here | reflexivity].
      * destruct (Hsl e He) as (sl' & Hl' & Ha' & Hv'). exists sl'.
        rewrite lookup_insert_ne by congruence. split; [exact Hl' |].
        split; [| exact Hv']. rewrite Ha', elem_of_cons. split; [tauto |].
        intros [? | ?]; [congruence | assumption].
  - eexists. split; [reflexivity |]. split; [| reflexivity]. split; [exact Hnp |]. split.
    + exact Hsub.
    + cbn. intros e He. destruct (decide (e = eid)) as [-> | Hne].
      * eexists. rewrite lookup_insert_eq. split; [reflexivity |]. cbn.
        split; [| rewrite Hv; reflexivity]. split; [discriminate | contradiction].
      * destruct (Hsl e He) as (sl' & Hl' & Ha' & Hv'). exists sl'.
        rewrite lookup_insert_ne by congruence. auto.
Qed.

Lemma particleSystem_consistent s :
  consistent s ->
  exists s', particleSystem s = Some s' /\ consistent s' /\ ids s' = ids s.
Proof.
  intros Hc. unfold particleSystem.
  assert (forall (todo : list nat) (cur : state),
            consistent cur -> ids cur = ids s -> (forall e, e ∈ todo -> e ∈ ids s) ->
            exists s', fold_left (fun cur eid => cur ≫= age eid) todo (Some cur) = Some s' /\
                       consistent s' /\ ids s' = ids s) as Hloop.
  { induction todo as [| eid todo IH]; intros cur Hcur Hids Htodo; [cbn; eauto |].
    cbn [fold_left mbind option_bind].
    destruct (age_consistent eid cur Hcur) as (s1 & -> & Hc1 & Hi1).
    - rewrite Hids. apply Htodo. apply list_elem_of_here.
    - apply IH; [exact Hc1 | congruence |].
      intros e He. apply Htodo. apply list_elem_of_further. exact He. }
  apply Hloop; auto.
Qed.

(** The number of active particles. *)
Definition activeCount (s : state) : nat :=
  length (List.filter (fun eid => match slots s !! eid with
                                  | Some sl => active sl
                                  | None => false
                                  end) (ids s)).

Lemma filter_split (f : nat -> bool) (l : list nat) :
  (length (List.filter f l) + length (List.filter (fun x => negb (f x)) l) = length l)%nat.
Proof.
  induction l as [| a l IH]; cbn; [reflexivity |].
  destruct (f a); cbn; lia.
Qed.

Lemma consistent_count s :
  consistent s -> NoDup (ids s) ->
  (activeCount s + length (particlePool s) = length (ids s))%nat.
Proof.
  intros (Hnp & Hsub & Hsl) Hni. unfold activeCount.
  rewrite <- (filter_split (fun eid => match slots s !! eid with
                                       | Some sl => active sl
                                       | None => false
                                       end) (ids s)).
  f_equal. apply Permutation_length. apply NoDup_Permutation.
  - exact Hnp.
  - apply NoDup_ListNoDup, List.NoDup_filter, NoDup_ListNoDup. exact Hni.
  - intros e. rewrite (list_elem_of_In (List.filter _ _)), filter_In, <- list_elem_of_In.
    split.
    + intros He. split; [exact (Hsub e He) |].
      destruct (Hsl e (Hsub e He)) as (sl & -> & Ha & _).
      apply negb_true_iff, Ha. exact He.
    + intros [He Hf]. destruct (Hsl e He) as (sl & Hl & Ha & _).
      rewrite Hl in Hf. apply Ha. apply negb_true_iff. exact Hf.
Qed.

Lemma run_consistent (eids : list nat) (rng : nat -> Q) (ops : list op) :
  NoDup eids ->
  exists s k, run rng ops (initializeParticlePool eids) = Some (s, k) /\
    consistent s /\ ids s = eids.
Proof.
  intros Hnd.
  destruct (initializeParticlePool_consistent eids Hnd) as (Hc0 & Hi0 & _).
  unfold run.
  assert (forall (ops : list op) (s0 : state) (k0 : nat),
            consistent s0 -> ids s0 = eids ->
            exists s k, fold_left (perform rng) ops (Some (s0, k0)) = Some (s, k) /\
                        consistent s /\ ids s = eids) as Hrun.
  { clear ops. induction ops as [| o ops IH]; intros s0 k0 Hc Hi; [cbn; eauto |].
    cbn [fold_left]. destruct o as [p c l v | p c count |]; cbn [perform mbind option_bind fst snd].
    - destruct (spawnParticle_consistent p c l v s0 Hc) as (s1 & -> & Hc1 & Hi1 & _).
      cbn. apply IH; [exact Hc1 | congruence].
    - destruct (createParticleBurst_consistent p c rng count k0 s0 Hc)
        as (s1 & -> & Hc1 & Hi1 & _).
      apply IH; [exact Hc1 | congruence].
    - destruct (particleSystem_consistent s0 Hc) as (s1 & -> & Hc1 & Hi1).
      cbn. apply IH; [exact Hc1 | congruence]. }
  exact (Hrun ops _ 0%nat Hc0 Hi0).
Qed.

(** X19: from the pool as [#initializeParticlePool] builds it, along
    every sequence of spawns, bursts and ticks: no step fails, the pool
    holds every idle particle exactly once and no active one (so a
    particle in use is never handed out again), a particle is visible
    exactly while it is active, and the active particles and the pool
    together are all the particles. *)
Theorem pool_consistent (eids : list nat) (rng : nat -> Q) (ops : list op) :
  NoDup eids ->
  exists s k, run rng ops (initializeParticlePool eids) = Some (s, k) /\
    ids s = eids /\ NoDup (particlePool s) /\
    (forall eid, eid ∈ eids ->
       exists sl, slots s !! eid = Some sl /\
         (active sl = false <-> eid ∈ particlePool s) /\ visible sl = active sl) /\
    (activeCount s + length (particlePool s) = length eids)%nat.
Proof.
  intros Hnd.
  destruct (run_consistent eids rng ops Hnd) as (s & k & Hs & Hc & Hi).
  exists s, k. split; [exact Hs |]. split; [exact Hi |].
  pose proof (consistent_count s Hc ltac:(rewrite Hi; exact Hnd)) as Hcount.
  destruct Hc as (Hnp & _ & Hsl). split; [exact Hnp |]. split.
  - intros eid He. apply Hsl. rewrite Hi. exact He.
  - rewrite <- Hi. exact Hcount.
Qed.

Lemma pool_consistent_witness :
  exists s k,
    run (fun _ => 1 # 2) [Burst (0, 0, 0) 255 2; Tick; Spawn (1, 1, 1) 0 1 (0, 0, 0); Tick]
        (initializeParticlePool [4; 5; 6]%nat) = Some (s, k) /\
    (activeCount s + length (particlePool s) = 3)%nat.
Proof.
  destruct (pool_consistent [4; 5; 6]%nat (fun _ => 1 # 2)
              [Burst (0, 0, 0) 255 2; Tick; Spawn (1, 1, 1) 0 1 (0, 0, 0); Tick])
    as (s & k & Hs & _ & _ & _ & Hcount).
  - repeat constructor; set_solver.
  - exists s, k. split; [exact Hs | exact Hcount].
Defined.

(** X20: a burst takes as many particles from the pool as it asks for,
    or all of them when the pool holds fewer: the particles asked for
    beyond that are dropped without an error; it always draws four
    random numbers for every particle asked for. *)
Theorem burst_takes_what_is_left (eids : list nat) (rng : nat -> Q) (ops : list op)
    (p : vec) (c : Z) (count : nat) :
  NoDup eids ->
  exists s k s',
    run rng ops (initializeParticlePool eids) = Some (s, k) /\
    createParticleBurst p c count rng k s = Some (s', (4 * count + k)%nat) /\
    length (particlePool s') = (length (particlePool s) - count)%nat /\
    activeCount s' = (activeCount s + Nat.min count (length (particlePool s)))%nat.
Proof.
  intros Hnd.
  destruct (run_consistent eids rng ops Hnd) as (s & k & Hs & Hc & Hi).
  destruct (createParticleBurst_consistent p c rng count k s Hc)
    as (s' & Hs' & Hc' & Hi' & Hl').
  exists s, k, s'. split; [exact Hs |]. split; [exact Hs' |]. split; [exact Hl' |].
  pose proof (consistent_count s Hc ltac:(rewrite Hi; exact Hnd)) as Hcount.
  pose proof (consistent_count s' Hc' ltac:(rewrite Hi', Hi; exact Hnd)) as Hcount'.
  rewrite Hi', Hi in Hcount'. rewrite Hi in Hcount. lia.
Qed.

Lemma burst_takes_what_is_left_witness :
  exists s k s',
    run (fun _ => 1 # 2) [Spawn (1, 1, 1) 0 1 (0, 0, 0)]
        (initializeParticlePool [4; 5; 6]%nat) = Some (s, k) /\
    createParticleBurst (0, 0, 0) 255 5 (fun _ => 1 # 2) k s = Some (s', (4 * 5 + k)%nat) /\
    length (particlePool s') = (length (particlePool s) - 5)%nat /\
    activeCount s' = (activeCount s + Nat.min 5 (length (particlePool s)))%nat.
Proof.
  apply (burst_takes_what_is_left [4; 5; 6]%nat (fun _ => 1 # 2)
           [Spawn (1, 1, 1) 0 1 (0, 0, 0)] (0, 0, 0) 255 5).
  repeat constructor; set_solver.
Defined.

End Particles.

(** ** The player's trail (#trailSystem) *)

Module Trail.

Definition vec : Type := Q * Q * Q.

(** [while (line.points.length > 60) line.points.shift()] *)
Fixpoint shiftWhileLong (points : list vec) : list vec :=
  match points with
  | [] => []
  | _ :: rest => if 60 <? length points then shiftWhileLong rest else points
  end.

(** The body of the loop of [#trailSystem()] for a line that has
    points: the points kept, and whether the geometry is rebuilt
    ([line.points.length > 1]). *)
Definition trailStep (playerPos : vec) (points : list vec) : list vec * bool :=
  let points1 := shiftWhileLong (points ++ [playerPos]) in
  (points1, 1 <? length points1).

(** The trail after the frames in which the player was at [positions]. *)
Definition follow (positions : list vec) (points : list vec) : list vec :=
  fold_left (fun pts p => fst (trailStep p pts)) positions points.

Lemma shiftWhileLong_drop (points : list vec) :
  shiftWhileLong points = drop (length points - 60) points.
Proof.
  induction points as [| p points IH]; [reflexivity |].
  cbn [shiftWhileLong]. destruct (Nat.ltb_spec 60 (length (p :: points))) as [Hlong | Hshort].
  - rewrite IH. cbn [length] in *.
    replace (S (length points) - 60) with (S (length points - 60)) by lia. reflexivity.
  - replace (length (p :: points) - 60) with 0 by lia. reflexivity.
Qed.

Lemma follow_drop (positions points : list vec) :
  follow positions points
  = drop (length (points ++ positions) - 60) (points ++ positions) \/
  positions = [].
Proof.
  revert points. induction positions as [| p positions IH]; intros points; [right; reflexivity |].
  left.
  change (follow (p :: positions) points)
    with (follow positions (shiftWhileLong (points ++ [p]))).
  destruct (IH (shiftWhileLong (points ++ [p]))) as [H | ->].
  - rewrite H, shiftWhileLong_drop.
    set (L := points ++ [p]).
    replace (points ++ p :: positions) with (L ++ positions)
      by (unfold L; rewrite <- app_assoc; reflexivity).
    destruct (Nat.le_gt_cases (length L) 60) as [Hs | Hl].
    + replace (length L - 60) with 0 by lia. rewrite drop_0. reflexivity.
    + rewrite length_app, length_drop.
      replace (length L - (length L - 60) + length positions - 60)
        with (length positions) by lia.
      rewrite length_app.
      replace (length L + length positions - 60)
        with ((length L - 60) + length positions) by lia.
      rewrite <- drop_drop. rewrite (drop_app_le L) by lia. reflexivity.
  - change (follow [] (shiftWhileLong (points ++ [p]))) with (shiftWhileLong (points ++ [p])).
    rewrite shiftWhileLong_drop. reflexivity.
Qed.

(** X21: the trail is a bounded buffer: after every frame it holds the
    player's most recent positions, oldest first, at most 60 of them;
    started empty, after the frames at [positions] it holds exactly
    the last 60 of them (all, when there are fewer). *)
Theorem trail_keeps_last_60 (positions : list vec) :
  follow positions [] = drop (length positions - 60) positions /\
  length (follow positions []) = Nat.min (length positions) 60 /\
  forall p points,
    fst (trailStep p points) = drop (length points + 1 - 60) (points ++ [p]) /\
    length (fst (trailStep p points)) <= 60 /\
    last (fst (trailStep p points)) = Some p.
Proof.
  assert (follow positions [] = drop (length positions - 60) positions) as Hf.
  { destruct (follow_drop positions []) as [H | ->]; [exact H | reflexivity]. }
  split; [exact Hf |]. split; [rewrite Hf, length_drop; lia |].
  intros p points. cbn [trailStep fst]. rewrite shiftWhileLong_drop, length_app. cbn [length].
  split; [reflexivity |]. split; [rewrite length_drop, length_app; cbn; lia |].
  destruct (Nat.le_gt_cases (length points + 1) 60) as [Hs | Hl].
  - replace (length points + 1 - 60) with 0 by lia. rewrite drop_0. apply last_snoc.
  - rewrite drop_app_le by lia. apply last_snoc.
Qed.

End Trail.

(** ** Fog of war (#fogOfWarSystem) *)

Module Fog.

Local Open Scope Z_scope.

Definition FOG_OF_WAR_RADIUS : Z := 2.

(** [state.visitedCells]: rows indexed by [z]. *)
Abbreviation cells := (list (list bool)).

(** [Math.hypot(dx, dz) <= radius + 0.5] for integers [dx] and [dz]:
    the comparison of the squares, times four. *)
Definition inReach (dx dz : Z) : bool :=
  4 * (dx * dx + dz * dz) <=? (2 * FOG_OF_WAR_RADIUS + 1) * (2 * FOG_OF_WAR_RADIUS + 1).

(** [visitedCells[z][x]], [undefined] reading as [false]. *)
Definition visited (v : cells) (x z : Z) : bool :=
  if (x <? 0) || (z <? 0) then false
  else default false (v !! Z.to_nat z ≫= fun row => row !! Z.to_nat x).

(** [row[x] = true] for [x >= 0]: beyond the end the array grows. *)
Definition setTrue (row : list bool) (x : nat) : list bool :=
  if (x <? length row)%nat then <[x := true]> row
  else row ++ replicate (x - length row) false ++ [true].

(** [visitedCells[cellZ][cellX] = true] for indices that are not
    negative; [None] is the TypeError of a missing row. *)
Definition mark (v : cells) (x z : Z) : option cells :=
  match v !! Z.to_nat z with
  | None => None
  | Some row => Some (<[Z.to_nat z := setTrue row (Z.to_nat x)]> v)
  end.

(** [for (let d = -radius; d <= radius; d += 1)] *)
Definition offsets : list Z :=
  map (fun i => - FOG_OF_WAR_RADIUS + Z.of_nat i) (seq 0 (Z.to_nat (2 * FOG_OF_WAR_RADIUS + 1))).

(** The body of the two loops. *)
Definition visit (size x z : Z) (cur : option cells) (d : Z * Z) : option cells :=
  cur ≫= fun v =>
    let cellX := x + fst d in
    let cellZ := z + snd d in
    if (0 <=? cellZ) && (cellZ <? size) && (0 <=? cellX) && (cellX <? size) &&
       inReach (fst d) (snd d)
    then mark v cellX cellZ
    else Some v.

(** [#fogOfWarSystem()] for a player at world position [(px, pz)]. *)
Definition fogOfWarSystem (size : Z) (px pz : Q) (v : cells) : option cells :=
  let (x, z) := Coords.worldToGrid size px pz in
  fold_left (visit size x z)
            (flat_map (fun dz => map (fun dx => (dx, dz)) offsets) offsets)
            (Some v).

(** A square array of [size] rows of [size] cells. *)
Definition square (size : Z) (v : cells) : Prop :=
  Z.of_nat (length v) = size /\ Forall (fun row => Z.of_nat (length row) = size) v.

Lemma inReach_hypot (dx dz : Z) :
  inReach dx dz = true <->
  (Contact.hypot (IZR dx) (IZR dz) <= IZR FOG_OF_WAR_RADIUS + 1 / 2)%R.
Proof.
  unfold inReach, FOG_OF_WAR_RADIUS, Contact.hypot. rewrite Z.leb_le.
  change ((2 * 2 + 1) * (2 * 2 + 1)) with 25.
  replace (IZR 2 + 1 / 2)%R with (5 / 2)%R by lra.
  assert (IZR dx * IZR dx + IZR dz * IZR dz = IZR (dx * dx + dz * dz))%R as Hq
    by (rewrite plus_IZR, !mult_IZR; reflexivity).
  rewrite Hq. set (q := dx * dx + dz * dz).
  assert (0 <= q) as Hq0 by (unfold q; nia).
  assert (0 <= IZR q)%R as Hnn by (apply IZR_le in Hq0; exact Hq0).
  split.
  - intros H4. apply IZR_le in H4. rewrite mult_IZR in H4.
    rewrite <- (sqrt_square (5 / 2)) by lra. apply sqrt_le_1_alt. lra.
  - intros Hs.
    assert (sqrt (IZR q) * sqrt (IZR q) <= 5 / 2 * (5 / 2))%R as H2.
    { pose proof (sqrt_pos (IZR q)). nra. }
    rewrite sqrt_sqrt in H2 by exact Hnn.
    apply le_IZR. rewrite mult_IZR. lra.
Qed.

Lemma offsets_spec (d : Z) : d ∈ offsets <-> -2 <= d <= 2.
Proof.
  unfold offsets, FOG_OF_WAR_RADIUS. rewrite list_elem_of_fmap. split.
  - intros (i & -> & Hi). apply list_elem_of_In, in_seq in Hi. lia.
  - intros Hd. exists (Z.to_nat (d + 2)). split; [lia |].
    apply list_elem_of_In, in_seq. cbn. lia.
Qed.

Lemma inReach_small (dx dz : Z) : inReach dx dz = true -> -2 <= dx <= 2 /\ -2 <= dz <= 2.
Proof. unfold inReach, FOG_OF_WAR_RADIUS. rewrite Z.leb_le. nia. Qed.

Lemma visited_mark (size : Z) (v : cells) (x z : Z) :
  square size v -> 0 <= x < size -> 0 <= z < size ->
  exists v', mark v x z = Some v' /\ square size v' /\
    forall x' z', visited v' x' z' =
      if decide (x' = x /\ z' = z) then true else visited v x' z'.
Proof.
  intros [Hlen Hrows] Hx Hz. unfold mark.
  destruct (lookup_lt_is_Some_2 v (Z.to_nat z)) as [row Hrow]; [lia |].
  rewrite Hrow. eexists. split; [reflexivity |].
  assert (Z.of_nat (length row) = size) as Hrl.
  { rewrite Forall_forall in Hrows. apply Hrows. eapply list_elem_of_lookup_2. exact Hrow. }
  assert (setTrue row (Z.to_nat x) = <[Z.to_nat x := true]> row) as Hset.
  { unfold setTrue. destruct (Nat.ltb_spec (Z.to_nat x) (length row)); [reflexivity | lia]. }
  rewrite Hset. split; [split |].
  - rewrite length_insert. exact Hlen.
  - apply Forall_insert; [exact Hrows |]. rewrite length_insert. exact Hrl.
  - intros x' z'. unfold visited.
    destruct ((x' <? 0) || (z' <? 0)) eqn:Hneg.
    + destruct (decide _) as [[-> ->] | _]; [| reflexivity].
      apply orb_true_iff in Hneg. rewrite !Z.ltb_lt in Hneg. lia.
    + apply orb_false_iff in Hneg as [Hx' Hz']. apply Z.ltb_ge in Hx', Hz'.
      destruct (decide (Z.to_nat z' = Z.to_nat z)) as [Hzz | Hzz].
      * rewrite Hzz, list_lookup_insert_eq by lia. cbn.
        destruct (decide (Z.to_nat x' = Z.to_nat x)) as [Hxx | Hxx].
        -- rewrite Hxx, list_lookup_insert_eq by lia. cbn.
           rewrite decide_True by lia. reflexivity.
        -- rewrite list_lookup_insert_ne by congruence.
           rewrite decide_False by lia. rewrite Hrow. reflexivity.
      * rewrite list_lookup_insert_ne by congruence.
        rewrite decide_False by lia. reflexivity.
Qed.

(** X22: on a square array of the size of the maze, wherever the
    player is, the system raises no error and keeps the array square;
    afterwards a cell is visited exactly if it was before or lies in
    the grid with a centre-to-centre distance of at most 2.5 cells from
    the player's cell, which is the 5 by 5 block around it without its
    corners.  Nothing is ever forgotten and nothing is written outside
    the grid. *)
Theorem fogOfWarSystem_reveals (size : Z) (px pz : Q) (v : cells) :
  square size v ->
  exists v', fogOfWarSystem size px pz v = Some v' /\ square size v' /\
    forall x z,
      visited v' x z =
      visited v x z ||
      ((0 <=? x) && (x <? size) && (0 <=? z) && (z <? size) &&
       inReach (x - fst (Coords.worldToGrid size px pz))
               (z - snd (Coords.worldToGrid size px pz))).
Proof.
  intros Hsq. unfold fogOfWarSystem.
  destruct (Coords.worldToGrid size px pz) as [gx gz]. cbn [fst snd].
  set (hits := fun (ds : list (Z * Z)) (x z : Z) =>
         existsb (fun d => (x =? gx + fst d) && (z =? gz + snd d) &&
                           (0 <=? x) && (x <? size) && (0 <=? z) && (z <? size) &&
                           inReach (fst d) (snd d)) ds).
  assert (forall (ds : list (Z * Z)) (v0 : cells),
            square size v0 ->
            exists v', fold_left (visit size gx gz) ds (Some v0) = Some v' /\
              square size v' /\
              forall x z, visited v' x z = visited v0 x z || hits ds x z) as Hloop.
  { induction ds as [| d ds IH]; intros v0 Hv0.
    - exists v0. split; [reflexivity |]. split; [exact Hv0 |].
      intros x z. cbn. rewrite orb_false_r. reflexivity.
    - cbn [fold_left]. unfold visit at 2. cbn [mbind option_bind].
      destruct ((0 <=? gz + snd d) && (gz + snd d <? size) && (0 <=? gx + fst d)
                && (gx + fst d <? size) && inReach (fst d) (snd d)) eqn:Hcond.
      + apply andb_prop in Hcond as [Hcond Hreach].
        repeat (apply andb_prop in Hcond as [Hcond ?]).
        rewrite Z.leb_le in *. rewrite Z.ltb_lt in *.
        destruct (visited_mark size v0 (gx + fst d) (gz + snd d) Hv0 ltac:(lia) ltac:(lia))
          as (v1 & -> & Hv1 & Hget).
        destruct (IH v1 Hv1) as (v' & Hf & Hv' & Hvis).
        exists v'. split; [exact Hf |]. split; [exact Hv' |].
        intros x z. rewrite Hvis, Hget. unfold hits. cbn [existsb].
        destruct (decide (x = gx + fst d /\ z = gz + snd d)) as [[-> ->] | Hne].
        * rewrite !Z.eqb_refl, Hreach. cbn [andb orb].
          assert ((0 <=? gx + fst d) = true) as -> by (apply Z.leb_le; lia).
          assert ((gx + fst d <? size) = true) as -> by (apply Z.ltb_lt; lia).
          assert ((0 <=? gz + snd d) = true) as -> by (apply Z.leb_le; lia).
          assert ((gz + snd d <? size) = true) as -> by (apply Z.ltb_lt; lia).
          cbn. rewrite orb_true_r. reflexivity.
        * assert ((x =? gx + fst d) && (z =? gz + snd d) = false) as Hno.
          { apply andb_false_iff. rewrite !Z.eqb_neq. lia. }
          rewrite Hno. reflexivity.
      + destruct (IH v0 Hv0) as (v' & Hf & Hv' & Hvis).
        exists v'. split; [exact Hf |]. split; [exact Hv' |].
        intros x z. rewrite Hvis. unfold hits. cbn [existsb]. f_equal.
        destruct ((x =? gx + fst d) && (z =? gz + snd d)) eqn:Heq; [| reflexivity].
        apply andb_prop in Heq as [Ex Ez]. apply Z.eqb_eq in Ex, Ez. subst x z.
        revert Hcond.
        destruct (0 <=? gz + snd d), (gz + snd d <? size), (0 <=? gx + fst d),
          (gx + fst d <? size), (inReach (fst d) (snd d)); cbn; intros Hcond;
          try discriminate; reflexivity. }
  destruct (Hloop (flat_map (fun dz => map (fun dx => (dx, dz)) offsets) offsets) v Hsq)
    as (v' & Hf & Hv' & Hvis).
  exists v'. split; [exact Hf |]. split; [exact Hv' |].
  intros x z. rewrite Hvis. f_equal. unfold hits.
  apply eq_true_iff_eq. rewrite existsb_exists. split.
  - intros (d & _ & Hd). repeat (apply andb_prop in Hd as [Hd ?]).
    apply Z.eqb_eq in Hd. apply Z.eqb_eq in H4. subst x z.
    replace (gx + fst d - gx) with (fst d) by lia.
    replace (gz + snd d - gz) with (snd d) by lia.
    repeat (apply andb_true_intro; split); assumption.
  - intros Hc. repeat (apply andb_prop in Hc as [Hc ?]).
    exists (x - gx, z - gz). cbn [fst snd].
    apply inReach_small in H as Hsmall. split.
    + apply in_flat_map. exists (z - gz). split.
      * apply list_elem_of_In, offsets_spec. lia.
      * apply (in_map (fun dx => (dx, z - gz)) offsets (x - gx)).
        apply list_elem_of_In, offsets_spec. lia.
    + repeat (apply andb_true_intro; split); try assumption; apply Z.eqb_eq; lia.
Qed.

Lemma fogOfWarSystem_reveals_witness :
  exists v', fogOfWarSystem 3 0 0 (replicate 3 (replicate 3 false)) = Some v' /\
    square 3 v'.
Proof.
  destruct (fogOfWarSystem_reveals 3 0 0 (replicate 3 (replicate 3 false)))
    as (v' & Hf & Hsq & _).
  - split; [reflexivity |]. repeat constructor.
  - exists v'. split; assumption.
Defined.

End Fog.

(** ** Enemy behaviour (src/fsm/states.js, finiteStateMachine.js, #aiSystem) *)

Module Enemies.
Import Pathfinder Maze.

Local Open Scope R_scope.

Definition CELL_SIZE : R := 5 / 2.
Definition AI_CHASE_RADIUS : R := 10.
Definition AI_PATROL_RADIUS : R := 15.
Definition CHASER_SPEED_MULTIPLIER : R := 3 / 2.

(** [enemy.type] and the class of [fsm.currentState]. *)
Inductive kind := Patrol | Chaser.
Inductive mode := Patrolling | Chasing.

(** The [AI] component: [{ timer, path, pathIndex }]. *)
Record ai := mkAI { timer : nat; path : option (list node); pathIndex : nat }.

(** A [FiniteStateMachine] with the components it holds on to; of
    positions and velocities the [x] and the [z]. *)
Record fsm := mkFsm {
  currentState : mode;
  brain : ai;
  type : kind;
  speed : R;
  velocity : R * R;
  position : R * R
}.

(** How a call ends: with a result, with a TypeError, or, for the model
    only, with the fuel of a loop used up. *)
Inductive outcome (A : Type) :=
| Done (a : A)
| TypeError
| Diverges.
Arguments Done {A} a.
Arguments TypeError {A}.
Arguments Diverges {A}.

Definition andThen {A B : Type} (o : outcome A) (f : A -> outcome B) : outcome B :=
  match o with
  | Done a => f a
  | TypeError => TypeError
  | Diverges => Diverges
  end.

Definition withAI (f : fsm) (a : ai) : fsm :=
  mkFsm (currentState f) a (type f) (speed f) (velocity f) (position f).
Definition withState (f : fsm) (m : mode) : fsm :=
  mkFsm m (brain f) (type f) (speed f) (velocity f) (position f).
Definition withVelocity (f : fsm) (v : R * R) : fsm :=
  mkFsm (currentState f) (brain f) (type f) (speed f) v (position f).

Section Machine.

(** [game.state.maze], [game.state.currentMazeSize], [Math.random]. *)
Variable maze : grid.
Variable size : Z.
Variable rng : random.

Definition gridToWorld (n : node) : R * R :=
  ((IZR (nx n) - IZR size / 2) * CELL_SIZE + CELL_SIZE / 2,
   (IZR (nz n) - IZR size / 2) * CELL_SIZE + CELL_SIZE / 2).

Definition worldToGrid (p : R * R) : node :=
  (Int_part (fst p / CELL_SIZE + IZR size / 2),
   Int_part (snd p / CELL_SIZE + IZR size / 2)).

(** [do { targetX = ...; targetZ = ...; } while (maze[targetZ][targetX] !== 0)];
    [k] counts the calls of [Math.random]. *)
Fixpoint patrolTarget (fuel : nat) (k : nat) : outcome (node * nat) :=
  match fuel with
  | O => Diverges
  | S fuel' =>
      let targetX := scaled (rng k) size in
      let targetZ := scaled (rng (S k)) size in
      if (targetZ <? 0)%Z then TypeError
      else
        match maze !! Z.to_nat targetZ with
        | None => TypeError
        | Some row =>
            if (0 <=? targetX)%Z && bool_decide (row !! Z.to_nat targetX = Some 0%nat)
            then Done ((targetX, targetZ), S (S k))
            else patrolTarget fuel' (S (S k))
        end
  end.

(** What [game.findPath] hands back: a path or [null]. *)
Definition route (start goal : node) : outcome (option (list node)) :=
  match findPath maze start goal with
  | Path p => Done (Some p)
  | NotFound => Done None
  | OutOfFuel => Diverges
  end.

(** [#findNewPatrolPoint()] *)
Definition findNewPatrolPoint (fuel : nat) (f : fsm) (k : nat) : outcome (fsm * nat) :=
  andThen (patrolTarget fuel k) (fun tk =>
    andThen (route (worldToGrid (position f)) (fst tk)) (fun p =>
      Done (withAI f (mkAI (timer (brain f)) p 0), snd tk))).

(** [velocity.x = ((targetPos.x - position.x) / dist) * moveSpeed], and [z]. *)
Definition steer (target pos : R * R) (dist moveSpeed : R) : R * R :=
  ((fst target - fst pos) / dist * moveSpeed, (snd target - snd pos) / dist * moveSpeed).

Definition distance (a b : R * R) : R := Contact.hypot (fst a - fst b) (snd a - snd b).

Definition isChaser (t : kind) : bool := match t with Chaser => true | Patrol => false end.

(** [PatrollingState.update(playerPos)] *)
Definition patrolUpdate (fuel : nat) (playerPos : R * R) (f : fsm) (k : nat)
    : outcome (fsm * nat) :=
  let distanceToPlayer := distance playerPos (position f) in
  if isChaser (type f) && (if Rlt_dec distanceToPlayer AI_CHASE_RADIUS then true else false)
  then Done (withState f Chasing, k)
  else
    andThen
      (match path (brain f) with
       | None => findNewPatrolPoint fuel f k
       | Some p =>
           if (length p <=? pathIndex (brain f))%nat then findNewPatrolPoint fuel f k
           else Done (f, k)
       end)
      (fun fk =>
         let f1 := fst fk in
         match path (brain f1) with
         | None => Done fk
         | Some p =>
             match p !! pathIndex (brain f1) with
             | None => TypeError
             | Some targetNode =>
                 let targetPos := gridToWorld targetNode in
                 let distToTarget := distance targetPos (position f1) in
                 if Rlt_dec distToTarget 1 then
                   let f2 := withAI f1 (mkAI (timer (brain f1)) (Some p)
                                             (pathIndex (brain f1) + 1)) in
                   if (length p <=? pathIndex (brain f2))%nat
                   then findNewPatrolPoint fuel f2 (snd fk)
                   else Done (f2, snd fk)
                 else
                   Done (withVelocity f1 (steer targetPos (position f1) distToTarget (speed f1)),
                         snd fk)
             end
         end).

(** [ChasingState.update(playerPos, deltaTime)] *)
Definition chaseUpdate (playerPos : R * R) (f : fsm) (k : nat) : outcome (fsm * nat) :=
  let distanceToPlayer := distance playerPos (position f) in
  if Rlt_dec AI_PATROL_RADIUS distanceToPlayer then Done (withState f Patrolling, k)
  else
    andThen
      (if (timer (brain f) mod 30 =? 0)%nat then
         andThen (route (worldToGrid (position f)) (worldToGrid playerPos)) (fun p =>
           Done (withAI f (mkAI (timer (brain f)) p 0)))
       else Done f)
      (fun f1 =>
         let chaseSpeed := speed f1 * CHASER_SPEED_MULTIPLIER in
         let direct :=
           Done (withVelocity f1 (steer playerPos (position f1) distanceToPlayer chaseSpeed), k) in
         match path (brain f1) with
         | None => direct
         | Some p =>
             if (0 <? length p)%nat then
               match p !! pathIndex (brain f1) with
               | None => TypeError
               | Some targetNode =>
                   let targetPos := gridToWorld targetNode in
                   let distanceToTarget := distance targetPos (position f1) in
                   if Rlt_dec distanceToTarget 1 then
                     let i := (pathIndex (brain f1) + 1)%nat in
                     Done (withAI f1 (mkAI (timer (brain f1))
                                           (if (length p <=? i)%nat then None else Some p) i),
                           k)
                   else
                     Done (withVelocity f1
                             (steer targetPos (position f1) distanceToTarget chaseSpeed), k)
               end
             else direct
         end).

(** [FiniteStateMachine.update], which [#aiSystem] calls after
    [ai.timer += 1]. *)
Definition update (fuel : nat) (playerPos : R * R) (f : fsm) (k : nat) : outcome (fsm * nat) :=
  match currentState f with
  | Patrolling => patrolUpdate fuel playerPos f k
  | Chasing => chaseUpdate playerPos f k
  end.

Definition aiStep (fuel : nat) (playerPos : R * R) (f : fsm) (k : nat) : outcome (fsm * nat) :=
  update fuel playerPos
         (withAI f (mkAI (timer (brain f) + 1) (path (brain f)) (pathIndex (brain f)))) k.

(** [new FiniteStateMachine(game, eid)] for the components that
    [#createEnemy] has just added: [PatrollingState.enter()]. *)
Definition construct (fuel : nat) (t : kind) (s : R) (pos : R * R) (k : nat)
    : outcome (fsm * nat) :=
  findNewPatrolPoint fuel (mkFsm Patrolling (mkAI 0 None 0) t s (0, 0) pos) k.

(** What the other systems decide before a frame of one enemy: where
    the player is, and the enemy's own position and velocity. *)
Record frame := mkFrame { playerAt : R * R; enemyAt : R * R; enemyVelocity : R * R }.

(** The frames of one enemy, one after the other. *)
Fixpoint frames (fuel : nat) (inputs : list frame) (f : fsm) (k : nat)
    : outcome (fsm * nat) :=
  match inputs with
  | [] => Done (f, k)
  | i :: rest =>
      andThen (aiStep fuel (playerAt i)
                 (mkFsm (currentState f) (brain f) (type f) (speed f)
                        (enemyVelocity i) (enemyAt i)) k)
              (fun fk => frames fuel rest (fst fk) (snd fk))
  end.

(** *** The patrol target *)

(** The cell drawn at the [j]-th turn of the loop that starts at call
    [k] of [Math.random]. *)
Definition drawn (k j : nat) : node :=
  (scaled (rng (k + 2 * j)%nat) size, scaled (rng (S (k + 2 * j))) size).

Definition square : Prop :=
  Z.of_nat (length maze) = size /\ Forall (fun row => Z.of_nat (length row) = size) maze.

Hypothesis maze_square : square.
Hypothesis rng_unit : forall k, (0 <= rng k)%Q /\ (rng k < 1)%Q.
Hypothesis size_pos : (0 < size)%Z.

Lemma drawn_inside (k j : nat) :
  (0 <= nx (drawn k j) < size)%Z /\ (0 <= nz (drawn k j) < size)%Z.
Proof.
  unfold drawn. cbn [nx nz fst snd].
  destruct (rng_unit (k + 2 * j)%nat) as [H0 H1].
  destruct (rng_unit (S (k + 2 * j))) as [H2 H3].
  split; apply scaled_range; assumption.
Qed.

(** From every point of the random sequence on, an open cell is drawn
    within [fuel] turns. *)
Definition lively (fuel : nat) : Prop :=
  forall k, exists j, (j < fuel)%nat /\ cellAt maze (drawn k j) = Some 0%nat.

Lemma patrolTarget_spec (fuel : nat) :
  forall k,
    match patrolTarget fuel k with
    | Done (c, k') =>
        exists j, (j < fuel)%nat /\ c = drawn k j /\ k' = (k + 2 * S j)%nat /\
          cellAt maze c = Some 0%nat /\
          forall i, (i < j)%nat -> cellAt maze (drawn k i) <> Some 0%nat
    | TypeError => False
    | Diverges => forall j, (j < fuel)%nat -> cellAt maze (drawn k j) <> Some 0%nat
    end.
Proof.
  induction fuel as [| fuel IH]; intros k; [cbn; intros j Hj; lia |].
  cbn [patrolTarget].
  destruct (drawn_inside k 0) as [Hx Hz]. unfold drawn in Hx, Hz.
  rewrite Nat.mul_0_r, Nat.add_0_r in Hx, Hz. cbn [nx nz fst snd] in Hx, Hz.
  destruct (Z.ltb_spec (scaled (rng (S k)) size) 0) as [? | _]; [lia |].
  destruct maze_square as [Hlen Hrows].
  destruct (lookup_lt_is_Some_2 maze (Z.to_nat (scaled (rng (S k)) size))) as [row Hrow];
    [lia |].
  rewrite Hrow.
  assert (cellAt maze (drawn k 0) = row !! Z.to_nat (scaled (rng k) size)) as Hcell.
  { unfold cellAt, drawn. rewrite Nat.mul_0_r, Nat.add_0_r. cbn [nx nz fst snd].
    rewrite Hrow. reflexivity. }
  assert (forall j, drawn (S (S k)) j = drawn k (S j)) as Hshift.
  { intros j. unfold drawn.
    replace (S (S k) + 2 * j)%nat with (k + 2 * S j)%nat by lia. reflexivity. }
  destruct (Z.leb_spec 0 (scaled (rng k) size)) as [_ | ?]; [| lia]. cbn [andb].
  destruct (bool_decide (row !! Z.to_nat (scaled (rng k) size) = Some 0%nat)) eqn:Hopen.
  - apply bool_decide_eq_true in Hopen. exists 0%nat.
    assert (drawn k 0 = (scaled (rng k) size, scaled (rng (S k)) size)) as Hd0
      by (unfold drawn; rewrite Nat.mul_0_r, Nat.add_0_r; reflexivity).
    split; [lia |]. split; [symmetry; exact Hd0 |].
    split; [lia |]. split; [rewrite <- Hd0, Hcell; exact Hopen |]. intros i Hi. lia.
  - apply bool_decide_eq_false in Hopen. specialize (IH (S (S k))).
    destruct (patrolTarget fuel (S (S k))) as [[c k'] | |].
    + destruct IH as (j & Hj & Hc & Hk & Ho & Hbefore). exists (S j).
      split; [lia |]. split; [rewrite <- Hshift; exact Hc |]. split; [lia |].
      split; [exact Ho |]. intros [| i] Hi.
      * rewrite Hcell. exact Hopen.
      * rewrite <- Hshift. apply Hbefore. lia.
    + exact IH.
    + intros [| j] Hj.
      * rewrite Hcell. exact Hopen.
      * rewrite <- Hshift. apply IH. lia.
Qed.

(** *** The path cursor *)

(** A path, when there is one, has a cell under the cursor. *)
Definition sane (f : fsm) : Prop :=
  match path (brain f) with
  | None => True
  | Some p => (pathIndex (brain f) < length p)%nat
  end.

(** What a call leaves behind: no TypeError; after a result the cursor
    is sane, the kind and the speed are the ones before, and the mode
    satisfies [Q]; the fuel runs out only when the random numbers keep
    missing the open cells. *)
Definition safely (fuel : nat) (Q : mode -> Prop) (f : fsm) (o : outcome (fsm * nat)) : Prop :=
  match o with
  | Done (f', _) => sane f' /\ type f' = type f /\ speed f' = speed f /\ Q (currentState f')
  | TypeError => False
  | Diverges => ~ lively fuel
  end.

Lemma route_spec (start goal : node) :
  match route start goal with
  | Done (Some p) => (0 < length p)%nat
  | Done None => True
  | TypeError => False
  | Diverges => False
  end.
Proof.
  unfold route. pose proof (findPath_spec maze start goal) as Hspec.
  destruct (findPath maze start goal) as [p | |]; [| exact I | exact Hspec].
  destruct Hspec as (g & _ & _ & _ & Hlen & _). lia.
Qed.

Lemma findNewPatrolPoint_safely (fuel : nat) (f : fsm) (k : nat) :
  safely fuel (fun m => m = currentState f) f (findNewPatrolPoint fuel f k).
Proof.
  unfold findNewPatrolPoint. pose proof (patrolTarget_spec fuel k) as Ht.
  destruct (patrolTarget fuel k) as [[c k'] | |]; cbn [andThen fst snd]; [| exact Ht |].
  2:{ intros Hl. destruct (Hl k) as (j & Hj & Ho). exact (Ht j Hj Ho). }
  pose proof (route_spec (worldToGrid (position f)) c) as Hr.
  destruct (route _ c) as [[p |] | |]; cbn [andThen]; try contradiction.
  - unfold safely, sane. cbn. auto.
  - unfold safely, sane. cbn. auto.
Qed.

Lemma safely_weaken (fuel : nat) (Q Q' : mode -> Prop) (f f0 : fsm)
    (o : outcome (fsm * nat)) :
  (forall m, Q m -> Q' m) -> type f = type f0 -> speed f = speed f0 ->
  safely fuel Q f o -> safely fuel Q' f0 o.
Proof.
  intros HQ Ht Hs. unfold safely. destruct o as [[f' k'] | |]; auto.
  intros (H1 & H2 & H3 & H4). rewrite <- Ht, <- Hs. auto.
Qed.

Lemma safely_andThen (fuel : nat) (Q1 Q2 : mode -> Prop) (f : fsm)
    (o : outcome (fsm * nat)) (g : fsm * nat -> outcome (fsm * nat)) :
  safely fuel Q1 f o ->
  (forall f1 k1, sane f1 -> type f1 = type f -> speed f1 = speed f -> Q1 (currentState f1) ->
     safely fuel Q2 f1 (g (f1, k1))) ->
  safely fuel Q2 f (andThen o g).
Proof.
  intros Ho Hg. destruct o as [[f1 k1] | |]; cbn [andThen]; [| exact Ho | exact Ho].
  destruct Ho as (H1 & H2 & H3 & H4).
  apply (safely_weaken fuel Q2 Q2 f1 f); auto.
Qed.

(** Where [PatrollingState.update] leaves the machine. *)
Definition afterPatrol (playerPos : R * R) (f : fsm) (m : mode) : Prop :=
  m = currentState f \/
  (m = Chasing /\ type f = Chaser /\ distance playerPos (position f) < AI_CHASE_RADIUS).

Lemma patrolUpdate_safely (fuel : nat) (playerPos : R * R) (f : fsm) (k : nat) :
  sane f -> safely fuel (afterPatrol playerPos f) f (patrolUpdate fuel playerPos f k).
Proof.
  intros Hsane. unfold patrolUpdate. cbv zeta.
  destruct (isChaser (type f) && _) eqn:Hchase.
  - apply andb_prop in Hchase as [Hk Hd]. destruct (Rlt_dec _ _) as [Hlt | _]; [| discriminate].
    unfold safely. cbn. split; [exact Hsane |]. split; [reflexivity |]. split; [reflexivity |].
    right. destruct (type f); [discriminate | auto].
  - clear Hchase.
    apply (safely_andThen fuel (fun m => m = currentState f)).
    + unfold sane in Hsane. destruct (path (brain f)) as [p |] eqn:Hp.
      * destruct (Nat.leb_spec (length p) (pathIndex (brain f))) as [_ | Hlt].
        -- apply findNewPatrolPoint_safely.
        -- unfold safely, sane. rewrite Hp. auto.
      * apply findNewPatrolPoint_safely.
    + intros f1 k1 Hs1 Ht1 Hv1 Hm1. cbn [fst snd].
      assert (forall m, m = currentState f1 -> afterPatrol playerPos f m) as Hmode.
      { intros m ->. left. exact Hm1. }
      unfold sane in Hs1. destruct (path (brain f1)) as [p |] eqn:Hp.
      * destruct (lookup_lt_is_Some_2 p (pathIndex (brain f1)) Hs1) as [targetNode ->].
        destruct (Rlt_dec _ 1) as [Hnear | Hfar].
        -- cbn [pathIndex brain withAI].
           destruct (Nat.leb_spec (length p) (pathIndex (brain f1) + 1)) as [_ | Hlt].
           ++ eapply safely_weaken; [| | | apply findNewPatrolPoint_safely];
                [intros m ->; apply Hmode; reflexivity | reflexivity | reflexivity].
           ++ unfold safely, sane. cbn. repeat split; try assumption; try reflexivity.
              apply Hmode; reflexivity.
        -- unfold safely, sane. cbn. rewrite Hp.
           repeat split; try assumption; try reflexivity. apply Hmode; reflexivity.
      * unfold safely, sane. rewrite Hp.
        repeat split; try assumption; try reflexivity. apply Hmode; reflexivity.
Qed.

(** Where [ChasingState.update] leaves the machine. *)
Definition afterChase (playerPos : R * R) (f : fsm) (m : mode) : Prop :=
  m = currentState f \/
  (m = Patrolling /\ AI_PATROL_RADIUS < distance playerPos (position f)).

Lemma chaseUpdate_safely (fuel : nat) (playerPos : R * R) (f : fsm) (k : nat) :
  sane f -> safely fuel (afterChase playerPos f) f (chaseUpdate playerPos f k).
Proof.
  intros Hsane. unfold chaseUpdate. cbv zeta.
  destruct (Rlt_dec AI_PATROL_RADIUS _) as [Hfar | Hnear].
  - unfold safely. cbn. split; [exact Hsane |]. split; [reflexivity |].
    split; [reflexivity |]. right. auto.
  - assert (forall f1, sane f1 -> type f1 = type f -> speed f1 = speed f ->
              currentState f1 = currentState f -> position f1 = position f ->
              safely fuel (afterChase playerPos f) f
                ((fun f1 =>
                    match path (brain f1) with
                    | None =>
                        Done (withVelocity f1
                                (steer playerPos (position f1)
                                   (distance playerPos (position f))
                                   (speed f1 * CHASER_SPEED_MULTIPLIER)), k)
                    | Some p =>
                        if (0 <? length p)%nat then
                          match p !! pathIndex (brain f1) with
                          | None => TypeError
                          | Some targetNode =>
                              if Rlt_dec (distance (gridToWorld targetNode) (position f1)) 1 then
                                Done (withAI f1
                                        (mkAI (timer (brain f1))
                                           (if (length p <=? pathIndex (brain f1) + 1)%nat
                                            then None else Some p)
                                           (pathIndex (brain f1) + 1)), k)
                              else
                                Done (withVelocity f1
                                        (steer (gridToWorld targetNode) (position f1)
                                           (distance (gridToWorld targetNode) (position f1))
                                           (speed f1 * CHASER_SPEED_MULTIPLIER)), k)
                          end
                        else
                          Done (withVelocity f1
                                  (steer playerPos (position f1)
                                     (distance playerPos (position f))
                                     (speed f1 * CHASER_SPEED_MULTIPLIER)), k)
                    end) f1)) as Hstage.
    { intros f1 Hs1 Ht1 Hv1 Hm1 _. cbv beta.
      unfold sane in Hs1. destruct (path (brain f1)) as [p |] eqn:Hp.
      - destruct (0 <? length p)%nat.
        + destruct (lookup_lt_is_Some_2 p (pathIndex (brain f1)) Hs1) as [targetNode ->].
          destruct (Rlt_dec _ 1) as [Hclose | Haway].
          * unfold safely, sane. cbn.
            destruct (Nat.leb_spec (length p) (pathIndex (brain f1) + 1)) as [_ | Hlt];
              repeat split; try assumption; left; exact Hm1.
          * unfold safely, sane. cbn. rewrite Hp.
            repeat split; try assumption. left; exact Hm1.
        + unfold safely, sane. cbn. rewrite Hp.
          repeat split; try assumption. left; exact Hm1.
      - unfold safely, sane. cbn. rewrite Hp.
        repeat split; try assumption. left; exact Hm1. }
    destruct (timer (brain f) mod 30 =? 0)%nat.
    + pose proof (route_spec (worldToGrid (position f)) (worldToGrid playerPos)) as Hr.
      destruct (route _ _) as [[p |] | |]; cbn [andThen]; try contradiction.
      * apply (Hstage (withAI f (mkAI (timer (brain f)) (Some p) 0))); try reflexivity.
        unfold sane. cbn. exact Hr.
      * apply (Hstage (withAI f (mkAI (timer (brain f)) None 0))); try reflexivity;
          exact I.
    + cbn [andThen]. apply (Hstage f); auto.
Qed.

(** The modes an enemy of kind [t] can be in. *)
Definition allowed (t : kind) (m : mode) : Prop := t = Patrol -> m = Patrolling.

Lemma update_safely (fuel : nat) (playerPos : R * R) (f : fsm) (k : nat) :
  sane f -> allowed (type f) (currentState f) ->
  safely fuel (allowed (type f)) f (update fuel playerPos f k).
Proof.
  intros Hsane Hallowed. unfold update. destruct (currentState f) eqn:Hm.
  - eapply safely_weaken; [| reflexivity | reflexivity | apply patrolUpdate_safely; exact Hsane].
    intros m [-> | (-> & Ht & _)]; intros Hp; [rewrite Hm; reflexivity | congruence].
  - eapply safely_weaken; [| reflexivity | reflexivity | apply chaseUpdate_safely; exact Hsane].
    intros m [-> | (-> & _)]; intros Hp; [rewrite Hm; apply Hallowed; exact Hp | reflexivity].
Qed.

Lemma frames_safely (fuel : nat) (inputs : list frame) :
  forall f k, sane f -> allowed (type f) (currentState f) ->
    safely fuel (allowed (type f)) f (frames fuel inputs f k).
Proof.
  induction inputs as [| i inputs IH]; intros f k Hsane Hallowed.
  - unfold safely. cbn. auto.
  - cbn [frames]. apply (safely_andThen fuel (allowed (type f))).
    + unfold aiStep.
      set (f' := withAI (mkFsm (currentState f) (brain f) (type f) (speed f)
                               (enemyVelocity i) (enemyAt i))
                        (mkAI (timer (brain f) + 1) (path (brain f)) (pathIndex (brain f)))).
      apply (safely_weaken fuel (allowed (type f')) (allowed (type f)) f' f);
        [auto | reflexivity | reflexivity |].
      apply update_safely; [exact Hsane | exact Hallowed].
    + intros f1 k1 Hs1 Ht1 Hv1 Hm1. cbn [fst snd].
      rewrite <- Ht1 in Hm1 |- *. apply IH; assumption.
Qed.

(** An enemy from its creation on. *)
Definition lifetime (fuel : nat) (t : kind) (s : R) (pos : R * R) (k : nat)
    (inputs : list frame) : outcome (fsm * nat) :=
  andThen (construct fuel t s pos k) (fun fk => frames fuel inputs (fst fk) (snd fk)).

Lemma lifetime_safely (fuel : nat) (t : kind) (s : R) (pos : R * R) (k : nat)
    (inputs : list frame) :
  match lifetime fuel t s pos k inputs with
  | Done (f, _) => sane f /\ type f = t /\ speed f = s /\ allowed t (currentState f)
  | TypeError => False
  | Diverges => ~ lively fuel
  end.
Proof.
  unfold lifetime, construct.
  set (f0 := mkFsm Patrolling (mkAI 0 None 0) t s (0, 0) pos).
  change (safely fuel (allowed t) f0
            (andThen (findNewPatrolPoint fuel f0 k)
                     (fun fk => frames fuel inputs (fst fk) (snd fk)))).
  apply (safely_andThen fuel (fun m => m = Patrolling)).
  - apply findNewPatrolPoint_safely.
  - intros f1 k1 Hs1 Ht1 Hv1 Hm1. cbn [fst snd].
    change (type f0) with t in *. rewrite <- Ht1.
    apply frames_safely; [exact Hs1 |]. intros _. exact Hm1.
Qed.

(** *** Steering *)




End Machine.

(** X23: on a square maze, with random numbers in [0, 1), the search
    for a patrol point reads no cell outside the grid, and what it
    returns is the first cell drawn that is open; it goes on drawing,
    two numbers a turn, for as long as the cells drawn are walls. *)
Theorem patrol_target_is_first_open_cell
    (maze : grid) (size : Z) (rng : random) (fuel k : nat) :
  square maze size -> (forall i, (0 <= rng i)%Q /\ (rng i < 1)%Q) -> (0 < size)%Z ->
  match patrolTarget maze size rng fuel k with
  | Done (c, k') =>
      exists j, (j < fuel)%nat /\ c = drawn size rng k j /\ k' = (k + 2 * S j)%nat /\
        cellAt maze c = Some 0%nat /\
        (0 <= nx c < size)%Z /\ (0 <= nz c < size)%Z /\
        forall i, (i < j)%nat -> cellAt maze (drawn size rng k i) <> Some 0%nat
  | TypeError => False
  | Diverges => forall j, (j < fuel)%nat -> cellAt maze (drawn size rng k j) <> Some 0%nat
  end.
Proof.
  intros Hsq Hrng Hsize.
  pose proof (patrolTarget_spec maze size rng Hsq Hrng Hsize fuel k) as H.
  destruct (patrolTarget maze size rng fuel k) as [[c k'] | |]; [| exact H | exact H].
  destruct H as (j & Hj & -> & Hk & Ho & Hbefore). exists j.
  destruct (drawn_inside size rng Hrng Hsize k j) as [Hx Hz].
  repeat split; try assumption; lia.
Qed.

(** One open cell in the middle of a 3 by 3 maze, and the random
    numbers that hit it. *)
Definition cell3 : grid := [[1; 1; 1]; [1; 0; 1]; [1; 1; 1]]%nat.
Definition middle : random := fun _ => (1 # 2)%Q.

Lemma cell3_square : square cell3 3.
Proof. split; [reflexivity |]. repeat constructor. Qed.

Lemma middle_unit (i : nat) : (0 <= middle i)%Q /\ (middle i < 1)%Q.
Proof. unfold middle. split; [discriminate | reflexivity]. Qed.

Lemma patrol_target_is_first_open_cell_witness :
  match patrolTarget cell3 3 middle 5 0 with
  | Done (c, k') => cellAt cell3 c = Some 0%nat /\ k' = 2%nat
  | TypeError => False
  | Diverges => False
  end.
Proof.
  pose proof (patrol_target_is_first_open_cell cell3 3 middle 5 0
                cell3_square middle_unit ltac:(lia)) as H.
  destruct (patrolTarget cell3 3 middle 5 0) as [[c k'] | |] eqn:E;
    [| exact H | vm_compute in E; discriminate E].
  destruct H as (j & _ & _ & _ & Ho & _). split; [exact Ho |].
  vm_compute in E. injection E as _ <-. reflexivity.
Defined.

(** X24: an enemy never reads past the end of its path: from its
    creation on, through any number of frames, with the player and the
    enemy anywhere, no update raises a TypeError for a missing path
    cell; after every frame the path, when there is one, has a cell
    under the cursor, and the enemy's kind and speed are the ones it
    was created with.  The frames all return unless some search for a
    patrol point keeps drawing walls. *)
Theorem enemy_path_cursor_safe
    (maze : grid) (size : Z) (rng : random) (fuel : nat) (t : kind) (s : R)
    (pos : R * R) (k : nat) (inputs : list frame) :
  square maze size -> (forall i, (0 <= rng i)%Q /\ (rng i < 1)%Q) -> (0 < size)%Z ->
  match lifetime maze size rng fuel t s pos k inputs with
  | Done (f, _) => sane f /\ type f = t /\ speed f = s
  | TypeError => False
  | Diverges => ~ lively maze size rng fuel
  end.
Proof.
  intros Hsq Hrng Hsize.
  pose proof (lifetime_safely maze size rng Hsq Hrng Hsize fuel t s pos k inputs) as H.
  destruct (lifetime maze size rng fuel t s pos k inputs) as [[f k'] | |]; tauto.
Qed.

Definition chase2 : list frame :=
  [mkFrame (0, 0) (5, 5) (0, 0); mkFrame (20, 20) (5, 5) (1, 0)].

Lemma middle_lively : lively cell3 3 middle 5.
Proof. intros k. exists 0%nat. split; [lia | reflexivity]. Qed.

Lemma enemy_path_cursor_safe_witness :
  exists f k', lifetime cell3 3 middle 5 Chaser 2 (0, 0) 0 chase2 = Done (f, k') /\
    sane f /\ type f = Chaser /\ speed f = 2.
Proof.
  pose proof (enemy_path_cursor_safe cell3 3 middle 5 Chaser 2 (0, 0) 0 chase2
                cell3_square middle_unit ltac:(lia)) as H.
  destruct (lifetime cell3 3 middle 5 Chaser 2 (0, 0) 0 chase2) as [[f k'] | |];
    [| contradiction | exfalso; exact (H middle_lively)].
  exists f, k'. split; [reflexivity | exact H].
Defined.

(** X25: an enemy of type 'patrol' never chases: from its creation on
    its state is the patrolling one after every frame, however close
    the player comes. *)
Theorem patrol_enemy_never_chases
    (maze : grid) (size : Z) (rng : random) (fuel : nat) (s : R)
    (pos : R * R) (k : nat) (inputs : list frame) :
  square maze size -> (forall i, (0 <= rng i)%Q /\ (rng i < 1)%Q) -> (0 < size)%Z ->
  match lifetime maze size rng fuel Patrol s pos k inputs with
  | Done (f, _) => currentState f = Patrolling
  | TypeError => False
  | Diverges => ~ lively maze size rng fuel
  end.
Proof.
  intros Hsq Hrng Hsize.
  pose proof (lifetime_safely maze size rng Hsq Hrng Hsize fuel Patrol s pos k inputs) as H.
  destruct (lifetime maze size rng fuel Patrol s pos k inputs) as [[f k'] | |];
    [| exact H | exact H].
  destruct H as (_ & _ & _ & Hallowed). apply Hallowed. reflexivity.
Qed.

Lemma patrol_enemy_never_chases_witness :
  exists f k', lifetime cell3 3 middle 5 Patrol 2 (0, 0) 0 chase2 = Done (f, k') /\
    currentState f = Patrolling.
Proof.
  pose proof (patrol_enemy_never_chases cell3 3 middle 5 2 (0, 0) 0 chase2
                cell3_square middle_unit ltac:(lia)) as H.
  destruct (lifetime cell3 3 middle 5 Patrol 2 (0, 0) 0 chase2) as [[f k'] | |];
    [| contradiction | exfalso; exact (H middle_lively)].
  exists f, k'. split; [reflexivity | exact H].
Defined.




End Enemies.

(** ** Filling a level (#populateMaze, and the draws of #createEnemy and
       #createPowerUp) *)

Module Population.
Import Pathfinder Maze Enemies.

Local Open Scope Z_scope.

Inductive power := Speed | Energy | Shield | Multiplier.

(** What [#populateMaze] creates, in the order of creation; of each
    thing the cell it is placed on. *)
Inductive item :=
| Player (cell : node)
| TrailLine
| Wall (cell : node)
| Goal (cell : node)
| Enemy (cell : node) (machine : fsm)
| PowerUp (cell : node) (type : option power)
| Collectible (cell : node) (phase : nat).

(** [(cell.x - size / 2) * CELL_SIZE], the world coordinate at which a
    thing of cell [g] is created. *)
Definition placeQ (size g : Z) : Q := ((inject_Z g - inject_Z size / 2) * Coords.CELL_SIZE)%Q.
Definition placeR (size g : Z) : R := ((IZR g - IZR size / 2) * Enemies.CELL_SIZE)%R.

(** [for (let v = lo; v < hi; v += 1)] *)
Definition span (lo hi : Z) : list Z :=
  map (fun i => lo + Z.of_nat i) (seq 0 (Z.to_nat (hi - lo))).

(** The cells [(x, z)] of the double loops over [lo <= z, x < hi] that
    hold the number [v]; a missing row is a TypeError. *)
Definition cellsHolding (maze : grid) (lo hi : Z) (v : nat) : outcome (list node) :=
  fold_left
    (fun acc z =>
       andThen acc (fun found =>
         match maze !! Z.to_nat z with
         | None => TypeError
         | Some row =>
             Done (found ++
                   map (fun x => (x, z))
                       (List.filter (fun x => bool_decide (row !! Z.to_nat x = Some v))
                                    (span lo hi)))
         end))
    (span lo hi) (Done []).

(** [openCells.splice(index, 1)[0]]: a negative index counts from the
    end, an index past the end removes nothing. *)
Definition splice1 (openCells : list node) (index : Z) : option node * list node :=
  let start := if index <? 0 then Z.max (Z.of_nat (length openCells) + index) 0 else index in
  match openCells !! Z.to_nat start with
  | None => (None, openCells)
  | Some c => (Some c, delete (Z.to_nat start) openCells)
  end.

(** [popCell()]: the cell or [null], the cells left, and the calls of
    [Math.random] so far. *)
Definition popCell (rng : random) (openCells : list node) (k : nat)
    : option node * list node * nat :=
  match openCells with
  | [] => (None, [], k)
  | _ :: _ =>
      let index := scaled (rng k) (Z.of_nat (length openCells)) in
      (fst (splice1 openCells index), snd (splice1 openCells index), S k)
  end.

(** [Math.abs(cell.x - startX) < 5 && Math.abs(cell.z - startZ) < 5] *)
Definition nearStart (c : node) : bool :=
  (Z.abs (nx c - 1) <? 5) && (Z.abs (nz c - 1) <? 5).

Definition CHASER_BASE_SPEED : R := 2.
Definition PATROL_BASE_SPEED : R := (3 / 2)%R.

Definition powerTypes : list power := [Speed; Energy; Shield; Multiplier].

Section Level.

Variable maze : grid.
Variable size : Z.
Variable level : Z.
Variable rng : random.

(** The loop state: what has been created, the open cells left, and
    the calls of [Math.random] so far. *)
Record progress := mkProgress { made : list item; left : list node; calls : nat }.

(** One turn of the loop over [enemyCount]. *)
Definition enemyTurn (fuel : nat) (p : progress) : outcome progress :=
  let '(cell, rest, k1) := popCell rng (left p) (calls p) in
  match cell with
  | None => Done (mkProgress (made p) rest k1)
  | Some c =>
      if nearStart c then Done (mkProgress (made p) rest k1)
      else
        let t := if Qlt_le_dec (rng k1) (7 # 10) then Patrol else Chaser in
        let s := match t with Chaser => CHASER_BASE_SPEED | Patrol => PATROL_BASE_SPEED end in
        (* the phase of the Animation component is the next call *)
        andThen (construct maze size rng fuel t s
                           (placeR size (nx c), placeR size (nz c)) (S (S k1)))
                (fun fk => Done (mkProgress (made p ++ [Enemy c (fst fk)]) rest (snd fk)))
  end.

(** One turn of the loop over [powerUpCount]. *)
Definition powerUpTurn (p : progress) : progress :=
  let '(cell, rest, k1) := popCell rng (left p) (calls p) in
  match cell with
  | None => mkProgress (made p) rest k1
  | Some c =>
      let type := powerTypes !! Z.to_nat (scaled (rng k1) (Z.of_nat (length powerTypes))) in
      (* the type is one call, the phase of the Animation component the next *)
      mkProgress (made p ++ [PowerUp c type]) rest (S (S k1))
  end.

(** One turn of the loop over [collectibleCount], at index [i]. *)
Definition collectibleTurn (p : progress) (i : nat) : progress :=
  let '(cell, rest, k1) := popCell rng (left p) (calls p) in
  match cell with
  | None => mkProgress (made p) rest k1
  | Some c => mkProgress (made p ++ [Collectible c i]) rest k1
  end.

(** [Math.floor(level * 1.5 + 2)], [Math.floor(level * 0.8 + 1)],
    [Math.floor(size * 1.2)], in exact arithmetic; [counts_binary64]
    compares them with the results on doubles. *)
Definition enemyCount : nat := Z.to_nat ((3 * level + 4) / 2).
Definition powerUpCount : nat := Z.to_nat ((4 * level + 5) / 5).
Definition collectibleCount : nat := Z.to_nat (6 * size / 5).

Fixpoint enemyLoop (fuel : nat) (n : nat) (p : progress) : outcome progress :=
  match n with
  | O => Done p
  | S n' => andThen (enemyTurn fuel p) (enemyLoop fuel n')
  end.

(** [#populateMaze(size)]; [k] counts the calls of [Math.random]. *)
Definition populateMaze (fuel : nat) (k : nat) : outcome (list item * nat) :=
  andThen (cellsHolding maze 1 (size - 1) 0) (fun openCells =>
    andThen (cellsHolding maze 0 size 1) (fun walls =>
      let p0 := mkProgress ([Player (1, 1); TrailLine] ++ map Wall walls
                             ++ [Goal (size - 2, size - 2)])
                           openCells k in
      andThen (enemyLoop fuel enemyCount p0) (fun p1 =>
        let p2 := Nat.iter powerUpCount powerUpTurn p1 in
        let p3 := fold_left collectibleTurn (seq 0 collectibleCount) p2 in
        Done (made p3, calls p3)))).

End Level.

(** The three counts as JavaScript computes them, on doubles. *)
Module Doubles.
Import Floats.

Definition enemyCount64 (level : Z) : option Z :=
  Binary64.floor (Binary64.ofZ level * 1.5 + 2)%float.
Definition powerUpCount64 (level : Z) : option Z :=
  Binary64.floor (Binary64.ofZ level * 0.8 + 1)%float.
Definition collectibleCount64 (size : Z) : option Z :=
  Binary64.floor (Binary64.ofZ size * 1.2)%float.

End Doubles.
Import Doubles.

(** The cells of the enemies, power-ups and collectibles created. *)
Definition spawnCell (i : item) : option node :=
  match i with
  | Enemy c _ | PowerUp c _ | Collectible c _ => Some c
  | _ => None
  end.
Definition spawnCells (items : list item) : list node := omap spawnCell items.

Definition enemyCells (items : list item) : list node :=
  omap (fun i => match i with Enemy c _ => Some c | _ => None end) items.

(** *** The two scans of the maze *)

Lemma span_spec (lo hi v : Z) : v ∈ span lo hi <-> lo <= v < hi.
Proof.
  unfold span. rewrite list_elem_of_fmap. split.
  - intros (i & -> & Hi). apply list_elem_of_In, in_seq in Hi. lia.
  - intros Hv. exists (Z.to_nat (v - lo)). split; [lia |].
    apply list_elem_of_In, in_seq. lia.
Qed.

Lemma span_NoDup (lo hi : Z) : NoDup (span lo hi).
Proof.
  unfold span. apply NoDup_fmap_2; [intros i j Hij; lia |].
  apply NoDup_ListNoDup, seq_NoDup.
Qed.

(** *** The counts *)

(** For the levels 0 to 100 and the sizes 0 to 100 the counts on
    doubles are the exact ones. *)
Lemma counts_binary64 (n : Z) :
  0 <= n <= 100 ->
  enemyCount64 n = Some (Z.of_nat (enemyCount n)) /\
  powerUpCount64 n = Some (Z.of_nat (powerUpCount n)) /\
  collectibleCount64 n = Some (Z.of_nat (collectibleCount n)).
Proof.
  intros Hn.
  assert (forallb (fun n =>
            bool_decide (enemyCount64 n = Some (Z.of_nat (enemyCount n))) &&
            bool_decide (powerUpCount64 n = Some (Z.of_nat (powerUpCount n))) &&
            bool_decide (collectibleCount64 n = Some (Z.of_nat (collectibleCount n))))
            (span 0 101) = true) as Hall by (vm_compute; reflexivity).
  rewrite forallb_forall in Hall.
  specialize (Hall n). rewrite <- list_elem_of_In, span_spec in Hall.
  specialize (Hall ltac:(lia)).
  apply andb_prop in Hall as [Hall H3]. apply andb_prop in Hall as [H1 H2].
  apply bool_decide_eq_true in H1, H2, H3. auto.
Qed.

(** The cells of row [z] that hold [v]. *)
Definition rowCells (maze : grid) (lo hi : Z) (v : nat) (z : Z) : list node :=
  match maze !! Z.to_nat z with
  | None => []
  | Some row =>
      map (fun x => (x, z))
          (List.filter (fun x => bool_decide (row !! Z.to_nat x = Some v)) (span lo hi))
  end.

Lemma rowCells_spec (maze : grid) (lo hi : Z) (v : nat) (z : Z) (c : node) :
  0 <= lo -> 0 <= z ->
  c ∈ rowCells maze lo hi v z <-> nz c = z /\ lo <= nx c < hi /\ cellAt maze c = Some v.
Proof.
  intros Hlo Hz. unfold rowCells, cellAt. destruct c as [x z']. cbn [nx nz fst snd].
  destruct (maze !! Z.to_nat z) as [row |] eqn:Hrow.
  - rewrite list_elem_of_fmap. split.
    + intros (x0 & [= -> ->] & Hx). apply list_elem_of_In, filter_In in Hx as [Hx Hv].
      apply list_elem_of_In, span_spec in Hx. apply bool_decide_eq_true in Hv.
      rewrite Hrow. cbn. auto.
    + intros (-> & Hx & Hv). rewrite Hrow in Hv. cbn in Hv.
      exists x. split; [reflexivity |]. apply list_elem_of_In, filter_In.
      split; [apply list_elem_of_In, span_spec; exact Hx | apply bool_decide_eq_true; exact Hv].
  - split; [intros H; by apply elem_of_nil in H |].
    intros (-> & _ & Hv). rewrite Hrow in Hv. discriminate.
Qed.

Lemma rowCells_NoDup (maze : grid) (lo hi : Z) (v : nat) (z : Z) :
  NoDup (rowCells maze lo hi v z).
Proof.
  unfold rowCells. destruct (maze !! Z.to_nat z) as [row |]; [| constructor].
  apply NoDup_fmap_2; [intros x y [= ->]; reflexivity |].
  apply NoDup_ListNoDup, List.NoDup_filter, NoDup_ListNoDup, span_NoDup.
Qed.

Lemma cellsHolding_spec (maze : grid) (size lo hi : Z) (v : nat) :
  square maze size -> 0 <= lo -> hi <= size ->
  exists found, cellsHolding maze lo hi v = Done found /\ NoDup found /\
    forall c, c ∈ found <-> lo <= nx c < hi /\ lo <= nz c < hi /\ cellAt maze c = Some v.
Proof.
  intros [Hlen Hrows] Hlo Hhi. unfold cellsHolding.
  assert (forall (zs : list Z) (acc : list node),
            NoDup zs -> (forall z, z ∈ zs -> lo <= z < hi) ->
            NoDup acc -> (forall c, c ∈ acc -> nz c ∉ zs) ->
            exists found,
              fold_left
                (fun acc z =>
                   andThen acc (fun found =>
                     match maze !! Z.to_nat z with
                     | None => TypeError
                     | Some row =>
                         Done (found ++
                               map (fun x => (x, z))
                                   (List.filter
                                      (fun x => bool_decide (row !! Z.to_nat x = Some v))
                                      (span lo hi)))
                     end)) zs (Done acc) = Done found /\
              NoDup found /\
              forall c, c ∈ found <->
                c ∈ acc \/ (nz c ∈ zs /\ lo <= nx c < hi /\ cellAt maze c = Some v))
    as Hloop.
  { induction zs as [| z zs IH]; intros acc Hzs Hin Hacc Hsep.
    - exists acc. split; [reflexivity |]. split; [exact Hacc |].
      intros c. rewrite elem_of_nil. tauto.
    - cbn [fold_left andThen].
      apply NoDup_cons in Hzs as [Hz Hzs].
      assert (lo <= z < hi) as Hzr by (apply Hin, list_elem_of_here).
      destruct (lookup_lt_is_Some_2 maze (Z.to_nat z)) as [row Hrow]; [lia |].
      rewrite Hrow.
      change (map (fun x => (x, z)) (List.filter _ (span lo hi)))
        with (match Some row with
              | None => []
              | Some row =>
                  map (fun x : Z => (x, z))
                    (List.filter (fun x => bool_decide (row !! Z.to_nat x = Some v))
                       (span lo hi))
              end).
      rewrite <- Hrow. fold (rowCells maze lo hi v z).
      destruct (IH (acc ++ rowCells maze lo hi v z)) as (found & Hf & Hnd & Hmem).
      + exact Hzs.
      + intros z' Hz'. apply Hin. apply list_elem_of_further. exact Hz'.
      + apply NoDup_app. split; [exact Hacc |]. split; [| apply rowCells_NoDup].
        intros c Hc Hc'. apply rowCells_spec in Hc' as (Hcz & _); [| lia | lia].
        apply (Hsep c Hc). rewrite Hcz. apply list_elem_of_here.
      + intros c Hc Hcz. apply elem_of_app in Hc as [Hc | Hc].
        * apply (Hsep c Hc). apply list_elem_of_further. exact Hcz.
        * apply rowCells_spec in Hc as (Hcz' & _); [| lia | lia]. congruence.
      + exists found. split; [exact Hf |]. split; [exact Hnd |].
        intros c. rewrite Hmem, elem_of_app, elem_of_cons.
        rewrite rowCells_spec by lia. intuition congruence. }
  destruct (Hloop (span lo hi) []) as (found & Hf & Hnd & Hmem).
  - apply span_NoDup.
  - intros z Hz. apply span_spec. exact Hz.
  - constructor.
  - intros c Hc. by apply elem_of_nil in Hc.
  - exists found. split; [exact Hf |]. split; [exact Hnd |].
    intros c. rewrite Hmem, elem_of_nil, span_spec. tauto.
Qed.

(** *** The three loops *)

Lemma splice1_spec (l : list node) (index : Z) :
  match fst (splice1 l index) with
  | Some c => l ≡ₚ c :: snd (splice1 l index)
  | None => snd (splice1 l index) = l
  end.
Proof.
  unfold splice1. cbv zeta.
  destruct (l !! Z.to_nat _) as [c |] eqn:Hc; cbn [fst snd]; [| reflexivity].
  apply delete_Permutation. exact Hc.
Qed.

Lemma popCell_spec (rng : random) (l : list node) (k : nat) :
  match fst (fst (popCell rng l k)) with
  | Some c => l ≡ₚ c :: snd (fst (popCell rng l k))
  | None => snd (fst (popCell rng l k)) = l
  end.
Proof.
  unfold popCell. destruct l as [| a l]; [reflexivity |]. cbn [fst snd].
  apply splice1_spec.
Qed.

Definition isSpawn (i : item) : Prop := is_Some (spawnCell i).

Lemma spawnCells_app (a b : list item) : spawnCells (a ++ b) = spawnCells a ++ spawnCells b.
Proof. unfold spawnCells. apply omap_app. Qed.

Lemma enemyCells_app (a b : list item) : enemyCells (a ++ b) = enemyCells a ++ enemyCells b.
Proof. unfold enemyCells. apply omap_app. Qed.

Section Placing.

Variable maze : grid.
Variable size : Z.
Variable level : Z.
Variable rng : random.
Variable prefix : list item.
Variable allOpen : list node.

Hypothesis maze_square : square maze size.
Hypothesis rng_unit : forall k, (0 <= rng k)%Q /\ (rng k < 1)%Q.
Hypothesis size_pos : 0 < size.

(** After [n] turns: the spawns so far stand on distinct cells taken
    from the open cells, none of them is left to take again, and no
    enemy stands near the start. *)
Definition placed (n : nat) (p : progress) : Prop :=
  exists spawns, made p = prefix ++ spawns /\ Forall isSpawn spawns /\
    NoDup (spawnCells spawns ++ left p) /\
    (forall c, c ∈ spawnCells spawns ++ left p -> c ∈ allOpen) /\
    (forall c, c ∈ enemyCells spawns -> nearStart c = false) /\
    (length spawns <= n)%nat.

(** A turn that took no cell, or took one and dropped it. *)
Lemma placed_skip (n : nat) (p : progress) (cell : option node) (rest : list node) (k : nat) :
  placed n p ->
  match cell with Some c => left p ≡ₚ c :: rest | None => rest = left p end ->
  placed (S n) (mkProgress (made p) rest k).
Proof.
  intros (sp & Hm & Hall & Hnd & Hsub & Hfar & Hlen) Hcell.
  exists sp. cbn [made left]. split; [exact Hm |]. split; [exact Hall |].
  destruct cell as [c |].
  - assert (spawnCells sp ++ left p ≡ₚ c :: (spawnCells sp ++ rest)) as Hperm.
    { rewrite Hcell. symmetry. apply Permutation_middle. }
    split; [| split; [| split; [exact Hfar | lia]]].
    + rewrite Hperm in Hnd. apply NoDup_cons in Hnd as [_ Hnd]. exact Hnd.
    + intros c' Hc'. apply Hsub. rewrite Hperm.
      apply list_elem_of_further. exact Hc'.
  - subst rest. split; [exact Hnd |]. split; [exact Hsub |]. split; [exact Hfar | lia].
Qed.

(** A turn that took a cell and created something on it. *)
Lemma placed_spawn (n : nat) (p : progress) (c : node) (rest : list node) (k : nat)
    (i : item) :
  placed n p -> left p ≡ₚ c :: rest -> spawnCell i = Some c ->
  (forall f, i = Enemy c f -> nearStart c = false) ->
  placed (S n) (mkProgress (made p ++ [i]) rest k).
Proof.
  intros (sp & Hm & Hall & Hnd & Hsub & Hfar & Hlen) Hcell Hi Henemy.
  exists (sp ++ [i]). cbn [made left].
  assert (spawnCells (sp ++ [i]) = spawnCells sp ++ [c]) as Hcells.
  { rewrite spawnCells_app. unfold spawnCells at 2. cbn. rewrite Hi. reflexivity. }
  assert (spawnCells sp ++ left p ≡ₚ (spawnCells sp ++ [c]) ++ rest) as Hperm.
  { rewrite Hcell, <- app_assoc. reflexivity. }
  split; [rewrite Hm, app_assoc; reflexivity |].
  split; [apply Forall_app; split; [exact Hall |]; repeat constructor; unfold isSpawn;
          rewrite Hi; eauto |].
  split; [| split; [| split]].
  - rewrite Hcells, <- Hperm. exact Hnd.
  - intros c' Hc'. apply Hsub. rewrite Hperm, <- Hcells. exact Hc'.
  - intros c' Hc'. rewrite enemyCells_app in Hc'. apply elem_of_app in Hc' as [Hc' | Hc'].
    + exact (Hfar c' Hc').
    + destruct i; cbn in Hc'; try (by apply elem_of_nil in Hc').
      apply list_elem_of_singleton in Hc' as ->. cbn in Hi. injection Hi as ->.
      eapply Henemy. reflexivity.
  - rewrite length_app. cbn. lia.
Qed.

Lemma enemyTurn_placed (fuel n : nat) (p : progress) :
  placed n p ->
  match enemyTurn maze size rng fuel p with
  | Done p' => placed (S n) p'
  | TypeError => False
  | Diverges => ~ lively maze size rng fuel
  end.
Proof.
  intros Hp. unfold enemyTurn.
  pose proof (popCell_spec rng (left p) (calls p)) as Hpop.
  destruct (popCell rng (left p) (calls p)) as [[cell rest] k1]. cbn [fst snd] in Hpop.
  destruct cell as [c |]; [| exact (placed_skip n p None rest k1 Hp Hpop)].
  destruct (nearStart c) eqn:Hnear; [exact (placed_skip n p (Some c) rest k1 Hp Hpop) |].
  set (t := if Qlt_le_dec (rng k1) (7 # 10) then Patrol else Chaser).
  set (s := match t with Chaser => CHASER_BASE_SPEED | Patrol => PATROL_BASE_SPEED end).
  pose proof (lifetime_safely maze size rng maze_square rng_unit size_pos fuel t s
                (placeR size (nx c), placeR size (nz c)) (S (S k1)) []) as Hlife.
  unfold lifetime in Hlife.
  destruct (construct maze size rng fuel t s _ (S (S k1))) as [[f k'] | |];
    cbn [andThen frames fst snd] in Hlife |- *; [| exact Hlife | exact Hlife].
  apply (placed_spawn n p c rest k' (Enemy c f) Hp Hpop); [reflexivity |].
  intros _ _. exact Hnear.
Qed.

Lemma enemyLoop_placed (fuel : nat) (turns : nat) :
  forall n p, placed n p ->
    match enemyLoop maze size rng fuel turns p with
    | Done p' => placed (turns + n) p'
    | TypeError => False
    | Diverges => ~ lively maze size rng fuel
    end.
Proof.
  induction turns as [| turns IH]; intros n p Hp; [exact Hp |].
  cbn [enemyLoop]. pose proof (enemyTurn_placed fuel n p Hp) as Ht.
  destruct (enemyTurn maze size rng fuel p) as [p1 | |]; cbn [andThen]; [| exact Ht | exact Ht].
  specialize (IH (S n) p1 Ht).
  destruct (enemyLoop maze size rng fuel turns p1) as [p' | |]; [| exact IH | exact IH].
  replace (S turns + n)%nat with (turns + S n)%nat by lia. exact IH.
Qed.

Lemma powerUpTurn_placed (n : nat) (p : progress) :
  placed n p -> placed (S n) (powerUpTurn rng p).
Proof.
  intros Hp. unfold powerUpTurn.
  pose proof (popCell_spec rng (left p) (calls p)) as Hpop.
  destruct (popCell rng (left p) (calls p)) as [[cell rest] k1]. cbn [fst snd] in Hpop.
  destruct cell as [c |]; [| exact (placed_skip n p None rest k1 Hp Hpop)].
  apply (placed_spawn n p c rest _ _ Hp Hpop); [reflexivity | discriminate].
Qed.

Lemma collectibleTurn_placed (n : nat) (p : progress) (i : nat) :
  placed n p -> placed (S n) (collectibleTurn rng p i).
Proof.
  intros Hp. unfold collectibleTurn.
  pose proof (popCell_spec rng (left p) (calls p)) as Hpop.
  destruct (popCell rng (left p) (calls p)) as [[cell rest] k1]. cbn [fst snd] in Hpop.
  destruct cell as [c |]; [| exact (placed_skip n p None rest k1 Hp Hpop)].
  apply (placed_spawn n p c rest _ _ Hp Hpop); [reflexivity | discriminate].
Qed.

Lemma powerUps_placed (turns : nat) :
  forall n p, placed n p -> placed (turns + n) (Nat.iter turns (powerUpTurn rng) p).
Proof.
  induction turns as [| turns IH]; intros n p Hp; [exact Hp |].
  cbn [Nat.iter nat_rect]. apply (powerUpTurn_placed (turns + n)). apply IH. exact Hp.
Qed.

Lemma collectibles_placed (idx : list nat) :
  forall n p, placed n p ->
    placed (length idx + n) (fold_left (collectibleTurn rng) idx p).
Proof.
  induction idx as [| i idx IH]; intros n p Hp; [exact Hp |].
  cbn [fold_left length].
  replace (S (length idx) + n)%nat with (length idx + S n)%nat by lia.
  apply IH. apply collectibleTurn_placed. exact Hp.
Qed.

End Placing.

(** A hall of 9 by 9 cells, open inside its outer ring. *)
Definition hall : grid :=
  let wall := replicate 9 1%nat in
  let row := [1%nat] ++ replicate 7 0%nat ++ [1%nat] in
  [wall] ++ replicate 7 row ++ [wall].

Lemma hall_square : square hall 9.
Proof. split; [reflexivity |]. repeat constructor. Qed.

(** What [#populateMaze] creates on a square maze. *)
Lemma populateMaze_spec (maze : grid) (size level : Z) (rng : random) (fuel k : nat) :
  square maze size ->
  (forall i, (0 <= rng i)%Q /\ (rng i < 1)%Q) ->
  0 < size ->
  match populateMaze maze size level rng fuel k with
  | Done (items, _) =>
      exists walls spawns,
        items = [Player (1, 1); TrailLine] ++ map Wall walls
                ++ [Goal (size - 2, size - 2)] ++ spawns /\
        (forall c, c ∈ walls <->
           0 <= nx c < size /\ 0 <= nz c < size /\ cellAt maze c = Some 1%nat) /\
        NoDup walls /\
        Forall (fun i => is_Some (spawnCell i)) spawns /\
        NoDup (spawnCells spawns) /\
        (forall c, c ∈ spawnCells spawns ->
           1 <= nx c < size - 1 /\ 1 <= nz c < size - 1 /\ cellAt maze c = Some 0%nat) /\
        (forall c, c ∈ enemyCells spawns -> nearStart c = false) /\
        (length spawns <= enemyCount level + powerUpCount level + collectibleCount size)%nat
  | TypeError => False
  | Diverges => ~ lively maze size rng fuel
  end.
Proof.
  intros Hsq Hrng Hsize. unfold populateMaze.
  destruct (cellsHolding_spec maze size 1 (size - 1) 0%nat Hsq ltac:(lia) ltac:(lia))
    as (openCells & -> & Hond & Hopen).
  destruct (cellsHolding_spec maze size 0 size 1%nat Hsq ltac:(lia) ltac:(lia))
    as (walls & -> & Hwnd & Hwalls).
  cbn [andThen].
  set (pre := [Player (1, 1); TrailLine] ++ map Wall walls ++ [Goal (size - 2, size - 2)]).
  set (p0 := mkProgress pre openCells k).
  assert (placed pre openCells 0 p0) as H0.
  { exists []. cbn [made left p0 spawnCells enemyCells omap app length].
    split; [rewrite app_nil_r; reflexivity |]. split; [constructor |].
    split; [exact Hond |]. split; [auto |]. split; [| lia].
    intros c Hc. by apply elem_of_nil in Hc. }
  pose proof (enemyLoop_placed maze size rng pre openCells Hsq Hrng Hsize
                fuel (enemyCount level) 0 p0 H0) as H1.
  destruct (enemyLoop maze size rng fuel (enemyCount level) p0) as [p1 | |];
    cbn [andThen]; [| exact H1 | exact H1].
  apply (powerUps_placed rng pre openCells (powerUpCount level)) in H1.
  apply (collectibles_placed rng pre openCells (seq 0 (collectibleCount size))) in H1.
  rewrite length_seq in H1.
  destruct H1 as (sp & Hm & Hall & Hnd & Hsub & Hfar & Hlen).
  exists walls, sp. rewrite Hm. subst pre.
  split; [rewrite <- !app_assoc; reflexivity |].
  split; [exact Hwalls |]. split; [exact Hwnd |]. split; [exact Hall |].
  split; [apply NoDup_app in Hnd as [Hnd _]; exact Hnd |].
  split; [| split; [exact Hfar | lia]].
  intros c Hc. apply Hopen, Hsub, elem_of_app. left. exact Hc.
Qed.

Lemma spawnCells_walls (walls : list node) : spawnCells (map Wall walls) = [].
Proof. induction walls as [| w ws IH]; [reflexivity | exact IH]. Qed.

(** X27: [#populateMaze] on a square maze.  It never fails on a missing
    row or cell.  A wall is created for exactly the cells that hold 1,
    one each.  Every enemy, power-up and collectible is placed on an
    open cell strictly inside the outer ring, no two of them on the
    same cell; every enemy is 5 cells or more from the start cell
    (1, 1) along x or along z; and there are no more of them than the
    three counts together.  It can only fail to return when the random
    sequence never draws an open cell for a patrol target. *)
Theorem populateMaze_places (maze : grid) (size level : Z) (rng : random) (fuel k : nat) :
  square maze size ->
  (forall i, (0 <= rng i)%Q /\ (rng i < 1)%Q) ->
  0 < size ->
  match populateMaze maze size level rng fuel k with
  | Done (items, _) =>
      exists walls spawns,
        items = [Player (1, 1); TrailLine] ++ map Wall walls
                ++ [Goal (size - 2, size - 2)] ++ spawns /\
        (forall c, c ∈ walls <->
           0 <= nx c < size /\ 0 <= nz c < size /\ cellAt maze c = Some 1%nat) /\
        NoDup walls /\
        Forall (fun i => is_Some (spawnCell i)) spawns /\
        NoDup (spawnCells spawns) /\
        (forall c, c ∈ spawnCells spawns ->
           1 <= nx c < size - 1 /\ 1 <= nz c < size - 1 /\ cellAt maze c = Some 0%nat) /\
        (forall c, c ∈ enemyCells spawns -> 5 <= Z.abs (nx c - 1) \/ 5 <= Z.abs (nz c - 1)) /\
        (length spawns <= enemyCount level + powerUpCount level + collectibleCount size)%nat
  | TypeError => False
  | Diverges => ~ lively maze size rng fuel
  end.
Proof.
  intros Hsq Hrng Hsize.
  pose proof (populateMaze_spec maze size level rng fuel k Hsq Hrng Hsize) as H.
  destruct (populateMaze maze size level rng fuel k) as [[items k'] | |];
    [| exact H | exact H].
  destruct H as (walls & sp & Hi & Hw & Hwnd & Hall & Hnd & Hin & Hfar & Hlen).
  exists walls, sp. split; [exact Hi |]. split; [exact Hw |]. split; [exact Hwnd |].
  split; [exact Hall |]. split; [exact Hnd |]. split; [exact Hin |]. split; [| exact Hlen].
  intros c Hc. specialize (Hfar c Hc). unfold nearStart in Hfar.
  apply andb_false_iff in Hfar as [Hf | Hf]; apply Z.ltb_ge in Hf; [left | right]; exact Hf.
Qed.

Lemma hall_lively : lively hall 9 middle 1.
Proof. intros k. exists 0%nat. split; [lia | reflexivity]. Qed.

Lemma populateMaze_places_witness :
  exists items k', populateMaze hall 9 1 middle 1 0 = Done (items, k') /\
    NoDup (spawnCells items) /\
    forall c, c ∈ spawnCells items -> cellAt hall c = Some 0%nat.
Proof.
  pose proof (populateMaze_places hall 9 1 middle 1 0 hall_square middle_unit ltac:(lia)) as H.
  destruct (populateMaze hall 9 1 middle 1 0) as [[items k'] | |];
    [| contradiction | exfalso; exact (H hall_lively)].
  destruct H as (walls & sp & Hi & _ & _ & _ & Hnd & Hin & _).
  assert (spawnCells items = spawnCells sp) as Hs.
  { rewrite Hi, !spawnCells_app. cbn.
    rewrite spawnCells_walls. reflexivity. }
  exists items, k'. split; [reflexivity |]. rewrite Hs. split; [exact Hnd |].
  intros c Hc. apply (Hin c Hc).
Defined.

(** X28: nothing is placed out of reach.  At every level from 0 on, in
    the maze generated for the size of that level, [findPath] finds a
    path through open cells from the start cell (1, 1) to the cell of
    every enemy, power-up and collectible that [#populateMaze]
    creates, whatever the number [k] of calls of [Math.random] so
    far. *)
Theorem level_items_reachable (level : Z) (rng : random) (fuel k : nat) :
  0 <= level ->
  (forall i, (0 <= rng i)%Q /\ (rng i < 1)%Q) ->
  let size := mazeSize level in
  exists maze, generateMaze (Z.to_nat size) (Z.to_nat size) rng = Some maze /\
    match populateMaze maze size level rng fuel k with
    | Done (items, _) =>
        forall c, c ∈ spawnCells items ->
          exists p, findPath maze (1, 1) c = Path p /\
            head p = Some (1, 1) /\ last p = Some c /\
            Forall (fun c' => cellAt maze c' = Some 0%nat) p
    | TypeError => False
    | Diverges => ~ lively maze size rng fuel
    end.
Proof.
  intros Hl Hrng. cbv zeta.
  destruct (mazeSize_odd_bounded level Hl) as [Hodd Hrange].
  set (size := mazeSize level) in *.
  destruct (Labyrinth.generateMaze_sound (Z.to_nat size) (Z.to_nat size)
              ltac:(lia) ltac:(lia) rng Hrng) as (maze & Hgen & HS).
  exists maze. split; [exact Hgen |].
  assert (square maze size) as Hsq.
  { destruct (Labyrinth.s_wf _ _ _ HS) as [Hlen Hrows]. split; [lia |].
    eapply Forall_impl; [exact Hrows |]. cbn. intros row Hrow. lia. }
  pose proof (populateMaze_spec maze size level rng fuel k Hsq Hrng ltac:(lia)) as H.
  destruct (populateMaze maze size level rng fuel k) as [[items k'] | |];
    [| exact H | exact H].
  destruct H as (walls & sp & Hi & _ & _ & _ & _ & Hin & _).
  intros c Hc.
  rewrite Hi, !spawnCells_app, spawnCells_walls in Hc. cbn in Hc.
  destruct (Hin c Hc) as (Hx & Hz & Hopen).
  apply (Labyrinth.sound_routes (Z.to_nat size) (Z.to_nat size) maze c
           ltac:(lia) ltac:(lia) HS); [| exact Hopen].
  unfold inGrid. lia.
Qed.

Lemma level_items_reachable_witness :
  let size := mazeSize 1 in
  exists maze, generateMaze (Z.to_nat size) (Z.to_nat size) (fun _ => 0%Q) = Some maze /\
    match populateMaze maze size 1 (fun _ => 0%Q) 1 0 with
    | Done (items, _) =>
        forall c, c ∈ spawnCells items ->
          exists p, findPath maze (1, 1) c = Path p /\
            head p = Some (1, 1) /\ last p = Some c /\
            Forall (fun c' => cellAt maze c' = Some 0%nat) p
    | TypeError => False
    | Diverges => ~ lively maze size (fun _ => 0%Q) 1
    end.
Proof.
  apply (level_items_reachable 1 (fun _ => 0%Q) 1 0); [lia |].
  intros _. split; [apply Qle_refl | reflexivity].
Defined.

End Population.

(** ** Keys, boost and dash (the key listeners and #inputSystem) *)

Module Input.
Import GameState.

Local Open Scope Q_scope.

Definition JUMP_COST : Q := 25.
Definition ENERGY_REGEN_RATE : Q := 1 # 5.
Definition ENERGY_BOOST_COST : Q := 1 # 2.
Definition MOVE_SOUND_INTERVAL : nat := 12.

Inductive action := MOVE_FORWARD | MOVE_BACK | MOVE_LEFT | MOVE_RIGHT | JUMP | BOOST.

#[local] Instance action_eq_dec : EqDecision action.
Proof. solve_decision. Defined.

(** [ACTION_BINDINGS[event.code]] *)
Definition ACTION_BINDINGS (code : string) : option action :=
  if String.eqb code "KeyW" then Some MOVE_FORWARD
  else if String.eqb code "ArrowUp" then Some MOVE_FORWARD
  else if String.eqb code "KeyS" then Some MOVE_BACK
  else if String.eqb code "ArrowDown" then Some MOVE_BACK
  else if String.eqb code "KeyA" then Some MOVE_LEFT
  else if String.eqb code "ArrowLeft" then Some MOVE_LEFT
  else if String.eqb code "KeyD" then Some MOVE_RIGHT
  else if String.eqb code "ArrowRight" then Some MOVE_RIGHT
  else if String.eqb code "Space" then Some JUMP
  else if String.eqb code "ShiftLeft" then Some BOOST
  else if String.eqb code "ShiftRight" then Some BOOST
  else None.

(** The arguments of [audio.play] that the listeners and the system use. *)
Inductive sound := Move | Boost | BoostEnd | Jump.

(** What the key listeners and [#inputSystem] read and write, the
    player's velocity apart: the game state, [activeActions] (a [Set]),
    three fields of [this.state], the calls of [audio.play] in their
    order, and the number of cooldown timers set and not yet run. *)
Record state := mkState {
  game : GameState.state;
  activeActions : list action;
  isBoosting : bool;
  jumpReady : bool;
  moveTimer : nat;
  played : list sound;
  timers : nat
}.

Definition initial : state := mkState GameState.initial [] false true 0 [] 0.

Definition withGame (g : GameState.state) (s : state) : state :=
  mkState g (activeActions s) (isBoosting s) (jumpReady s) (moveTimer s) (played s) (timers s).
Definition withActions (a : list action) (s : state) : state :=
  mkState (game s) a (isBoosting s) (jumpReady s) (moveTimer s) (played s) (timers s).
Definition withBoosting (b : bool) (s : state) : state :=
  mkState (game s) (activeActions s) b (jumpReady s) (moveTimer s) (played s) (timers s).
Definition withMoveTimer (n : nat) (s : state) : state :=
  mkState (game s) (activeActions s) (isBoosting s) (jumpReady s) n (played s) (timers s).
Definition play (x : sound) (s : state) : state :=
  mkState (game s) (activeActions s) (isBoosting s) (jumpReady s) (moveTimer s)
          (played s ++ [x]) (timers s).

(** [this.gameState.energy += d] *)
Definition addEnergy (d : Q) (s : state) : state :=
  withGame (set_energy (energy (game s) + d) (game s)) s.

(** [this.activeActions.has(a)] *)
Definition has (a : action) (s : state) : bool := bool_decide (a ∈ activeActions s).

(** The [keydown] listener, for what it does to [activeActions]. *)
Definition keydown (code : string) (s : state) : state :=
  match ACTION_BINDINGS code with
  | Some a => if has a s then s else withActions (activeActions s ++ [a]) s
  | None => s
  end.

(** The [keyup] listener. *)
Definition keyup (code : string) (s : state) : state :=
  match ACTION_BINDINGS code with
  | Some a =>
      let s1 := withActions (List.filter (fun b => negb (bool_decide (b = a))) (activeActions s)) s in
      if bool_decide (a = BOOST) && negb (has BOOST s1)
      then withBoosting false (play BoostEnd s1)
      else s1
  | None => s
  end.

(** [if (this.state.isBoosting) { this.audio.play('boostEnd'); this.state.isBoosting = false; }] *)
Definition endBoost (s : state) : state :=
  if isBoosting s then withBoosting false (play BoostEnd s) else s.

(** [#inputSystem(deltaTime)], the velocity apart; [playerExists] is
    what [entityExists(world, playerEid)] returns. *)
Definition inputSystem (playerExists : bool) (s : state) : state :=
  if negb playerExists then s
  else
    let boosting := has BOOST s && Qle_bool ENERGY_BOOST_COST (energy (game s)) in
    let applied :=
      has MOVE_FORWARD s || has MOVE_BACK s || has MOVE_LEFT s || has MOVE_RIGHT s in
    let s1 :=
      if applied then
        let s2 := withMoveTimer (moveTimer s + 1) s in
        let s3 := if (moveTimer s2 mod MOVE_SOUND_INTERVAL =? 0)%nat then play Move s2 else s2 in
        if boosting then
          let s4 := addEnergy (- ENERGY_BOOST_COST) s3 in
          if isBoosting s4 then s4 else withBoosting true (play Boost s4)
        else endBoost (addEnergy ENERGY_REGEN_RATE s3)
      else endBoost (addEnergy ENERGY_REGEN_RATE s) in
    if has JUMP s1 && Qle_bool JUMP_COST (energy (game s1)) && jumpReady s1 then
      (* jumpReady = false; setTimeout(...); energy -= JUMP_COST; play('jump') *)
      let s5 := mkState (game s1) (activeActions s1) (isBoosting s1) false (moveTimer s1)
                        (played s1) (timers s1 + 1) in
      play Jump (addEnergy (- JUMP_COST) s5)
    else s1.

(** What happens between two frames, as far as this state goes. *)
Inductive event :=
| KeyDown (code : string)
| KeyUp (code : string)
| Frame (playerExists : bool)
| Timeout                        (* a cooldown timer runs: [jumpReady = true] *)
| Energy (value : Q)             (* another system assigns [gameState.energy] *)
| Restart.                       (* [gameState.reset()] *)

Definition perform (s : state) (e : event) : state :=
  match e with
  | KeyDown code => keydown code s
  | KeyUp code => keyup code s
  | Frame playerExists => inputSystem playerExists s
  | Timeout =>
      match timers s with
      | O => s
      | S n => mkState (game s) (activeActions s) (isBoosting s) true (moveTimer s)
                       (played s) n
      end
  | Energy value => withGame (set_energy value (game s)) s
  | Restart => withGame (reset (game s)) s
  end.

Definition run (es : list event) (s : state) : state := fold_left perform es s.

(** Whether the boost noise is on after the sounds [l], when it was
    [on] before. *)
Fixpoint boostOn (on : bool) (l : list sound) : bool :=
  match l with
  | [] => on
  | Boost :: r => boostOn true r
  | BoostEnd :: r => boostOn false r
  | _ :: r => boostOn on r
  end.

(** No 'boost' while the noise is on. *)
Fixpoint startedOnce (on : bool) (l : list sound) : bool :=
  match l with
  | [] => true
  | Boost :: r => negb on && startedOnce true r
  | BoostEnd :: r => startedOnce false r
  | _ :: r => startedOnce on r
  end.

Definition jumps (l : list sound) : nat :=
  length (List.filter (fun x => match x with Jump => true | _ => false end) l).

Definition timeouts (es : list event) : nat :=
  length (List.filter (fun e => match e with Timeout => true | _ => false end) es).

Lemma run_events_snoc (es : list event) (e : event) (s : state) :
  run (es ++ [e]) s = perform (run es s) e.
Proof. unfold run. rewrite fold_left_app. reflexivity. Qed.



(** The boost noise is on exactly while [isBoosting] holds, and it was
    never started while on. *)
Definition inTune (s : state) : Prop :=
  isBoosting s = boostOn false (played s) /\ startedOnce false (played s) = true.

Lemma inTune_silent (s : state) (g : GameState.state) (a : list action) (n : nat) :
  inTune s ->
  inTune (mkState g a (isBoosting s) (jumpReady s) n (played s) (timers s)).
Proof. intros H. exact H. Qed.







Lemma jumps_snoc (l : list sound) (x : sound) :
  jumps (l ++ [x]) = (jumps l + match x with Jump => 1 | _ => 0 end)%nat.
Proof.
  unfold jumps. rewrite List.filter_app, length_app. destruct x; reflexivity.
Qed.

Lemma timeouts_snoc (es : list event) (e : event) :
  timeouts (es ++ [e]) = (timeouts es + match e with Timeout => 1 | _ => 0 end)%nat.
Proof.
  unfold timeouts. rewrite List.filter_app, length_app. destruct e; reflexivity.
Qed.

Ltac fields :=
  cbn [game activeActions isBoosting jumpReady moveTimer played timers
       withBoosting play withGame withActions withMoveTimer addEnergy].

Lemma dash_endBoost (s : state) :
  jumpReady (endBoost s) = jumpReady s /\ timers (endBoost s) = timers s /\
  jumps (played (endBoost s)) = jumps (played s).
Proof.
  unfold endBoost. destruct (isBoosting s); fields; [| auto].
  rewrite jumps_snoc, Nat.add_0_r. auto.
Qed.

Lemma dash_inputSystem (playerExists : bool) (s : state) :
  let s' := inputSystem playerExists s in
  (jumpReady s' = jumpReady s /\ timers s' = timers s /\
   jumps (played s') = jumps (played s)) \/
  (jumpReady s = true /\ jumpReady s' = false /\ timers s' = S (timers s) /\
   jumps (played s') = S (jumps (played s))).
Proof.
  cbv zeta. unfold inputSystem. destruct playerExists; [| left; auto]. cbn [negb]. cbv zeta.
  set (s3 := if (_ =? 0)%nat then _ else _).
  assert (jumpReady s3 = jumpReady s /\ timers s3 = timers s /\
          jumps (played s3) = jumps (played s)) as (Hr3 & Ht3 & Hj3).
  { subst s3. destruct (_ =? 0)%nat; fields; [rewrite jumps_snoc, Nat.add_0_r |]; auto. }
  set (s1 := if _ || _ || _ || _ then _ else _).
  assert (jumpReady s1 = jumpReady s /\ timers s1 = timers s /\
          jumps (played s1) = jumps (played s)) as (Hr1 & Ht1 & Hj1).
  { subst s1. destruct (_ || _ || _ || _).
    - destruct (has BOOST s && _).
      + destruct (isBoosting (addEnergy _ s3)); fields; [| rewrite jumps_snoc, Nat.add_0_r];
          auto.
      + destruct (dash_endBoost (addEnergy ENERGY_REGEN_RATE s3)) as (-> & -> & ->). auto.
    - destruct (dash_endBoost (addEnergy ENERGY_REGEN_RATE s)) as (-> & -> & ->). auto. }
  destruct (has JUMP s1 && _ && jumpReady s1) eqn:Hj; [| left; auto].
  right. apply andb_prop in Hj as [_ Hready]. fields.
  rewrite jumps_snoc, <- Hr1, Hready, Ht1, Hj1. repeat split; lia.
Qed.



(** X30: the dash has a cooldown that always ends: after any such
    sequence a cooldown timer is pending exactly while [jumpReady] is
    false, never more than one, and the number of dashes made is at
    most the number of timer runs plus the pending timer. *)
Theorem dash_cooldown (es : list event) :
  let s := run es initial in
  timers s = (if jumpReady s then 0 else 1)%nat /\
  (jumps (played s) <= timeouts es + timers s)%nat.
Proof.
  cbv zeta. induction es as [| e es IH] using rev_ind; [split; [reflexivity | cbn; lia] |].
  rewrite run_events_snoc, timeouts_snoc. destruct IH as [Ht Hj].
  set (s := run es initial) in *.
  destruct e as [code | code | playerExists | | value |]; cbn [perform].
  - unfold keydown. destruct (ACTION_BINDINGS code) as [a |]; [| split; [exact Ht | lia]].
    destruct (has a s); split; fields; first [exact Ht | lia].
  - unfold keyup. destruct (ACTION_BINDINGS code) as [a |]; [| split; [exact Ht | lia]].
    cbv zeta. destruct (bool_decide (a = BOOST) && _); split; fields;
      rewrite ?jumps_snoc; first [exact Ht | lia].
  - destruct (dash_inputSystem playerExists s) as [(Hr & Ht' & Hj') | (Hr & Hr' & Ht' & Hj')].
    + split; [rewrite Hr, Ht'; exact Ht | rewrite Hj', Ht'; lia].
    + rewrite Hr in Ht. split; [rewrite Hr', Ht', Ht; reflexivity | rewrite Hj', Ht'; lia].
  - destruct (timers s) as [| n] eqn:Hn; [split; [congruence | lia] |].
    destruct (jumpReady s); [discriminate |]. injection Ht as ->.
    split; fields; [reflexivity | lia].
  - split; fields; [exact Ht | lia].
  - split; fields; [exact Ht | lia].
Qed.

End Input.
